(** * Identity reconciliation service: a shallow embedding

    The development follows the TypeScript sources:
    - [types/index.ts]: the [Contact] entity and the request/response shapes;
    - [database/Database.ts]: the SQLite-backed storage class [Database];
    - [services/IdentityReconciliationService.ts]: the reconciliation engine;
    - [utils/validators.ts]: the format tests of [RequestValidator];
    - [controllers/identityController.ts]: the controller and its error
      handler.

    A [Promise A] is a computation over the database that either resolves
    with a value or rejects with an error; the database is threaded through
    explicitly, and a rejected promise keeps the writes made before the
    rejection (the service opens no transaction). *)

From Stdlib Require Import ZArith List Ascii String Bool Lia.
From Stdlib Require Import Sorting.Sorted Sorting.Permutation.
Import ListNotations.

Open Scope Z_scope.
Open Scope list_scope.

(* ================================================================= *)
(** ** Data model: [types/index.ts] *)

Module Types.

Inductive LinkPrecedence : Type := PRIMARY | SECONDARY.

(** Timestamps: [datetime('now')] has a resolution of one second; a
    timestamp is the number of seconds since the epoch.  The functions that
    write take as [now] what [datetime('now')] yields while the request
    runs. *)
Definition Time : Type := Z.

(** The same record serves for a row of table [contacts] and for the
    [Contact] object built from it by [rowToContact]. *)
Record Contact : Type := mkContact {
  id : Z;
  phoneNumber : option string;
  email : option string;
  linkedId : option Z;
  linkPrecedence : LinkPrecedence;
  createdAt : Time;
  updatedAt : Time;
  deletedAt : option Time
}.

Record CreateContactData : Type := mkCreateContactData {
  dataPhoneNumber : option string;
  dataEmail : option string;
  dataLinkedId : option Z;
  dataLinkPrecedence : LinkPrecedence
}.

Record IdentifyRequest : Type := mkIdentifyRequest {
  reqEmail : option string;
  reqPhoneNumber : option string
}.

Record IdentifyResponse : Type := mkIdentifyResponse {
  primaryContactId : Z;
  emails : list string;
  phoneNumbers : list string;
  secondaryContactIds : list Z
}.

End Types.
Import Types.

(* ================================================================= *)
(** ** JavaScript values *)

(** Truthiness of an optional string ([undefined] and the empty string are
    falsy) and of an optional number ([undefined] and [0] are falsy). *)
Definition truthyStr (s : option string) : bool :=
  match s with
  | Some s => negb (s =? EmptyString)%string
  | None => false
  end.

Definition truthyNum (n : option Z) : bool :=
  match n with
  | Some n => negb (n =? 0)
  | None => false
  end.

(** Strict equality [===] on optional strings. *)
Definition strictEq (a b : option string) : bool :=
  match a, b with
  | Some x, Some y => (x =? y)%string
  | None, None => true
  | _, _ => false
  end.

Definition isPrimary (c : Contact) : bool :=
  match linkPrecedence c with PRIMARY => true | SECONDARY => false end.

Definition isSecondary (c : Contact) : bool :=
  match linkPrecedence c with PRIMARY => false | SECONDARY => true end.

(** [Array.prototype.includes] and [Set.prototype.has] on strings. *)
Definition includes (l : list string) (s : string) : bool :=
  existsb (String.eqb s) l.

(** [l.map(c => c.f).filter(Boolean)]: the truthy values of a field. *)
Definition truthyValues (f : Contact -> option string) (l : list Contact)
  : list string :=
  flat_map (fun c => match f c with
                     | Some s => if (s =? EmptyString)%string then [] else [s]
                     | None => []
                     end) l.

(** Ordering by [createdAt]: a stable insertion sort.  It stands both for
    SQL's [ORDER BY createdAt ASC] over the table in rowid order and for
    [Array.prototype.sort] with the comparator
    [(a, b) => a.createdAt.getTime() - b.createdAt.getTime()]. *)
Fixpoint insertByCreatedAt (x : Contact) (l : list Contact) : list Contact :=
  match l with
  | [] => [x]
  | y :: l' =>
      if createdAt x <=? createdAt y then x :: y :: l'
      else y :: insertByCreatedAt x l'
  end.

Fixpoint sortByCreatedAt (l : list Contact) : list Contact :=
  match l with
  | [] => []
  | x :: l' => insertByCreatedAt x (sortByCreatedAt l')
  end.

Definition notAfter (a b : Contact) : Prop := createdAt a <= createdAt b.

(* ================================================================= *)
(** ** Promises over the database *)

Inductive Failure : Type :=
| SqliteError (msg : string)      (* the driver calls back with [err] *)
| Thrown (msg : string).          (* [throw new Error(msg)] *)

Inductive Result (A : Type) : Type :=
| Resolved (a : A)
| Rejected (e : Failure).

Arguments Resolved {A} a.
Arguments Rejected {A} e.

(** The methods of class [Database] the engine calls. *)
Inductive DbCall : Type :=
| CallCreateContact
| CallFindContactsByEmailOrPhone
| CallUpdateContactToSecondary
| CallFindAllLinkedContacts
| CallUpdateLinkedContactsPrimaryId.

(** Table [contacts] in rowid order, the AUTOINCREMENT counter
    ([sqlite_sequence]) and the log of the methods called so far. *)
Record Database : Type := mkDatabase {
  contacts : list Contact;
  sqliteSequence : Z;
  calls : list DbCall
}.

Definition emptyDatabase : Database :=
  {| contacts := []; sqliteSequence := 0; calls := [] |}.

Definition Promise (A : Type) : Type := Database -> Result A * Database.

Definition resolve {A : Type} (a : A) : Promise A :=
  fun db => (Resolved a, db).

Definition reject {A : Type} (e : Failure) : Promise A :=
  fun db => (Rejected e, db).

Definition await {A B : Type} (p : Promise A) (k : A -> Promise B)
  : Promise B :=
  fun db =>
    match p db with
    | (Resolved a, db') => k a db'
    | (Rejected e, db') => (Rejected e, db')
    end.

Declare Scope promise_scope.
Delimit Scope promise_scope with promise.
Notation "x <- p ;; k" := (await p (fun x => k))
  (at level 100, p at next level, right associativity) : promise_scope.
Notation "p ;; k" := (await p (fun _ => k))
  (at level 100, right associativity) : promise_scope.
Open Scope promise_scope.

Definition logCall (c : DbCall) (db : Database) : Database :=
  {| contacts := contacts db;
     sqliteSequence := sqliteSequence db;
     calls := calls db ++ [c] |}.

(* ================================================================= *)
(** ** class Database *)

Module Database.

Definition isNull {A : Type} (x : option A) : bool :=
  match x with None => true | Some _ => false end.

(** [Database.rowToContact]: a falsy column is left out of the object. *)
Definition rowToContact (row : Contact) : Contact :=
  {| id := id row;
     phoneNumber := if truthyStr (phoneNumber row) then phoneNumber row
                    else None;
     email := if truthyStr (email row) then email row else None;
     linkedId := if truthyNum (linkedId row) then linkedId row else None;
     linkPrecedence := linkPrecedence row;
     createdAt := createdAt row;
     updatedAt := updatedAt row;
     deletedAt := deletedAt row |}.

(** The rowid AUTOINCREMENT assigns: one more than the largest rowid the
    table ever held.  Rowids are taken in [Z]: the definition follows
    SQLite while the result stays below 2^63, where SQLite refuses the
    insertion instead (SQLITE_FULL). *)
Definition nextRowid (db : Database) : Z :=
  Z.max (sqliteSequence db) (fold_right Z.max 0 (map id (contacts db))) + 1.

(** The driver hands the rowid back as [this.lastID], a double, which is
    the rowid itself up to [Number.MAX_SAFE_INTEGER]; the definition reads
    the row back under the rowid, and so follows the code on the databases
    whose next rowid is at most that.  Errors of the driver other than
    those of the statements themselves are not modelled. *)
Definition createContact (now : Time) (contactData : CreateContactData)
  : Promise Contact :=
  fun db =>
    let insertId := nextRowid db in
    let row := {| id := insertId;
                  phoneNumber := dataPhoneNumber contactData;
                  email := dataEmail contactData;
                  linkedId := dataLinkedId contactData;
                  linkPrecedence := dataLinkPrecedence contactData;
                  createdAt := now;
                  updatedAt := now;
                  deletedAt := None |} in
    let db' := {| contacts := contacts db ++ [row];
                  sqliteSequence := insertId;
                  calls := calls db ++ [CallCreateContact] |} in
    (* SELECT * FROM contacts WHERE id = ? AND deletedAt IS NULL *)
    match find (fun r => (id r =? insertId) && isNull (deletedAt r))
               (contacts db') with
    | Some r => (Resolved (rowToContact r), db')
    | None => (Rejected (Thrown "Failed to retrieve created contact"), db')
    end.

(** The disjuncts the query builder of [findContactsByEmailOrPhone] puts
    between the parentheses of its WHERE clause. *)
Inductive Disjunct : Type :=
| EmailIs (e : string)
| PhoneNumberIs (p : string).

Definition holds (d : Disjunct) (row : Contact) : bool :=
  match d with
  | EmailIs e => strictEq (email row) (Some e)
  | PhoneNumberIs p => strictEq (phoneNumber row) (Some p)
  end.

Definition disjuncts (email phoneNumber : option string) : list Disjunct :=
  (match email with
   | Some e => if truthyStr email then [EmailIs e] else []
   | None => []
   end)
  ++
  (match phoneNumber with
   | Some p => if truthyStr phoneNumber then [PhoneNumberIs p] else []
   | None => []
   end).

(** [SELECT * FROM contacts WHERE deletedAt IS NULL AND (...)
       ORDER BY createdAt ASC] *)
Definition matchingRows (ds : list Disjunct) (rows : list Contact)
  : list Contact :=
  sortByCreatedAt
    (filter (fun r => isNull (deletedAt r) && existsb (fun d => holds d r) ds)
            rows).

(** The message of the error the driver reports for a text SQLite cannot
    parse at a closing parenthesis: SQLITE_ERROR: near ")": syntax error,
    the parenthesis between double quotes (character 34). *)
Definition syntaxErrorMessage : string :=
  ("SQLITE_ERROR: near "
   ++ String "034"%char (")" ++ String "034"%char ": syntax error"))%string.

(** With neither value the text is [... AND () ORDER BY createdAt ASC],
    which SQLite refuses to parse: the driver reports the error and the
    promise rejects. *)
Definition findContactsByEmailOrPhone (email phoneNumber : option string)
  : Promise (list Contact) :=
  fun db =>
    let db' := logCall CallFindContactsByEmailOrPhone db in
    match disjuncts email phoneNumber with
    | [] => (Rejected (SqliteError syntaxErrorMessage), db')
    | ds => (Resolved (map rowToContact (matchingRows ds (contacts db))), db')
    end.

Definition findContactById (i : Z) : Promise (option Contact) :=
  fun db =>
    (Resolved
       (option_map rowToContact
          (find (fun r => (id r =? i) && isNull (deletedAt r))
                (contacts db))),
     db).

(** [UPDATE contacts SET ... WHERE ...]: the rows the condition selects
    are rewritten, all others are left alone. *)
Definition updateWhere (condition : Contact -> bool)
           (set : Contact -> Contact) (rows : list Contact) : list Contact :=
  map (fun r => if condition r then set r else r) rows.

(** [SET linkedId = ?, linkPrecedence = 'secondary',
         updatedAt = datetime('now')] *)
Definition setSecondary (now : Time) (primaryContactId : Z) (r : Contact)
  : Contact :=
  {| id := id r;
     phoneNumber := phoneNumber r;
     email := email r;
     linkedId := Some primaryContactId;
     linkPrecedence := SECONDARY;
     createdAt := createdAt r;
     updatedAt := now;
     deletedAt := deletedAt r |}.

(** [SET linkedId = ?, updatedAt = datetime('now')] *)
Definition setLinkedId (now : Time) (newPrimaryId : Z) (r : Contact)
  : Contact :=
  {| id := id r;
     phoneNumber := phoneNumber r;
     email := email r;
     linkedId := Some newPrimaryId;
     linkPrecedence := linkPrecedence r;
     createdAt := createdAt r;
     updatedAt := now;
     deletedAt := deletedAt r |}.

Definition updateContactToSecondary (now : Time)
           (contactId primaryContactId : Z) : Promise unit :=
  fun db =>
    (Resolved tt,
     {| contacts := updateWhere (fun r => id r =? contactId)
                                (setSecondary now primaryContactId)
                                (contacts db);
        sqliteSequence := sqliteSequence db;
        calls := calls db ++ [CallUpdateContactToSecondary] |}).

Definition linkedTo (i : Z) (r : Contact) : bool :=
  match linkedId r with
  | Some l => l =? i
  | None => false
  end.

(** [SELECT * FROM contacts WHERE (id = ? OR linkedId = ?)
       AND deletedAt IS NULL ORDER BY createdAt ASC].  Rows of equal
    createdAt are taken in rowid order; SQL leaves their order open, and
    SQLite may deliver the row with the given id before them. *)
Definition linkedRows (primaryContactId : Z) (rows : list Contact)
  : list Contact :=
  sortByCreatedAt
    (filter (fun r => ((id r =? primaryContactId)
                       || linkedTo primaryContactId r)
                      && isNull (deletedAt r))
            rows).

Definition findAllLinkedContacts (primaryContactId : Z)
  : Promise (list Contact) :=
  fun db =>
    (Resolved (map rowToContact (linkedRows primaryContactId (contacts db))),
     logCall CallFindAllLinkedContacts db).

Definition updateLinkedContactsPrimaryId (now : Time)
           (oldPrimaryId newPrimaryId : Z) : Promise unit :=
  fun db =>
    (Resolved tt,
     {| contacts := updateWhere (linkedTo oldPrimaryId)
                                (setLinkedId now newPrimaryId)
                                (contacts db);
        sqliteSequence := sqliteSequence db;
        calls := calls db ++ [CallUpdateLinkedContactsPrimaryId] |}).

End Database.

(* ================================================================= *)
(** ** class IdentityReconciliationService *)

Definition createNewPrimaryContact (now : Time)
           (email phoneNumber : option string) : Promise IdentifyResponse :=
  let contactData :=
    {| dataPhoneNumber := if truthyStr phoneNumber then phoneNumber else None;
       dataEmail := if truthyStr email then email else None;
       dataLinkedId := None;
       dataLinkPrecedence := PRIMARY |} in
  newContact <- Database.createContact now contactData ;;
  resolve
    {| primaryContactId := id newContact;
       emails := match email with
                 | Some e => if truthyStr email then [e] else []
                 | None => []
                 end;
       phoneNumbers := match phoneNumber with
                       | Some p => if truthyStr phoneNumber then [p] else []
                       | None => []
                       end;
       secondaryContactIds := [] |}.

(** The loop of [findPrimaryContacts]; [all] is the whole argument, in
    which a secondary's primary is searched. *)
Fixpoint findPrimaryContactsFrom (all : list Contact)
         (primaryContacts : list Contact) (primaryIds : list Z)
         (rest : list Contact) : list Contact :=
  match rest with
  | [] => primaryContacts
  | contact :: rest' =>
      if isPrimary contact then
        findPrimaryContactsFrom all (primaryContacts ++ [contact])
                                (id contact :: primaryIds) rest'
      else
        match linkedId contact with
        | Some l =>
            if truthyNum (Some l) && negb (existsb (Z.eqb l) primaryIds) then
              match find (fun c => id c =? l) all with
              | Some primary =>
                  findPrimaryContactsFrom all (primaryContacts ++ [primary])
                                          (id primary :: primaryIds) rest'
              | None =>
                  findPrimaryContactsFrom all primaryContacts primaryIds rest'
              end
            else findPrimaryContactsFrom all primaryContacts primaryIds rest'
        | None => findPrimaryContactsFrom all primaryContacts primaryIds rest'
        end
  end.

Definition findPrimaryContacts (contacts : list Contact) : list Contact :=
  findPrimaryContactsFrom contacts [] [] contacts.

Definition needsSecondaryContact (primaryContact : Contact)
           (email phoneNumber : option string) : bool :=
  let hasEmail :=
    negb (truthyStr email) || strictEq (Types.email primaryContact) email in
  let hasPhone :=
    negb (truthyStr phoneNumber)
    || strictEq (Types.phoneNumber primaryContact) phoneNumber in
  if hasEmail && hasPhone then false
  else
    let hasNewEmail :=
      truthyStr email
      && negb (strictEq (Types.email primaryContact) email) in
    let hasNewPhone :=
      truthyStr phoneNumber
      && negb (strictEq (Types.phoneNumber primaryContact) phoneNumber) in
    hasNewEmail || hasNewPhone.

Definition createSecondaryContact (now : Time)
           (email phoneNumber : option string) (primaryContactId : Z)
  : Promise Contact :=
  Database.createContact now
    {| dataPhoneNumber := if truthyStr phoneNumber then phoneNumber else None;
       dataEmail := if truthyStr email then email else None;
       dataLinkedId := if truthyNum (Some primaryContactId)
                       then Some primaryContactId else None;
       dataLinkPrecedence := SECONDARY |}.

Definition hasNewInformation (contacts : list Contact)
           (email phoneNumber : option string) : bool :=
  if negb (truthyStr email) && negb (truthyStr phoneNumber) then false
  else
    let existingEmails := truthyValues Types.email contacts in
    let existingPhones := truthyValues Types.phoneNumber contacts in
    let hasNewEmail :=
      match email with
      | Some e => truthyStr email && negb (includes existingEmails e)
      | None => false
      end in
    let hasNewPhone :=
      match phoneNumber with
      | Some p => truthyStr phoneNumber && negb (includes existingPhones p)
      | None => false
      end in
    hasNewEmail || hasNewPhone.

(** The loop over the secondaries in [buildResponseForPrimary]: a truthy
    value not yet in the array is pushed. *)
Definition pushUnseen (acc : list string) (v : option string) : list string :=
  match v with
  | Some s => if truthyStr v && negb (includes acc s) then acc ++ [s] else acc
  | None => acc
  end.

Definition buildResponseForPrimary (primaryContactId : Z)
  : Promise IdentifyResponse :=
  allLinkedContacts <- Database.findAllLinkedContacts primaryContactId ;;
  let secondaryContacts := filter isSecondary allLinkedContacts in
  match find isPrimary allLinkedContacts with
  | None => reject (Thrown "Primary contact not found")
  | Some primaryContact =>
      resolve
        {| primaryContactId := id primaryContact;
           emails :=
             fold_left (fun acc c => pushUnseen acc (email c))
                       secondaryContacts
                       (pushUnseen [] (email primaryContact));
           phoneNumbers :=
             fold_left (fun acc c => pushUnseen acc (phoneNumber c))
                       secondaryContacts
                       (pushUnseen [] (phoneNumber primaryContact));
           secondaryContactIds := map id secondaryContacts |}
  end.

(** [primaryContacts.sort(...)[0]] in [mergePrimaryContacts]. *)
Definition oldestPrimary (primaryContacts : list Contact) : option Contact :=
  hd_error (sortByCreatedAt primaryContacts).

Definition contactsToMerge (primaryContacts : list Contact) : list Contact :=
  tl (sortByCreatedAt primaryContacts).

Fixpoint convertToSecondaries (now : Time) (toMerge : list Contact)
         (oldestId : Z) : Promise unit :=
  match toMerge with
  | [] => resolve tt
  | contact :: rest =>
      Database.updateContactToSecondary now (id contact) oldestId ;;
      Database.updateLinkedContactsPrimaryId now (id contact) oldestId ;;
      convertToSecondaries now rest oldestId
  end.

Definition mergePrimaryContacts (now : Time) (primaryContacts : list Contact)
           (email phoneNumber : option string) : Promise IdentifyResponse :=
  match oldestPrimary primaryContacts with
  | None => reject (Thrown "No primary contact found to merge")
  | Some oldest =>
      convertToSecondaries now (contactsToMerge primaryContacts) (id oldest) ;;
      allLinkedContacts <- Database.findAllLinkedContacts (id oldest) ;;
      (if hasNewInformation allLinkedContacts email phoneNumber
       then createSecondaryContact now email phoneNumber (id oldest) ;;
            resolve tt
       else resolve tt) ;;
      buildResponseForPrimary (id oldest)
  end.

Definition identify (now : Time) (request : IdentifyRequest)
  : Promise IdentifyResponse :=
  let email := reqEmail request in
  let phoneNumber := reqPhoneNumber request in
  existingContacts <-
    Database.findContactsByEmailOrPhone email phoneNumber ;;
  match existingContacts with
  | [] => createNewPrimaryContact now email phoneNumber
  | _ :: _ =>
      match findPrimaryContacts existingContacts with
      | [primaryContact] =>
          (if needsSecondaryContact primaryContact email phoneNumber
           then createSecondaryContact now email phoneNumber
                                       (id primaryContact) ;;
                resolve tt
           else resolve tt) ;;
          buildResponseForPrimary (id primaryContact)
      | primaryContacts =>
          mergePrimaryContacts now primaryContacts email phoneNumber
      end
  end.

(* ================================================================= *)
(** ** Executions *)

(** The database a request leaves behind, whether it resolved or not. *)
Definition after (now : Time) (request : IdentifyRequest) (db : Database)
  : Database :=
  snd (identify now request db).

(** Databases built from the empty one by requests that all resolved. *)
Inductive reachable : Database -> Prop :=
| reachable_empty : reachable emptyDatabase
| reachable_identify :
    forall db now request response db',
      reachable db ->
      identify now request db = (Resolved response, db') ->
      reachable db'.

(** The same, under a clock that never runs behind a stored timestamp. *)
Definition clockAhead (now : Time) (db : Database) : Prop :=
  Forall (fun r => createdAt r <= now) (contacts db).

Inductive reachableInOrder : Database -> Prop :=
| ordered_empty : reachableInOrder emptyDatabase
| ordered_identify :
    forall db now request response db',
      reachableInOrder db ->
      clockAhead now db ->
      identify now request db = (Resolved response, db') ->
      reachableInOrder db'.

(** What a request stores of a value: a falsy value is not stored. *)
Definition stored (v : option string) : option string :=
  if truthyStr v then v else None.

(** What a projection lists of a single value. *)
Definition listed (v : option string) : list string :=
  match v with
  | Some s => if truthyStr v then [s] else []
  | None => []
  end.

(** The row [createContact] inserts. *)
Definition insertedRow (now : Time) (contactData : CreateContactData)
           (db : Database) : Contact :=
  {| id := Database.nextRowid db;
     phoneNumber := dataPhoneNumber contactData;
     email := dataEmail contactData;
     linkedId := dataLinkedId contactData;
     linkPrecedence := dataLinkPrecedence contactData;
     createdAt := now;
     updatedAt := now;
     deletedAt := None |}.


(** The value a promise resolved with, if it did. *)
Definition resolvedValue {A : Type} (r : Result A) : option A :=
  match r with
  | Resolved a => Some a
  | Rejected _ => None
  end.

(** The projection as the specification words it: the values in the order
    of their first occurrence, every later occurrence dropped. *)
Fixpoint firstOccurrences (l : list string) : list string :=
  match l with
  | [] => []
  | x :: l' =>
      x :: filter (fun y => negb (y =? x)%string) (firstOccurrences l')
  end.

(* ================================================================= *)
(** ** Properties of the table *)

(** [r'] is [r] up to its link and its modification time: the id, the
    email, the phone number and the creation and deletion times agree. *)
Definition sameValues (r r' : Contact) : Prop :=
  id r' = id r
  /\ email r' = email r
  /\ phoneNumber r' = phoneNumber r
  /\ createdAt r' = createdAt r
  /\ deletedAt r' = deletedAt r.

(** [l'] is [l] with at most [n] new rows after it, the rows of [l]
    keeping their values and the new rows having ids not used in [l]. *)
Definition extendsBy (n : nat) (l l' : list Contact) : Prop :=
  exists kept inserted,
    l' = kept ++ inserted
    /\ Forall2 sameValues l kept
    /\ (List.length inserted <= n)%nat
    /\ Forall (fun r' => forall r, In r l -> id r < id r') inserted.

(** A promise that inserts at most [n] rows and changes no value. *)
Definition inserts {A : Type} (n : nat) (p : Promise A) : Prop :=
  forall db, extendsBy n (contacts db) (contacts (snd (p db))).

(** What one round of the merge loop does to the table: contact [x] is
    made a secondary of [o], then the rows linked to [x] are linked to
    [o]. *)
Definition demote (now : Time) (x o : Z) (rows : list Contact)
  : list Contact :=
  Database.updateWhere (Database.linkedTo x) (Database.setLinkedId now o)
    (Database.updateWhere (fun r => id r =? x) (Database.setSecondary now o)
                          rows).

(** The table after the whole loop. *)
Definition demoteAll (now : Time) (toMerge : list Contact) (o : Z)
           (rows : list Contact) : list Contact :=
  fold_left (fun l c => demote now (id c) o l) toMerge rows.

(** Two weaker properties, which every round of the loop keeps. *)
Definition primariesUnlinked (rows : list Contact) : Prop :=
  forall r, In r rows -> linkPrecedence r = PRIMARY -> linkedId r = None.

Definition noPrimaryAt (o : Z) (rows : list Contact) : Prop :=
  forall r, In r rows -> linkPrecedence r = PRIMARY -> id r <> o.

(** Invariant I3 with what it rests on: ids are positive and distinct, no
    row is deleted, every row reads back as it is stored, a primary has no
    linkedId, and the linkedId of a secondary is the id of a primary of the
    table. *)
Record wellLinked (rows : list Contact) : Prop := mkWellLinked {
  wl_ids : NoDup (map id rows);
  wl_positive : forall r, In r rows -> 0 < id r;
  wl_live : forall r, In r rows -> deletedAt r = None;
  wl_normal : forall r, In r rows -> Database.rowToContact r = r;
  wl_primary :
    forall r, In r rows -> linkPrecedence r = PRIMARY -> linkedId r = None;
  wl_secondary :
    forall r, In r rows -> linkPrecedence r = SECONDARY ->
              exists p, In p rows /\ linkedId r = Some (id p)
                        /\ linkPrecedence p = PRIMARY
}.

(** Two contacts share a value: the same email or the same phone number. *)
Definition shares (a b : Contact) : Prop :=
  (exists e, email a = Some e /\ email b = Some e)
  \/ (exists p, phoneNumber a = Some p /\ phoneNumber b = Some p).

(** What holds of the table when, besides, the clock never ran backwards:
    rows are in ascending order of id and of createdAt, a secondary is
    younger than its primary, every contact sharing a value with a primary
    is that primary or one of its secondaries, and every contact has an
    email or a phone number. *)
Record inOrder (rows : list Contact) : Prop := mkInOrder {
  io_linked : wellLinked rows;
  io_ids : StronglySorted Z.lt (map id rows);
  io_times : StronglySorted Z.le (map createdAt rows);
  io_after : forall r l, In r rows -> linkedId r = Some l -> l < id r;
  io_shared :
    forall p c, In p rows -> In c rows -> linkPrecedence p = PRIMARY ->
                shares p c -> c = p \/ linkedId c = Some (id p);
  io_valued :
    forall r, In r rows -> email r <> None \/ phoneNumber r <> None
}.

(* ================================================================= *)
(** ** class Database: the methods kept for tests *)

(** [SELECT * FROM contacts WHERE deletedAt IS NULL ORDER BY createdAt ASC].
    The engine never calls it; the log of calls is left alone. *)
Definition getAllContacts : Promise (list Contact) :=
  fun db =>
    (Resolved
       (map Database.rowToContact
            (sortByCreatedAt
               (filter (fun r => Database.isNull (deletedAt r))
                       (contacts db)))),
     db).

(** [DELETE FROM contacts]: every row goes, deleted or not; the
    AUTOINCREMENT counter in [sqlite_sequence] stays. *)
Definition clearAllContacts : Promise unit :=
  fun db =>
    (Resolved tt,
     {| contacts := [];
        sqliteSequence := sqliteSequence db;
        calls := calls db |}).

(** What [INSERT] maintains: no rowid of the table exceeds the counter. *)
Definition sequenced (db : Database) : Prop :=
  forall r, In r (contacts db) -> id r <= sqliteSequence db.

(* ================================================================= *)
(** ** class IdentityReconciliationService: [getContactGroup] *)

Module Group.

Record ContactGroup : Type := mkContactGroup {
  primaryContact : Contact;
  secondaryContacts : list Contact;
  allEmails : list string;
  allPhoneNumbers : list string
}.

End Group.

Definition getContactGroup (primaryContactId : Z)
  : Promise (option Group.ContactGroup) :=
  allLinkedContacts <- Database.findAllLinkedContacts primaryContactId ;;
  let secondaryContacts := filter isSecondary allLinkedContacts in
  match find isPrimary allLinkedContacts with
  | None => resolve None
  | Some primaryContact =>
      resolve
        (Some
           {| Group.primaryContact := primaryContact;
              Group.secondaryContacts := secondaryContacts;
              Group.allEmails :=
                fold_left (fun acc c => pushUnseen acc (email c))
                          allLinkedContacts [];
              Group.allPhoneNumbers :=
                fold_left (fun acc c => pushUnseen acc (phoneNumber c))
                          allLinkedContacts [] |})
  end.

(** [Number.MAX_SAFE_INTEGER], 2^53 - 1: up to it a JavaScript number holds
    an integer exactly. *)
Definition maxSafeInteger : Z := 2 ^ 53 - 1.

(* ================================================================= *)
(** ** class RequestValidator: [utils/validators.ts] *)

(** The two format tests are regular expressions without flags, applied
    with [RegExp.prototype.test].  A JavaScript string is a sequence of
    UTF-16 code units, and a pattern without the [u] flag reads one code
    unit at a time. *)

Module RegExp.

Definition CodeUnit : Type := N.
Definition JsString : Type := list CodeUnit.

(** The patterns the validators use, anchored at both ends: the empty
    pattern, a character class, concatenation, alternation and [r*]; a
    pattern that matches nothing is needed for the derivatives. *)
Inductive Pattern : Type :=
| Never
| Empty
| Class (accepts : CodeUnit -> bool)
| Seq (r1 r2 : Pattern)
| Alt (r1 r2 : Pattern)
| Star (r : Pattern).

(** [r?], [r+] and [r{n,m}]. *)
Definition optional (r : Pattern) : Pattern := Alt Empty r.

Definition plus (r : Pattern) : Pattern := Seq r (Star r).

Fixpoint times (n : nat) (r : Pattern) : Pattern :=
  match n with
  | O => Empty
  | S n' => Seq r (times n' r)
  end.

Fixpoint upTo (n : nat) (r : Pattern) : Pattern :=
  match n with
  | O => Empty
  | S n' => optional (Seq r (upTo n' r))
  end.

Definition between (n m : nat) (r : Pattern) : Pattern :=
  Seq (times n r) (upTo (m - n) r).

(** Matching by derivatives: [derivative c r] matches [s] when [r] matches
    [c :: s]. *)
Fixpoint nullable (r : Pattern) : bool :=
  match r with
  | Never => false
  | Empty => true
  | Class _ => false
  | Seq r1 r2 => nullable r1 && nullable r2
  | Alt r1 r2 => nullable r1 || nullable r2
  | Star _ => true
  end.

Fixpoint derivative (c : CodeUnit) (r : Pattern) : Pattern :=
  match r with
  | Never => Never
  | Empty => Never
  | Class accepts => if accepts c then Empty else Never
  | Seq r1 r2 =>
      if nullable r1
      then Alt (Seq (derivative c r1) r2) (derivative c r2)
      else Seq (derivative c r1) r2
  | Alt r1 r2 => Alt (derivative c r1) (derivative c r2)
  | Star r1 => Seq (derivative c r1) (Star r1)
  end.

(** [/^r$/.test(s)] *)
Definition test (r : Pattern) (s : JsString) : bool :=
  nullable (fold_left (fun r c => derivative c r) s r).

(** The strings a pattern matches from its first to its last code unit. *)
Inductive Matches : Pattern -> JsString -> Prop :=
| MatchesEmpty : Matches Empty []
| MatchesClass accepts c : accepts c = true -> Matches (Class accepts) [c]
| MatchesSeq r1 r2 s1 s2 :
    Matches r1 s1 -> Matches r2 s2 -> Matches (Seq r1 r2) (s1 ++ s2)
| MatchesAltL r1 r2 s : Matches r1 s -> Matches (Alt r1 r2) s
| MatchesAltR r1 r2 s : Matches r2 s -> Matches (Alt r1 r2) s
| MatchesStarNil r : Matches (Star r) []
| MatchesStarApp r s1 s2 :
    Matches r s1 -> Matches (Star r) s2 -> Matches (Star r) (s1 ++ s2).

(** [\d]: the digits 0 to 9. *)
Definition isDigit (c : CodeUnit) : bool :=
  ((48 <=? c) && (c <=? 57))%N.

(** [\s]: the white space and line terminator code points of ECMAScript:
    TAB, LF, VT, FF, CR, SP, NBSP, U+1680, U+2000 to U+200A, LS, PS,
    U+202F, U+205F, U+3000 and the byte order mark. *)
Definition isWhiteSpace (c : CodeUnit) : bool :=
  (existsb (N.eqb c)
           [9; 10; 11; 12; 13; 32; 160; 5760; 8232; 8233; 8239; 8287;
            12288; 65279]
   || ((8192 <=? c) && (c <=? 8202)))%N.

Definition plusSign : CodeUnit := 43%N.
Definition hyphen : CodeUnit := 45%N.
Definition leftParenthesis : CodeUnit := 40%N.
Definition rightParenthesis : CodeUnit := 41%N.
Definition fullStop : CodeUnit := 46%N.
Definition atSign : CodeUnit := 64%N.

End RegExp.

Module RequestValidator.

Import RegExp.

(** [[^\s@]] *)
Definition notSpaceOrAt (c : CodeUnit) : bool :=
  negb (isWhiteSpace c || (c =? atSign)%N).

(** [[\d\s\-\(\)]] *)
Definition phoneCharacter (c : CodeUnit) : bool :=
  (isDigit c || isWhiteSpace c || (c =? hyphen) || (c =? leftParenthesis)
   || (c =? rightParenthesis))%N.

(** [/^[^\s@]+@[^\s@]+\.[^\s@]+$/] *)
Definition emailRegex : Pattern :=
  Seq (plus (Class notSpaceOrAt))
      (Seq (Class (N.eqb atSign))
           (Seq (plus (Class notSpaceOrAt))
                (Seq (Class (N.eqb fullStop))
                     (plus (Class notSpaceOrAt))))).

(** [/^\+?[\d\s\-\(\)]{7,15}$/] *)
Definition phoneRegex : Pattern :=
  Seq (optional (Class (N.eqb plusSign)))
      (between 7 15 (Class phoneCharacter)).

Definition isValidEmail (email : JsString) : bool :=
  test emailRegex email.

Definition isValidPhoneNumber (phoneNumber : JsString) : bool :=
  test phoneRegex phoneNumber.

End RequestValidator.

(* ================================================================= *)
(** ** class IdentityController and [errorHandler]:
       [controllers/identityController.ts] *)

Module Http.

(** [{ message, field }] *)
Record ValidationError : Type := mkValidationError {
  detailMessage : string;
  detailField : option string
}.

(** What [RequestValidator.validateIdentifyRequest] returns. *)
Record Validation : Type := mkValidation {
  isValid : bool;
  errors : list ValidationError
}.

(** The bodies the controller and the error handler send:
    the result of [identify], [{ error: 'Validation failed', details }]
    and [{ error, message }]. *)
Inductive Json : Type :=
| IdentifyResult (result : IdentifyResponse)
| ValidationFailed (details : list ValidationError)
| ErrorReport (error message : string).

(** [res.status(status).json(json)] *)
Record Response : Type := mkResponse {
  status : Z;
  json : Json
}.

(** How a handler ends: it has sent a response, or it has called
    [next(error)]. *)
Inductive Handled : Type :=
| Sent (response : Response)
| Next (error : Failure).

End Http.

(** [error.message] *)
Definition message (error : Failure) : string :=
  match error with
  | SqliteError msg => msg
  | Thrown msg => msg
  end.

(** [s.includes(searchString)] on strings. *)
Fixpoint stringIncludes (s searchString : string) : bool :=
  String.prefix searchString s
  || match s with
     | EmptyString => false
     | String _ rest => stringIncludes rest searchString
     end.

Definition errorHandler (error : Failure) : Http.Response :=
  if stringIncludes (message error) "SQLITE_CONSTRAINT" then
    {| Http.status := 400;
       Http.json := Http.ErrorReport "Database constraint violation"
                                     "Invalid data provided" |}
  else if stringIncludes (message error) "Database error" then
    {| Http.status := 500;
       Http.json := Http.ErrorReport
                      "Database error"
                      "An error occurred while processing your request" |}
  else
    {| Http.status := 500;
       Http.json := Http.ErrorReport "Internal server error"
                                     "An unexpected error occurred" |}.

Module IdentityController.

(** The validator is built on a schema of the Joi library; the controller
    is modelled for any validator.  A request body is read through its
    [email] and [phoneNumber] properties only. *)
Definition identify
           (validateIdentifyRequest : IdentifyRequest -> Http.Validation)
           (now : Time) (body : IdentifyRequest)
  : Database -> Http.Handled * Database :=
  fun db =>
    let validation := validateIdentifyRequest body in
    if negb (Http.isValid validation) then
      (Http.Sent {| Http.status := 400;
                    Http.json := Http.ValidationFailed
                                   (Http.errors validation) |},
       db)
    else
      let identifyRequest :=
        {| reqEmail := reqEmail body;
           reqPhoneNumber := reqPhoneNumber body |} in
      match identify now identifyRequest db with
      | (Resolved result, db') =>
          (Http.Sent {| Http.status := 200;
                        Http.json := Http.IdentifyResult result |},
           db')
      | (Rejected error, db') => (Http.Next error, db')
      end.

End IdentityController.
(* ================================================================= *)
(** ** The storage class: basic facts *)

Section DatabaseFacts.

Import Database.

Lemma id_below_nextRowid (db : Database) (r : Contact) :
  In r (contacts db) -> id r < nextRowid db.
Proof.
  unfold nextRowid. generalize (sqliteSequence db). intros s.
  induction (contacts db) as [|x l IH]; simpl; [tauto|].
  intros [->|Hin]; [lia|]. specialize (IH Hin). lia.
Qed.

Lemma nextRowid_pos (db : Database) : 0 < nextRowid db.
Proof.
  unfold nextRowid.
  assert (0 <= fold_right Z.max 0 (map id (contacts db))).
  { induction (contacts db); simpl; lia. }
  lia.
Qed.

Lemma find_app_none {A : Type} (f : A -> bool) (l l' : list A) :
  (forall x, In x l -> f x = false) -> find f (l ++ l') = find f l'.
Proof.
  induction l as [|x l IH]; simpl; intros H; [reflexivity|].
  rewrite (H x (or_introl eq_refl)). apply IH. intros y Hy. apply H. now right.
Qed.

(** The definition of [createContact] always resolves: the row it reads
    back is the one it has just inserted. *)
Lemma createContact_resolves now contactData db :
  createContact now contactData db =
  (Resolved (rowToContact (insertedRow now contactData db)),
   {| contacts := contacts db ++ [insertedRow now contactData db];
      sqliteSequence := nextRowid db;
      calls := calls db ++ [CallCreateContact] |}).
Proof.
  unfold createContact. cbv zeta. cbn [contacts].
  rewrite find_app_none.
  - cbn [find id deletedAt isNull]. rewrite Z.eqb_refl. reflexivity.
  - intros x Hx. apply id_below_nextRowid in Hx.
    apply andb_false_intro1. apply Z.eqb_neq. lia.
Qed.

End DatabaseFacts.

(* ================================================================= *)
(** ** The create path and the rejected lookup *)

Section CreatePath.

Import Database.

Lemma lookup_database email phoneNumber db :
  snd (findContactsByEmailOrPhone email phoneNumber db)
  = logCall CallFindContactsByEmailOrPhone db.
Proof.
  unfold findContactsByEmailOrPhone.
  destruct (disjuncts email phoneNumber); reflexivity.
Qed.

Lemma disjuncts_falsy email phoneNumber :
  truthyStr email = false -> truthyStr phoneNumber = false ->
  disjuncts email phoneNumber = [].
Proof.
  unfold disjuncts. intros -> ->.
  destruct email, phoneNumber; reflexivity.
Qed.

Lemma createNewPrimaryContact_resolves now email phoneNumber db :
  let row := insertedRow now
               {| dataPhoneNumber := stored phoneNumber;
                  dataEmail := stored email;
                  dataLinkedId := None;
                  dataLinkPrecedence := PRIMARY |} db in
  createNewPrimaryContact now email phoneNumber db =
  (Resolved {| primaryContactId := nextRowid db;
               emails := listed email;
               phoneNumbers := listed phoneNumber;
               secondaryContactIds := [] |},
   {| contacts := contacts db ++ [row];
      sqliteSequence := nextRowid db;
      calls := calls db ++ [CallCreateContact] |}).
Proof.
  unfold createNewPrimaryContact, await. rewrite createContact_resolves.
  reflexivity.
Qed.

End CreatePath.

(** C6. When the lookup finds no contact, [identify] inserts exactly one
    row: a PRIMARY contact holding the request's email and phone number,
    without linkedId.  It resolves with that contact's projection, and the
    only storage calls made are the lookup and [createContact], which
    hands back the row it inserted: the cluster is not read from the
    table.  On the empty database the request
    [{email: "a@x.com"}] resolves with primaryContactId 1, emails
    ["a@x.com"], no phone number and no secondary. *)
Theorem C6_no_match_creates_primary :
  (forall now request db,
      fst (Database.findContactsByEmailOrPhone
             (reqEmail request) (reqPhoneNumber request) db) = Resolved [] ->
      identify now request db =
      (Resolved {| primaryContactId := Database.nextRowid db;
                   emails := listed (reqEmail request);
                   phoneNumbers := listed (reqPhoneNumber request);
                   secondaryContactIds := [] |},
       {| contacts :=
            contacts db ++
            [{| id := Database.nextRowid db;
                phoneNumber := stored (reqPhoneNumber request);
                email := stored (reqEmail request);
                linkedId := None;
                linkPrecedence := PRIMARY;
                createdAt := now;
                updatedAt := now;
                deletedAt := None |}];
          sqliteSequence := Database.nextRowid db;
          calls := calls db ++ [CallFindContactsByEmailOrPhone;
                                CallCreateContact] |}))
  /\ (forall now,
         fst (identify now {| reqEmail := Some "a@x.com"%string;
                              reqPhoneNumber := None |} emptyDatabase)
         = Resolved {| primaryContactId := 1;
                       emails := ["a@x.com"%string];
                       phoneNumbers := [];
                       secondaryContactIds := [] |}).
Proof.
  split; [|reflexivity].
  intros now request db Hfind.
  unfold identify, await.
  pose proof (lookup_database (reqEmail request) (reqPhoneNumber request) db)
    as Hdb.
  destruct (Database.findContactsByEmailOrPhone _ _ db) as [res db1].
  simpl in Hfind, Hdb. subst res db1.
  rewrite createNewPrimaryContact_resolves. simpl.
  rewrite <- app_assoc. reflexivity.
Qed.

Lemma C6_no_match_creates_primary_witness :
  identify 7 {| reqEmail := Some "a@x.com"%string; reqPhoneNumber := None |}
           emptyDatabase
  = (Resolved {| primaryContactId := 1;
                 emails := ["a@x.com"%string];
                 phoneNumbers := [];
                 secondaryContactIds := [] |},
     {| contacts := [{| id := 1;
                        phoneNumber := None;
                        email := Some "a@x.com"%string;
                        linkedId := None;
                        linkPrecedence := PRIMARY;
                        createdAt := 7;
                        updatedAt := 7;
                        deletedAt := None |}];
        sqliteSequence := 1;
        calls := [CallFindContactsByEmailOrPhone; CallCreateContact] |}).
Proof.
  apply (proj1 C6_no_match_creates_primary 7
               {| reqEmail := Some "a@x.com"%string; reqPhoneNumber := None |}
               emptyDatabase).
  reflexivity.
Defined.

(** C9. A request with neither an email nor a phone number makes the
    lookup build a query SQLite cannot parse: [identify] rejects with the
    storage error, the lookup is the only storage call made, and the table
    and the rowid counter are as they were. *)
Theorem C9_absent_fields_reject_before_writing :
  forall now request db,
    truthyStr (reqEmail request) = false ->
    truthyStr (reqPhoneNumber request) = false ->
    (exists msg,
        fst (identify now request db) = Rejected (SqliteError msg))
    /\ contacts (after now request db) = contacts db
    /\ sqliteSequence (after now request db) = sqliteSequence db
    /\ calls (after now request db)
       = calls db ++ [CallFindContactsByEmailOrPhone].
Proof.
  intros now request db He Hp.
  unfold after, identify, await, Database.findContactsByEmailOrPhone.
  rewrite (disjuncts_falsy _ _ He Hp). simpl.
  split; [eexists; reflexivity|]. auto.
Qed.

Lemma C9_absent_fields_reject_before_writing_witness :
  (exists msg,
      fst (identify 3 {| reqEmail := None; reqPhoneNumber := None |}
                    emptyDatabase) = Rejected (SqliteError msg))
  /\ contacts (after 3 {| reqEmail := None; reqPhoneNumber := None |}
                     emptyDatabase) = []
  /\ sqliteSequence (after 3 {| reqEmail := None; reqPhoneNumber := None |}
                           emptyDatabase) = 0
  /\ calls (after 3 {| reqEmail := None; reqPhoneNumber := None |}
                  emptyDatabase) = [CallFindContactsByEmailOrPhone].
Proof.
  apply (C9_absent_fields_reject_before_writing
           3 {| reqEmail := None; reqPhoneNumber := None |} emptyDatabase);
    reflexivity.
Defined.

(* ================================================================= *)
(** ** Ordering by creation time *)

Section Ordering.

Lemma insertByCreatedAt_In x y l :
  In y (insertByCreatedAt x l) <-> y = x \/ In y l.
Proof.
  induction l as [|z l IH]; simpl.
  - intuition congruence.
  - destruct (createdAt x <=? createdAt z); simpl; [intuition congruence|].
    rewrite IH. intuition.
Qed.

Lemma sortByCreatedAt_In y l : In y (sortByCreatedAt l) <-> In y l.
Proof.
  induction l as [|x l IH]; simpl; [tauto|].
  rewrite insertByCreatedAt_In, IH. intuition congruence.
Qed.

Lemma insertByCreatedAt_sorted x l :
  StronglySorted notAfter l -> StronglySorted notAfter (insertByCreatedAt x l).
Proof.
  induction 1 as [|z l Hl IH Hz]; simpl.
  - constructor; constructor.
  - destruct (createdAt x <=? createdAt z) eqn:E.
    + apply Z.leb_le in E. constructor; [constructor; assumption|].
      constructor; [exact E|].
      rewrite Forall_forall in Hz |- *. intros w Hw.
      specialize (Hz w Hw). unfold notAfter in *. lia.
    + apply Z.leb_gt in E. constructor; [exact IH|].
      rewrite Forall_forall in Hz |- *. intros w Hw.
      apply insertByCreatedAt_In in Hw. destruct Hw as [->|Hw].
      * unfold notAfter. lia.
      * now apply Hz.
Qed.

Lemma sortByCreatedAt_sorted l : StronglySorted notAfter (sortByCreatedAt l).
Proof.
  induction l as [|x l IH]; simpl; [constructor|].
  now apply insertByCreatedAt_sorted.
Qed.

(** A list already in order is left as it is: equal timestamps keep the
    order they came in. *)
Lemma insertByCreatedAt_first x l :
  Forall (notAfter x) l -> insertByCreatedAt x l = x :: l.
Proof.
  destruct l as [|z l]; simpl; [reflexivity|].
  intros H. inversion H as [|? ? Hz _]; subst. unfold notAfter in Hz.
  apply Z.leb_le in Hz. now rewrite Hz.
Qed.

Lemma sortByCreatedAt_ordered l :
  StronglySorted notAfter l -> sortByCreatedAt l = l.
Proof.
  induction 1 as [|x l Hl IH Hx]; simpl; [reflexivity|].
  rewrite IH. now apply insertByCreatedAt_first.
Qed.


Lemma hd_sortByCreatedAt_In l h :
  hd_error (sortByCreatedAt l) = Some h -> In h l.
Proof.
  intros H. apply sortByCreatedAt_In.
  destruct (sortByCreatedAt l); simpl in H; [discriminate|].
  injection H as ->. now left.
Qed.



End Ordering.

(* ================================================================= *)
(** ** The primaries of a lookup *)

Section Primaries.

Lemma findPrimaryContactsFrom_primaries all acc ids rest :
  Forall (fun c => isPrimary c = true) rest ->
  findPrimaryContactsFrom all acc ids rest = acc ++ rest.
Proof.
  revert acc ids.
  induction rest as [|c rest IH]; intros acc ids H; simpl.
  - now rewrite app_nil_r.
  - inversion H as [|? ? Hc Hrest]; subst. rewrite Hc.
    rewrite IH by assumption. now rewrite <- app_assoc.
Qed.

Lemma findPrimaryContacts_primaries matches :
  Forall (fun c => isPrimary c = true) matches ->
  findPrimaryContacts matches = matches.
Proof.
  intros H. unfold findPrimaryContacts.
  now rewrite findPrimaryContactsFrom_primaries.
Qed.

End Primaries.

(* ================================================================= *)
(** ** The attach path *)

Section AttachPath.

Import Database.

Lemma strictEq_eq a b : strictEq a b = true <-> a = b.
Proof.
  destruct a as [x|], b as [y|]; simpl; try (split; congruence).
  rewrite String.eqb_eq. split; congruence.
Qed.

Lemma strictEq_refl a : strictEq a a = true.
Proof. now apply strictEq_eq. Qed.

Lemma strictEq_neq a b : strictEq a b = false <-> a <> b.
Proof.
  rewrite <- strictEq_eq. destruct (strictEq a b); split; congruence.
Qed.

Lemma truthyStr_Some s : truthyStr (Some s) = true <-> s <> EmptyString.
Proof.
  simpl. rewrite negb_true_iff. apply String.eqb_neq.
Qed.

Lemma needsSecondaryContact_iff primaryContact email phoneNumber :
  needsSecondaryContact primaryContact email phoneNumber = true
  <-> (truthyStr email = true /\ Types.email primaryContact <> email)
      \/ (truthyStr phoneNumber = true
          /\ Types.phoneNumber primaryContact <> phoneNumber).
Proof.
  unfold needsSecondaryContact.
  rewrite <- !strictEq_neq.
  destruct (truthyStr email), (truthyStr phoneNumber),
    (strictEq (Types.email primaryContact) email),
    (strictEq (Types.phoneNumber primaryContact) phoneNumber);
    simpl; intuition congruence.
Qed.

Lemma includes_In l s : includes l s = true <-> In s l.
Proof.
  unfold includes. rewrite existsb_exists. split.
  - intros (x & Hx & E). apply String.eqb_eq in E. now subst.
  - intros H. exists s. split; [assumption|apply String.eqb_refl].
Qed.

Lemma hasNewInformation_iff cluster email phoneNumber :
  hasNewInformation cluster email phoneNumber = true
  <-> (exists e, email = Some e /\ e <> EmptyString
                 /\ ~ In e (truthyValues Types.email cluster))
      \/ (exists p, phoneNumber = Some p /\ p <> EmptyString
                    /\ ~ In p (truthyValues Types.phoneNumber cluster)).
Proof.
  unfold hasNewInformation.
  assert (Hinc : forall l s, negb (includes l s) = true <-> ~ In s l).
  { intros l s. rewrite negb_true_iff, <- includes_In.
    destruct (includes l s); split; congruence. }
  destruct email as [e|], phoneNumber as [p|]; simpl.
  - destruct (String.eqb_spec e EmptyString),
      (String.eqb_spec p EmptyString); simpl;
      rewrite ?orb_false_r, ?orb_true_iff, ?Hinc;
      split;
      try (intros [(x & Hx & Hne & Hin)|(x & Hx & Hne & Hin)];
           injection Hx as <-; try congruence; tauto);
      try discriminate; try tauto.
    + intros H. right. eauto.
    + intros H. left. eauto.
    + intros [H|H]; [left|right]; eauto.
  - destruct (String.eqb_spec e EmptyString); simpl;
      rewrite ?orb_false_r, ?Hinc; split;
      try (intros [(x & Hx & Hne & Hin)|(x & Hx & Hne & Hin)];
           try discriminate; injection Hx as <-; congruence);
      try discriminate.
    intros H. left. eauto.
  - destruct (String.eqb_spec p EmptyString); simpl;
      rewrite ?Hinc; split;
      try (intros [(x & Hx & Hne & Hin)|(x & Hx & Hne & Hin)];
           try discriminate; injection Hx as <-; congruence);
      try discriminate.
    intros H. right. eauto.
  - split; [discriminate|].
    intros [(x & Hx & _)|(x & Hx & _)]; discriminate.
Qed.

(** Reading the cluster only appends to the log. *)
Lemma buildResponseForPrimary_database i db :
  snd (buildResponseForPrimary i db) = logCall CallFindAllLinkedContacts db.
Proof.
  unfold buildResponseForPrimary, await, findAllLinkedContacts. cbv zeta.
  destruct (find isPrimary _); reflexivity.
Qed.

Lemma createSecondaryContact_resolves now email phoneNumber i db :
  i <> 0 ->
  let row := insertedRow now
               {| dataPhoneNumber := stored phoneNumber;
                  dataEmail := stored email;
                  dataLinkedId := Some i;
                  dataLinkPrecedence := SECONDARY |} db in
  createSecondaryContact now email phoneNumber i db =
  (Resolved (rowToContact row),
   {| contacts := contacts db ++ [row];
      sqliteSequence := nextRowid db;
      calls := calls db ++ [CallCreateContact] |}).
Proof.
  intros Hi. unfold createSecondaryContact. rewrite createContact_resolves.
  unfold stored. simpl. apply Z.eqb_neq in Hi. rewrite Hi. reflexivity.
Qed.

(** The shape of [identify] when the lookup yields one primary. *)
Lemma identify_single_primary now request db matches primaryContact :
  fst (findContactsByEmailOrPhone (reqEmail request) (reqPhoneNumber request)
                                  db) = Resolved matches ->
  findPrimaryContacts matches = [primaryContact] ->
  identify now request db =
  ((if needsSecondaryContact primaryContact
                             (reqEmail request) (reqPhoneNumber request)
    then createSecondaryContact now (reqEmail request)
                                (reqPhoneNumber request)
                                (id primaryContact) ;;
         resolve tt
    else resolve tt) ;;
   buildResponseForPrimary (id primaryContact))
    (logCall CallFindContactsByEmailOrPhone db).
Proof.
  intros Hfind Hprim. unfold identify.
  unfold await at 1.
  pose proof (lookup_database (reqEmail request) (reqPhoneNumber request) db)
    as Hdb.
  destruct (findContactsByEmailOrPhone _ _ db) as [res db1].
  simpl in Hfind, Hdb. subst res db1.
  destruct matches as [|c matches]; [discriminate Hprim|].
  rewrite Hprim. reflexivity.
Qed.

End AttachPath.

(** C1. A matched secondary whose primary is not among the matched
    contacts contributes nothing to the primaries: [findPrimaryContacts]
    searches the primary in the lookup's result only.  After
    [{a@x.com, +1}] and [{a@x.com, +2}] the request [{phoneNumber: "+2"}]
    matches the secondary 2 alone, no primary is found, and [identify]
    rejects with "No primary contact found to merge" where contact 1 was
    to be returned.  The request [{email: "a@x.com"}], which matches the
    primary as well, does resolve with contact 1. *)
Theorem C1_unmatched_primary_is_not_found :
  let a := Some "a@x.com"%string in
  let db := after 2 {| reqEmail := a; reqPhoneNumber := Some "+2"%string |}
              (after 1 {| reqEmail := a; reqPhoneNumber := Some "+1"%string |}
                     emptyDatabase) in
  let secondary := {| id := 2; phoneNumber := Some "+2"%string; email := a;
                      linkedId := Some 1; linkPrecedence := SECONDARY;
                      createdAt := 2; updatedAt := 2; deletedAt := None |} in
  map (fun r => (id r, linkPrecedence r, linkedId r)) (contacts db)
  = [(1, PRIMARY, None); (2, SECONDARY, Some 1)]
  /\ fst (Database.findContactsByEmailOrPhone None (Some "+2"%string) db)
     = Resolved [secondary]
  /\ findPrimaryContacts [secondary] = []
  /\ fst (identify 3 {| reqEmail := None;
                        reqPhoneNumber := Some "+2"%string |} db)
     = Rejected (Thrown "No primary contact found to merge")
  /\ contacts (after 3 {| reqEmail := None;
                          reqPhoneNumber := Some "+2"%string |} db)
     = contacts db
  /\ fst (identify 3 {| reqEmail := a; reqPhoneNumber := None |} db)
     = Resolved {| primaryContactId := 1;
                   emails := ["a@x.com"%string];
                   phoneNumbers := ["+1"%string; "+2"%string];
                   secondaryContactIds := [2] |}.
Proof.
  cbv zeta. repeat split; reflexivity.
Qed.

(** Example 4 of EXAMPLES.md, as the code runs it: after step 3 contact 2
    [{jane@company.com, +1-555-333-3333}] is a secondary of contact 1, and
    step 4, which the document answers with primaryContactId 1, matches
    contact 2 alone and is rejected. *)
Example example4_step4_is_rejected :
  let personal := Some "jane@personal.com"%string in
  let company := Some "jane@company.com"%string in
  let db :=
    after 3 {| reqEmail := personal;
               reqPhoneNumber := Some "+1-555-333-3333"%string |}
      (after 2 {| reqEmail := company;
                  reqPhoneNumber := Some "+1-555-333-3333"%string |}
         (after 1 {| reqEmail := personal; reqPhoneNumber := None |}
                emptyDatabase)) in
  map (fun r => (id r, linkPrecedence r, linkedId r)) (contacts db)
  = [(1, PRIMARY, None); (2, SECONDARY, Some 1)]
  /\ fst (identify 4 {| reqEmail := company;
                        reqPhoneNumber := Some "+1-555-444-4444"%string |}
                    db)
     = Rejected (Thrown "No primary contact found to merge").
Proof.
  cbv zeta. split; reflexivity.
Qed.

(** C2. A request that reaches the cluster of the newer primary B through
    one of B's secondaries only does not merge.  With A = contact 1
    [{a@x.com, +1}], B = contact 2 [{b@x.com, +2}] and contact 3
    [{b@x.com, +3}] secondary to B, the request [{a@x.com, +3}] matches
    contacts 1 and 3; only A is found as a primary, the attach path runs,
    and afterwards B is still PRIMARY and contact 3 is still linked to B.
    The request [{a@x.com, +2}], which matches B itself, does merge: B and
    contact 3 become secondaries of A. *)
Theorem C2_merge_missed_through_secondary :
  let a := Some "a@x.com"%string in
  let b := Some "b@x.com"%string in
  let db :=
    after 3 {| reqEmail := b; reqPhoneNumber := Some "+3"%string |}
      (after 2 {| reqEmail := b; reqPhoneNumber := Some "+2"%string |}
         (after 1 {| reqEmail := a; reqPhoneNumber := Some "+1"%string |}
                emptyDatabase)) in
  let request := {| reqEmail := a; reqPhoneNumber := Some "+3"%string |} in
  let direct := {| reqEmail := a; reqPhoneNumber := Some "+2"%string |} in
  map (fun r => (id r, linkPrecedence r, linkedId r, createdAt r))
      (contacts db)
  = [(1, PRIMARY, None, 1); (2, PRIMARY, None, 2); (3, SECONDARY, Some 2, 3)]
  /\ option_map (map id)
                (resolvedValue
                   (fst (Database.findContactsByEmailOrPhone
                           (reqEmail request) (reqPhoneNumber request) db)))
     = Some [1; 3]
  /\ fst (identify 4 request db)
     = Resolved {| primaryContactId := 1;
                   emails := ["a@x.com"%string];
                   phoneNumbers := ["+1"%string; "+3"%string];
                   secondaryContactIds := [4] |}
  /\ map (fun r => (id r, linkPrecedence r, linkedId r))
         (contacts (after 4 request db))
     = [(1, PRIMARY, None); (2, PRIMARY, None); (3, SECONDARY, Some 2);
        (4, SECONDARY, Some 1)]
  /\ map (fun r => (id r, linkPrecedence r, linkedId r))
         (contacts (after 4 direct db))
     = [(1, PRIMARY, None); (2, SECONDARY, Some 1); (3, SECONDARY, Some 1)].
Proof.
  cbv zeta. repeat split; reflexivity.
Qed.

(* ================================================================= *)
(** ** Values are never rewritten *)

Section Frame.

Import Database.

Lemma sameValues_refl r : sameValues r r.
Proof. repeat split. Qed.

Lemma sameValues_trans r1 r2 r3 :
  sameValues r1 r2 -> sameValues r2 r3 -> sameValues r1 r3.
Proof. unfold sameValues. intuition congruence. Qed.

Lemma Forall2_sameValues_refl l : Forall2 sameValues l l.
Proof. induction l; constructor; auto using sameValues_refl. Qed.

Lemma Forall2_sameValues_trans l1 l2 l3 :
  Forall2 sameValues l1 l2 -> Forall2 sameValues l2 l3 ->
  Forall2 sameValues l1 l3.
Proof.
  intros H. revert l3. induction H; intros l3 H3; inversion H3; subst;
    constructor; eauto using sameValues_trans.
Qed.

Lemma Forall2_sameValues_map (f : Contact -> Contact) l :
  (forall r, sameValues r (f r)) -> Forall2 sameValues l (map f l).
Proof. intros Hf. induction l; simpl; constructor; auto. Qed.

Lemma Forall2_sameValues_ids l l' :
  Forall2 sameValues l l' -> map id l' = map id l.
Proof.
  induction 1 as [|r r' l l' Hr _ IH]; simpl; [reflexivity|].
  destruct Hr as [-> _]. now rewrite IH.
Qed.

Lemma In_same_id l l' r' :
  Forall2 sameValues l l' -> In r' l' -> exists r, In r l /\ id r = id r'.
Proof.
  intros H Hin. apply Forall2_sameValues_ids in H.
  apply (in_map id) in Hin. rewrite H in Hin.
  apply in_map_iff in Hin. destruct Hin as (r & E & Hr). eauto.
Qed.

Lemma extendsBy_refl l : extendsBy 0 l l.
Proof.
  exists l, []. rewrite app_nil_r.
  repeat split; auto using Forall2_sameValues_refl.
Qed.

Lemma extendsBy_weaken n m l l' :
  (n <= m)%nat -> extendsBy n l l' -> extendsBy m l l'.
Proof.
  intros Hnm (kept & inserted & E & Hk & Hlen & Hfresh).
  exists kept, inserted. repeat split; auto. lia.
Qed.

Lemma extendsBy_trans n m l1 l2 l3 :
  extendsBy n l1 l2 -> extendsBy m l2 l3 -> extendsBy (n + m) l1 l3.
Proof.
  intros (k1 & i1 & E1 & Hk1 & Hlen1 & Hf1) (k2 & i2 & E2 & Hk2 & Hlen2 & Hf2).
  subst l2. apply Forall2_app_inv_l in Hk2.
  destruct Hk2 as (k2a & k2b & Ha & Hb & ->).
  exists k2a, (k2b ++ i2). split; [now rewrite E2, <- app_assoc|].
  split; [eauto using Forall2_sameValues_trans|]. split.
  - rewrite length_app. apply Forall2_length in Hb. lia.
  - apply Forall_app. split.
    + rewrite Forall_forall in Hf1 |- *. intros r' Hr' r Hr.
      destruct (In_same_id _ _ _ Hb Hr') as (r0 & Hr0 & <-).
      now apply Hf1.
    + rewrite Forall_forall in Hf2 |- *. intros r' Hr' r Hr.
      assert (Hids : In (id r) (map id k1)).
      { rewrite (Forall2_sameValues_ids _ _ Hk1). now apply in_map. }
      apply in_map_iff in Hids. destruct Hids as (r1 & <- & Hr1).
      apply Hf2; [assumption|]. apply in_or_app. now left.
Qed.

Lemma inserts_await {A B : Type} n m (p : Promise A) (k : A -> Promise B) :
  inserts n p -> (forall a, inserts m (k a)) -> inserts (n + m) (await p k).
Proof.
  intros Hp Hk db. unfold await. specialize (Hp db).
  destruct (p db) as [[a|e] db1]; simpl in Hp |- *.
  - eapply extendsBy_trans; [exact Hp|apply Hk].
  - eapply extendsBy_weaken; [|exact Hp]. lia.
Qed.

Lemma inserts_weaken {A : Type} n m (p : Promise A) :
  (n <= m)%nat -> inserts n p -> inserts m p.
Proof. intros Hnm Hp db. eapply extendsBy_weaken; eauto. Qed.

Lemma inserts_resolve {A : Type} (a : A) : inserts 0 (resolve a).
Proof. intros db. apply extendsBy_refl. Qed.

Lemma inserts_reject {A : Type} e : inserts 0 (@reject A e).
Proof. intros db. apply extendsBy_refl. Qed.

Lemma inserts_createContact now contactData :
  inserts 1 (createContact now contactData).
Proof.
  intros db. rewrite createContact_resolves. cbn [snd contacts].
  exists (contacts db), [insertedRow now contactData db].
  repeat split; auto using Forall2_sameValues_refl.
  constructor; [|constructor]. intros r Hr.
  now apply id_below_nextRowid.
Qed.

Lemma inserts_findContactsByEmailOrPhone email phoneNumber :
  inserts 0 (findContactsByEmailOrPhone email phoneNumber).
Proof.
  intros db. rewrite lookup_database. apply extendsBy_refl.
Qed.

Lemma inserts_findAllLinkedContacts i : inserts 0 (findAllLinkedContacts i).
Proof. intros db. apply extendsBy_refl. Qed.

Lemma inserts_updateContactToSecondary now i j :
  inserts 0 (updateContactToSecondary now i j).
Proof.
  intros db. cbn [snd updateContactToSecondary contacts].
  eexists _, []. rewrite app_nil_r. split; [reflexivity|].
  split; [|split; [auto|constructor]].
  unfold updateWhere. apply Forall2_sameValues_map. intros r.
  destruct (id r =? i); repeat split.
Qed.

Lemma inserts_updateLinkedContactsPrimaryId now i j :
  inserts 0 (updateLinkedContactsPrimaryId now i j).
Proof.
  intros db. cbn [snd updateLinkedContactsPrimaryId contacts].
  eexists _, []. rewrite app_nil_r. split; [reflexivity|].
  split; [|split; [auto|constructor]].
  unfold updateWhere. apply Forall2_sameValues_map. intros r.
  destruct (linkedTo i r); repeat split.
Qed.

Lemma inserts_buildResponseForPrimary i :
  inserts 0 (buildResponseForPrimary i).
Proof.
  intros db. rewrite buildResponseForPrimary_database. apply extendsBy_refl.
Qed.

Lemma inserts_convertToSecondaries now toMerge o :
  inserts 0 (convertToSecondaries now toMerge o).
Proof.
  induction toMerge as [|c rest IH]; simpl.
  - apply inserts_resolve.
  - apply (inserts_await 0 0); [apply inserts_updateContactToSecondary|].
    intros _.
    apply (inserts_await 0 0); [apply inserts_updateLinkedContactsPrimaryId|].
    intros _. exact IH.
Qed.

Lemma inserts_createSecondaryContact now email phoneNumber i :
  inserts 1 (createSecondaryContact now email phoneNumber i).
Proof. apply inserts_createContact. Qed.

Lemma inserts_optional_secondary (b : bool) now email phoneNumber i :
  inserts 1 (if b
             then createSecondaryContact now email phoneNumber i ;;
                  resolve tt
             else resolve tt).
Proof.
  destruct b.
  - apply (inserts_await 1 0); [apply inserts_createSecondaryContact|].
    intros _. apply inserts_resolve.
  - apply (inserts_weaken 0); [lia|apply inserts_resolve].
Qed.

Lemma inserts_mergePrimaryContacts now primaryContacts email phoneNumber :
  inserts 1 (mergePrimaryContacts now primaryContacts email phoneNumber).
Proof.
  unfold mergePrimaryContacts.
  destruct (oldestPrimary primaryContacts) as [oldest|].
  - apply (inserts_await 0 1); [apply inserts_convertToSecondaries|].
    intros _.
    apply (inserts_await 0 1); [apply inserts_findAllLinkedContacts|].
    intros allLinked.
    apply (inserts_await 1 0); [apply inserts_optional_secondary|].
    intros _. apply inserts_buildResponseForPrimary.
  - apply (inserts_weaken 0); [lia|apply inserts_reject].
Qed.

Lemma inserts_identify now request : inserts 1 (identify now request).
Proof.
  unfold identify.
  apply (inserts_await 0 1); [apply inserts_findContactsByEmailOrPhone|].
  intros existing. destruct existing as [|c existing].
  - unfold createNewPrimaryContact.
    apply (inserts_await 1 0); [apply inserts_createContact|].
    intros newContact. apply inserts_resolve.
  - destruct (findPrimaryContacts (c :: existing)) as [|P [|Q ps]].
    + apply inserts_mergePrimaryContacts.
    + apply (inserts_await 1 0); [apply inserts_optional_secondary|].
      intros _. apply inserts_buildResponseForPrimary.
    + apply inserts_mergePrimaryContacts.
Qed.

End Frame.

(** C8. Whatever the request and whether it resolves or rejects, the table
    after [identify] is the table before, row by row, with the same id,
    email, phone number, creation time and deletion mark on every row,
    followed by at most one inserted row whose id was not in use: an
    existing contact can change in its linkedId, linkPrecedence and
    updatedAt only. *)
Theorem C8_identify_keeps_contact_values :
  forall now request db,
  exists kept inserted,
    contacts (after now request db) = kept ++ inserted
    /\ Forall2 (fun r r' =>
                  id r' = id r
                  /\ email r' = email r
                  /\ phoneNumber r' = phoneNumber r
                  /\ createdAt r' = createdAt r
                  /\ deletedAt r' = deletedAt r)
               (contacts db) kept
    /\ (List.length inserted <= 1)%nat
    /\ Forall (fun r' => forall r, In r (contacts db) -> id r < id r')
              inserted.
Proof.
  intros now request db. exact (inserts_identify now request db).
Qed.

(* ================================================================= *)
(** ** The link invariant *)

Section LinkInvariant.

Import Database.

Lemma same_id_same_row rows a b :
  NoDup (map id rows) -> In a rows -> In b rows -> id a = id b -> a = b.
Proof.
  induction rows as [|r rows IH]; simpl; [tauto|].
  intros Hnd Ha Hb E. inversion Hnd as [|? ? Hnotin Hnd']; subst.
  destruct Ha as [->|Ha], Hb as [->|Hb]; auto.
  - exfalso. apply Hnotin. rewrite E. now apply in_map.
  - exfalso. apply Hnotin. rewrite <- E. now apply in_map.
Qed.

Lemma map_rowToContact_normal rows :
  (forall r, In r rows -> rowToContact r = r) -> map rowToContact rows = rows.
Proof.
  induction rows as [|r rows IH]; simpl; intros H; [reflexivity|].
  rewrite H by now left. rewrite IH; [reflexivity|].
  intros x Hx. apply H. now right.
Qed.

Lemma isPrimary_true c : isPrimary c = true <-> linkPrecedence c = PRIMARY.
Proof. unfold isPrimary. destruct (linkPrecedence c); split; congruence. Qed.

Lemma isPrimary_false c : isPrimary c = false <-> linkPrecedence c = SECONDARY.
Proof. unfold isPrimary. destruct (linkPrecedence c); split; congruence. Qed.

Lemma isSecondary_true c :
  isSecondary c = true <-> linkPrecedence c = SECONDARY.
Proof. unfold isSecondary. destruct (linkPrecedence c); split; congruence. Qed.

Lemma linkedTo_true i r : linkedTo i r = true <-> linkedId r = Some i.
Proof.
  unfold linkedTo. destruct (linkedId r) as [l|]; [|split; discriminate].
  rewrite Z.eqb_eq. split; congruence.
Qed.

(** The rows a query selects, in the order it delivers them. *)
Lemma selected_rows rows (condition : Contact -> bool) :
  (forall r, In r rows -> rowToContact r = r) ->
  map rowToContact (sortByCreatedAt (filter condition rows))
  = sortByCreatedAt (filter condition rows).
Proof.
  intros H. apply map_rowToContact_normal. intros r Hr.
  apply sortByCreatedAt_In, filter_In in Hr. apply H, Hr.
Qed.

Lemma lookup_resolved email phoneNumber db matches :
  (forall r, In r (contacts db) -> rowToContact r = r) ->
  fst (findContactsByEmailOrPhone email phoneNumber db) = Resolved matches ->
  disjuncts email phoneNumber <> []
  /\ matches = matchingRows (disjuncts email phoneNumber) (contacts db).
Proof.
  intros Hnormal. unfold findContactsByEmailOrPhone.
  destruct (disjuncts email phoneNumber) as [|d ds] eqn:E; simpl;
    [discriminate|].
  intros H. injection H as <-. split; [discriminate|].
  now apply selected_rows.
Qed.

Lemma lookup_In email phoneNumber db matches :
  (forall r, In r (contacts db) -> rowToContact r = r) ->
  fst (findContactsByEmailOrPhone email phoneNumber db) = Resolved matches ->
  forall c, In c matches -> In c (contacts db).
Proof.
  intros Hnormal H c Hc.
  destruct (lookup_resolved _ _ _ _ Hnormal H) as [_ ->].
  unfold matchingRows in Hc.
  apply sortByCreatedAt_In, filter_In in Hc. apply Hc.
Qed.

(** Where the contacts [findPrimaryContacts] returns come from. *)
Lemma findPrimaryContactsFrom_In all acc ids rest c :
  In c (findPrimaryContactsFrom all acc ids rest) ->
  In c acc
  \/ (In c rest /\ isPrimary c = true)
  \/ (In c all /\ exists s, In s rest /\ isPrimary s = false
                            /\ linkedId s = Some (id c)).
Proof.
  revert acc ids.
  induction rest as [|x rest IH]; intros acc ids;
    cbn [findPrimaryContactsFrom].
  - auto.
  - cbn [In]. destruct (isPrimary x) eqn:Hx.
    + intros H. apply IH in H. rewrite in_app_iff in H. simpl in H.
      destruct H as [[H|[<-|[]]]|[[H1 H2]|(H1 & s & Hs & Hs')]]; eauto 8.
    + assert (Hskip :
          In c (findPrimaryContactsFrom all acc ids rest) ->
          In c acc
          \/ (x = c \/ In c rest) /\ isPrimary c = true
          \/ In c all /\ (exists s, (x = s \/ In s rest)
                                    /\ isPrimary s = false
                                    /\ linkedId s = Some (id c))).
      { intros H. apply IH in H.
        destruct H as [H|[[H1 H2]|(H1 & s & Hs & Hs')]]; eauto 8. }
      destruct (linkedId x) as [l|] eqn:Hl; [|exact Hskip].
      destruct (truthyNum (Some l) && negb (existsb (Z.eqb l) ids));
        [|exact Hskip].
      destruct (find (fun c0 => id c0 =? l) all) as [p|] eqn:Hfind;
        [|exact Hskip].
      apply find_some in Hfind. destruct Hfind as [Hp Hid].
      apply Z.eqb_eq in Hid.
      intros H. apply IH in H. rewrite in_app_iff in H. simpl in H.
      destruct H as [[H|[<-|[]]]|[[H1 H2]|(H1 & s & Hs & Hs')]]; eauto 8.
      right. right. split; [assumption|]. exists x.
      rewrite Hid. auto.
Qed.

Lemma findPrimaryContacts_primary rows matches c :
  wellLinked rows ->
  (forall m, In m matches -> In m rows) ->
  In c (findPrimaryContacts matches) ->
  In c matches /\ linkPrecedence c = PRIMARY.
Proof.
  intros Hwl Hsub Hc. unfold findPrimaryContacts in Hc.
  apply findPrimaryContactsFrom_In in Hc.
  destruct Hc as [[]|[[H1 H2]|(H1 & s & Hs & Hsec & Hlink)]].
  - split; [assumption|now apply isPrimary_true].
  - split; [assumption|].
    apply isPrimary_false in Hsec.
    destruct (wl_secondary rows Hwl s (Hsub s Hs) Hsec)
      as (p & Hp & Hlp & Hprim).
    assert (c = p); [|now subst].
    apply (same_id_same_row rows); auto using wl_ids. congruence.
Qed.

(** Every matched primary is among the primaries returned. *)
Lemma findPrimaryContactsFrom_acc all acc ids rest c :
  In c acc -> In c (findPrimaryContactsFrom all acc ids rest).
Proof.
  revert acc ids.
  induction rest as [|x rest IH]; intros acc ids H;
    cbn [findPrimaryContactsFrom]; [assumption|].
  destruct (isPrimary x); [apply IH, in_or_app; now left|].
  destruct (linkedId x) as [l|]; [|now apply IH].
  destruct (truthyNum (Some l) && negb (existsb (Z.eqb l) ids));
    [|now apply IH].
  destruct (find (fun c0 => id c0 =? l) all); [|now apply IH].
  apply IH, in_or_app. now left.
Qed.

Lemma findPrimaryContactsFrom_complete all acc ids rest c :
  In c rest -> isPrimary c = true ->
  In c (findPrimaryContactsFrom all acc ids rest).
Proof.
  revert acc ids.
  induction rest as [|x rest IH]; intros acc ids;
    cbn [findPrimaryContactsFrom In]; [tauto|].
  intros [->|Hin] Hc.
  - rewrite Hc. apply findPrimaryContactsFrom_acc, in_or_app.
    right. now left.
  - destruct (isPrimary x); [now apply IH|].
    destruct (linkedId x) as [l|]; [|now apply IH].
    destruct (truthyNum (Some l) && negb (existsb (Z.eqb l) ids));
      [|now apply IH].
    destruct (find (fun c0 => id c0 =? l) all); now apply IH.
Qed.

Lemma findPrimaryContacts_complete matches c :
  In c matches -> isPrimary c = true -> In c (findPrimaryContacts matches).
Proof. apply findPrimaryContactsFrom_complete. Qed.

End LinkInvariant.

Section Preservation.

Import Database.

Lemma demote_ids now x o rows : map id (demote now x o rows) = map id rows.
Proof.
  unfold demote, updateWhere. rewrite !map_map. apply map_ext.
  intros r. destruct (id r =? x); simpl.
  - destruct (linkedTo x _); reflexivity.
  - destruct (linkedTo x r); reflexivity.
Qed.

(** What [demote] makes of a row. *)
Lemma demote_In now x o rows r' :
  In r' (demote now x o rows) ->
  exists r,
    In r rows /\ sameValues r r'
    /\ (o <> 0 -> rowToContact r = r -> rowToContact r' = r')
    /\ ((id r = x /\ linkPrecedence r' = SECONDARY /\ linkedId r' = Some o)
        \/ (id r <> x /\ linkedId r = Some x
            /\ linkPrecedence r' = linkPrecedence r /\ linkedId r' = Some o)
        \/ (id r <> x /\ linkedId r <> Some x /\ r' = r)).
Proof.
  unfold demote, updateWhere. rewrite map_map, in_map_iff.
  intros (r & <- & Hr). exists r. split; [assumption|].
  assert (Hnorm : forall r0 : Contact,
             o <> 0 -> rowToContact r0 = r0 ->
             rowToContact (setSecondary now o r0) = setSecondary now o r0
             /\ rowToContact (setLinkedId now o r0) = setLinkedId now o r0).
  { intros [i ph em li lp ca ua da] Ho E. unfold rowToContact in *.
    simpl in *. apply Z.eqb_neq in Ho. rewrite Ho. simpl.
    injection E as E1 E2 E3. rewrite E1, E2. split; reflexivity. }
  destruct (id r =? x) eqn:Hid.
  - apply Z.eqb_eq in Hid.
    destruct (linkedTo x (setSecondary now o r)) eqn:Hl.
    + split; [repeat split|]. split.
      * intros Ho E. destruct (Hnorm r Ho E) as [E1 _].
        destruct (Hnorm _ Ho E1) as [_ E2]. exact E2.
      * left. auto.
    + split; [repeat split|]. split.
      * intros Ho E. apply (Hnorm r Ho E).
      * left. auto.
  - apply Z.eqb_neq in Hid.
    destruct (linkedTo x r) eqn:Hl.
    + apply linkedTo_true in Hl. split; [repeat split|]. split.
      * intros Ho E. apply (Hnorm r Ho E).
      * right. left. auto.
    + split; [apply sameValues_refl|]. split; [auto|].
      right. right. repeat split; auto.
      intros E. apply linkedTo_true in E. congruence.
Qed.

Lemma demote_unchanged now x o rows r :
  In r rows -> id r <> x -> linkedId r <> Some x ->
  In r (demote now x o rows).
Proof.
  intros Hr Hid Hl. unfold demote, updateWhere. rewrite map_map.
  apply in_map_iff. exists r. split; [|assumption].
  apply Z.eqb_neq in Hid. rewrite Hid.
  destruct (linkedTo x r) eqn:E; [|reflexivity].
  apply linkedTo_true in E. contradiction.
Qed.

(** One round of the loop keeps the invariant, provided the contact
    converted is not the one the others are linked to. *)
Lemma demote_wellLinked now x o rows oldest :
  wellLinked rows ->
  In oldest rows -> linkPrecedence oldest = PRIMARY -> id oldest = o ->
  x <> o ->
  wellLinked (demote now x o rows) /\ In oldest (demote now x o rows).
Proof.
  intros Hwl Hin Hprim Hid Hx.
  assert (Hold : In oldest (demote now x o rows)).
  { apply demote_unchanged; [assumption|congruence|].
    rewrite (wl_primary rows Hwl oldest Hin Hprim). discriminate. }
  assert (Ho : o <> 0).
  { pose proof (wl_positive rows Hwl oldest Hin). lia. }
  split; [|exact Hold]. constructor.
  - rewrite demote_ids. apply (wl_ids rows Hwl).
  - intros r' Hr'. apply demote_In in Hr'.
    destruct Hr' as (r & Hr & (E & _) & _). rewrite E.
    now apply (wl_positive rows Hwl).
  - intros r' Hr'. apply demote_In in Hr'.
    destruct Hr' as (r & Hr & (_ & _ & _ & _ & E) & _). rewrite E.
    now apply (wl_live rows Hwl).
  - intros r' Hr'. apply demote_In in Hr'.
    destruct Hr' as (r & Hr & _ & Hnorm & _).
    apply Hnorm; [assumption|]. now apply (wl_normal rows Hwl).
  - intros r' Hr' Hp. apply demote_In in Hr'.
    destruct Hr'
      as (r & Hr & _ & _ & [(_ & E & _)|[(_ & Hl & E & _)|(_ & _ & ->)]]).
    + congruence.
    + rewrite Hp in E. symmetry in E.
      rewrite (wl_primary rows Hwl r Hr E) in Hl. discriminate.
    + now apply (wl_primary rows Hwl).
  - intros r' Hr' Hs. apply demote_In in Hr'.
    destruct Hr'
      as (r & Hr & _ & _ & [(_ & _ & E)|[(_ & _ & _ & E)|(_ & Hl & ->)]]).
    + exists oldest. rewrite Hid. auto.
    + exists oldest. rewrite Hid. auto.
    + destruct (wl_secondary rows Hwl r Hr Hs) as (p & Hp & Hlp & Hpp).
      exists p. split; [|auto].
      apply demote_unchanged; [assumption|congruence|].
      rewrite (wl_primary rows Hwl p Hp Hpp). discriminate.
Qed.

Lemma demoteAll_wellLinked now toMerge o rows oldest :
  wellLinked rows ->
  In oldest rows -> linkPrecedence oldest = PRIMARY -> id oldest = o ->
  ~ In o (map id toMerge) ->
  wellLinked (demoteAll now toMerge o rows)
  /\ In oldest (demoteAll now toMerge o rows).
Proof.
  unfold demoteAll. revert rows.
  induction toMerge as [|c rest IH]; intros rows Hwl Hin Hprim Hid Hnot;
    simpl; [auto|].
  simpl in Hnot.
  destruct (demote_wellLinked now (id c) o rows oldest) as [Hwl' Hin'];
    auto.
Qed.

(** Without that proviso the loop still never makes a row primary, and
    once the contact the others are linked to has been converted, no
    primary is left at its id. *)
Lemma demote_primariesUnlinked now x o rows :
  primariesUnlinked rows -> primariesUnlinked (demote now x o rows).
Proof.
  intros H r' Hr' Hp. apply demote_In in Hr'.
  destruct Hr'
    as (r & Hr & _ & _ & [(_ & E & _)|[(_ & Hl & E & _)|(_ & _ & ->)]]).
  - congruence.
  - rewrite Hp in E. symmetry in E. rewrite (H r Hr E) in Hl. discriminate.
  - now apply H.
Qed.

Lemma demote_noPrimaryAt now x o o' rows :
  primariesUnlinked rows -> noPrimaryAt o' rows ->
  noPrimaryAt o' (demote now x o rows).
Proof.
  intros Hu H r' Hr' Hp. apply demote_In in Hr'.
  destruct Hr'
    as (r & Hr & _ & _ & [(_ & E & _)|[(_ & Hl & E & _)|(_ & _ & ->)]]).
  - congruence.
  - rewrite Hp in E. symmetry in E. rewrite (Hu r Hr E) in Hl. discriminate.
  - now apply H.
Qed.

Lemma demote_self_noPrimaryAt now x o rows :
  primariesUnlinked rows -> noPrimaryAt x (demote now x o rows).
Proof.
  intros Hu r' Hr' Hp. apply demote_In in Hr'.
  destruct Hr'
    as (r & Hr & _ & _ & [(_ & E & _)|[(_ & Hl & E & _)|(Hid & _ & ->)]]).
  - congruence.
  - rewrite Hp in E. symmetry in E. rewrite (Hu r Hr E) in Hl. discriminate.
  - exact Hid.
Qed.

Lemma demoteAll_primariesUnlinked now toMerge o rows :
  primariesUnlinked rows -> primariesUnlinked (demoteAll now toMerge o rows).
Proof.
  unfold demoteAll. revert rows.
  induction toMerge as [|c rest IH]; intros rows H; simpl; [assumption|].
  apply IH. now apply demote_primariesUnlinked.
Qed.

Lemma demoteAll_keeps_noPrimaryAt now toMerge o x rows :
  primariesUnlinked rows -> noPrimaryAt x rows ->
  noPrimaryAt x (demoteAll now toMerge o rows).
Proof.
  unfold demoteAll. revert rows.
  induction toMerge as [|c rest IH]; intros rows Hu H; simpl; [assumption|].
  apply IH; [now apply demote_primariesUnlinked|].
  now apply demote_noPrimaryAt.
Qed.

(** A contact the loop has converted is not primary afterwards. *)
Lemma demoteAll_self_noPrimaryAt now toMerge o x rows :
  primariesUnlinked rows -> In x (map id toMerge) ->
  noPrimaryAt x (demoteAll now toMerge o rows).
Proof.
  unfold demoteAll. revert rows.
  induction toMerge as [|c rest IH]; intros rows Hu Hin; simpl; [destruct Hin|].
  simpl in Hin. destruct (Z.eq_dec (id c) x) as [E|E].
  - rewrite E. apply (demoteAll_keeps_noPrimaryAt now rest o x).
    + now apply demote_primariesUnlinked.
    + now apply demote_self_noPrimaryAt.
  - destruct Hin as [Hin|Hin]; [contradiction|].
    apply IH; [now apply demote_primariesUnlinked|assumption].
Qed.

(** A contact primary after the loop was so before, unchanged. *)
Lemma demoteAll_primary_In now toMerge o rows p :
  primariesUnlinked rows ->
  In p (demoteAll now toMerge o rows) -> linkPrecedence p = PRIMARY ->
  In p rows.
Proof.
  unfold demoteAll. revert rows.
  induction toMerge as [|c rest IH]; intros rows Hu Hin Hp; simpl in Hin;
    [assumption|].
  apply IH in Hin; [|now apply demote_primariesUnlinked|assumption].
  apply demote_In in Hin.
  destruct Hin
    as (r & Hr & _ & _ & [(_ & E & _)|[(_ & Hl & E & _)|(_ & _ & ->)]]).
  - congruence.
  - rewrite Hp in E. symmetry in E. rewrite (Hu r Hr E) in Hl. discriminate.
  - assumption.
Qed.

Lemma demote_createdAt now x o rows :
  map createdAt (demote now x o rows) = map createdAt rows.
Proof.
  unfold demote, updateWhere. rewrite !map_map. apply map_ext.
  intros r. destruct (id r =? x); simpl.
  - destruct (linkedTo x _); reflexivity.
  - destruct (linkedTo x r); reflexivity.
Qed.

Lemma demoteAll_ids now toMerge o rows :
  map id (demoteAll now toMerge o rows) = map id rows.
Proof.
  unfold demoteAll. revert rows.
  induction toMerge as [|c rest IH]; intros rows; simpl; [reflexivity|].
  now rewrite IH, demote_ids.
Qed.

Lemma demoteAll_createdAt now toMerge o rows :
  map createdAt (demoteAll now toMerge o rows) = map createdAt rows.
Proof.
  unfold demoteAll. revert rows.
  induction toMerge as [|c rest IH]; intros rows; simpl; [reflexivity|].
  now rewrite IH, demote_createdAt.
Qed.

End Preservation.

Section IdentifyKeepsLinks.

Import Database.

Lemma convertToSecondaries_run now toMerge o db :
  convertToSecondaries now toMerge o db =
  (Resolved tt,
   {| contacts := demoteAll now toMerge o (contacts db);
      sqliteSequence := sqliteSequence db;
      calls := calls db ++
               flat_map (fun _ => [CallUpdateContactToSecondary;
                                   CallUpdateLinkedContactsPrimaryId])
                        toMerge |}).
Proof.
  revert db. induction toMerge as [|c rest IH]; intros db.
  - simpl. unfold resolve. rewrite app_nil_r. now destruct db.
  - cbn [convertToSecondaries]. unfold await at 1.
    cbn [updateContactToSecondary]. unfold await at 1.
    cbn [updateLinkedContactsPrimaryId]. rewrite IH.
    cbn [contacts sqliteSequence calls flat_map].
    rewrite <- !app_assoc. reflexivity.
Qed.

Lemma convertToSecondaries_resolves now toMerge o db :
  fst (convertToSecondaries now toMerge o db) = Resolved tt
  /\ contacts (snd (convertToSecondaries now toMerge o db))
     = demoteAll now toMerge o (contacts db)
  /\ sqliteSequence (snd (convertToSecondaries now toMerge o db))
     = sqliteSequence db.
Proof. rewrite convertToSecondaries_run. repeat split. Qed.

(** The database [mergePrimaryContacts] builds its response from. *)
Lemma mergePrimaryContacts_run now primaryContacts email phoneNumber db oldest :
  oldestPrimary primaryContacts = Some oldest ->
  mergePrimaryContacts now primaryContacts email phoneNumber db =
  buildResponseForPrimary (id oldest)
    (let db1 := logCall CallFindAllLinkedContacts
                  (snd (convertToSecondaries
                          now (contactsToMerge primaryContacts) (id oldest)
                          db)) in
     if hasNewInformation
          (map rowToContact (linkedRows (id oldest) (contacts db1)))
          email phoneNumber
     then snd (createSecondaryContact now email phoneNumber (id oldest) db1)
     else db1).
Proof.
  intros Hold. unfold mergePrimaryContacts. rewrite Hold.
  unfold await at 1.
  pose proof (convertToSecondaries_resolves
                now (contactsToMerge primaryContacts) (id oldest) db)
    as (H1 & _).
  destruct (convertToSecondaries _ _ _ db) as [res db1]. simpl in H1.
  subst res. cbn [snd].
  unfold await at 1. cbn [findAllLinkedContacts]. cbv zeta.
  cbn [logCall contacts].
  destruct (hasNewInformation _ email phoneNumber).
  - unfold await at 1. unfold await at 1.
    unfold createSecondaryContact. rewrite createContact_resolves.
    reflexivity.
  - reflexivity.
Qed.

Lemma find_none_all {A : Type} (f : A -> bool) (l : list A) :
  (forall x, In x l -> f x = false) -> find f l = None.
Proof.
  induction l as [|x l IH]; simpl; intros H; [reflexivity|].
  rewrite (H x (or_introl eq_refl)). apply IH. intros y Hy. apply H.
  now right.
Qed.

Lemma linkedRows_In i rows r :
  In r (linkedRows i rows)
  <-> In r rows /\ (id r = i \/ linkedId r = Some i) /\ deletedAt r = None.
Proof.
  unfold linkedRows. rewrite sortByCreatedAt_In, filter_In.
  rewrite andb_true_iff, orb_true_iff, Z.eqb_eq, linkedTo_true.
  unfold isNull. destruct (deletedAt r); intuition congruence.
Qed.

Lemma rowToContact_linkPrecedence r :
  linkPrecedence (rowToContact r) = linkPrecedence r.
Proof. reflexivity. Qed.

(** With no primary at [o] the response cannot be built. *)
Lemma buildResponseForPrimary_rejects o db :
  primariesUnlinked (contacts db) -> noPrimaryAt o (contacts db) ->
  fst (buildResponseForPrimary o db)
  = Rejected (Thrown "Primary contact not found").
Proof.
  intros Hu Hno. unfold buildResponseForPrimary, await.
  cbn [findAllLinkedContacts]. rewrite find_none_all; [reflexivity|].
  intros c Hc. apply in_map_iff in Hc. destruct Hc as (r & <- & Hr).
  apply linkedRows_In in Hr. destruct Hr as (Hr & Hcl & _).
  unfold isPrimary. rewrite rowToContact_linkPrecedence.
  destruct (linkPrecedence r) eqn:Hp; [|reflexivity]. exfalso.
  destruct Hcl as [E|E].
  - now apply (Hno r Hr Hp).
  - rewrite (Hu r Hr Hp) in E. discriminate.
Qed.

Lemma wellLinked_insert rows row :
  wellLinked rows ->
  (forall r, In r rows -> id r < id row) ->
  0 < id row -> deletedAt row = None -> rowToContact row = row ->
  (linkPrecedence row = PRIMARY /\ linkedId row = None
   \/ linkPrecedence row = SECONDARY
      /\ exists p, In p rows /\ linkedId row = Some (id p)
                   /\ linkPrecedence p = PRIMARY) ->
  wellLinked (rows ++ [row]).
Proof.
  intros Hwl Hfresh Hpos Hlive Hnorm Hkind. constructor.
  - rewrite map_app. simpl. apply NoDup_app.
    + apply (wl_ids rows Hwl).
    + constructor; [intros []|constructor].
    + intros i Hi [<-|[]]. apply in_map_iff in Hi.
      destruct Hi as (r & E & Hr). apply Hfresh in Hr. lia.
  - intros r Hr. apply in_app_or in Hr. destruct Hr as [Hr|[<-|[]]];
      [now apply (wl_positive rows Hwl)|assumption].
  - intros r Hr. apply in_app_or in Hr. destruct Hr as [Hr|[<-|[]]];
      [now apply (wl_live rows Hwl)|assumption].
  - intros r Hr. apply in_app_or in Hr. destruct Hr as [Hr|[<-|[]]];
      [now apply (wl_normal rows Hwl)|assumption].
  - intros r Hr Hp. apply in_app_or in Hr. destruct Hr as [Hr|[<-|[]]];
      [now apply (wl_primary rows Hwl)|].
    destruct Hkind as [[_ E]|[E _]]; congruence.
  - intros r Hr Hs. apply in_app_or in Hr. destruct Hr as [Hr|[<-|[]]].
    + destruct (wl_secondary rows Hwl r Hr Hs) as (p & Hp & Hl & Hpp).
      exists p. split; [apply in_or_app; now left|auto].
    + destruct Hkind as [[E _]|[_ (p & Hp & Hl & Hpp)]]; [congruence|].
      exists p. split; [apply in_or_app; now left|auto].
Qed.

Lemma stored_normal v :
  (if truthyStr (stored v) then stored v else None) = stored v.
Proof.
  unfold stored. destruct (truthyStr v) eqn:E; [now rewrite E|reflexivity].
Qed.

Lemma insertedRow_normal now phone mail link precedence db :
  (forall i, link = Some i -> i <> 0) ->
  rowToContact
    (insertedRow now {| dataPhoneNumber := stored phone;
                        dataEmail := stored mail;
                        dataLinkedId := link;
                        dataLinkPrecedence := precedence |} db)
  = insertedRow now {| dataPhoneNumber := stored phone;
                       dataEmail := stored mail;
                       dataLinkedId := link;
                       dataLinkPrecedence := precedence |} db.
Proof.
  intros Hl. unfold rowToContact, insertedRow. cbn.
  rewrite !stored_normal.
  destruct link as [i|]; [|reflexivity].
  specialize (Hl i eq_refl). apply Z.eqb_neq in Hl. simpl. now rewrite Hl.
Qed.

(** A secondary inserted under a primary of the table. *)
Lemma wellLinked_secondary now email phoneNumber db p :
  wellLinked (contacts db) ->
  In p (contacts db) -> linkPrecedence p = PRIMARY ->
  wellLinked
    (contacts (snd (createSecondaryContact now email phoneNumber (id p) db))).
Proof.
  intros Hwl Hp Hprim.
  assert (Hid : id p <> 0).
  { pose proof (wl_positive _ Hwl p Hp). lia. }
  rewrite createSecondaryContact_resolves by assumption. cbn [snd contacts].
  apply wellLinked_insert; auto.
  - intros r Hr. now apply id_below_nextRowid.
  - apply nextRowid_pos.
  - apply insertedRow_normal. intros i E. congruence.
  - right. split; [reflexivity|]. exists p. auto.
Qed.

Lemma oldestPrimary_In primaryContacts oldest :
  oldestPrimary primaryContacts = Some oldest -> In oldest primaryContacts.
Proof. apply hd_sortByCreatedAt_In. Qed.

Lemma mergePrimaryContacts_wellLinked
      now primaryContacts email phoneNumber db response db' :
  wellLinked (contacts db) ->
  (forall c, In c primaryContacts ->
             In c (contacts db) /\ linkPrecedence c = PRIMARY) ->
  mergePrimaryContacts now primaryContacts email phoneNumber db
  = (Resolved response, db') ->
  wellLinked (contacts db').
Proof.
  intros Hwl Hps Hrun.
  destruct (oldestPrimary primaryContacts) as [oldest|] eqn:Hold.
  2:{ unfold mergePrimaryContacts in Hrun. rewrite Hold in Hrun.
      discriminate. }
  rewrite (mergePrimaryContacts_run _ _ _ _ _ _ Hold) in Hrun.
  destruct (Hps oldest (oldestPrimary_In _ _ Hold)) as [Hin Hprim].
  pose proof (convertToSecondaries_resolves
                now (contactsToMerge primaryContacts) (id oldest) db)
    as (_ & Hrows & _).
  set (db1 := logCall CallFindAllLinkedContacts
                (snd (convertToSecondaries
                        now (contactsToMerge primaryContacts) (id oldest)
                        db))) in *.
  assert (Hrows1 : contacts db1
                   = demoteAll now (contactsToMerge primaryContacts)
                               (id oldest) (contacts db)) by exact Hrows.
  clear Hrows. cbv zeta in Hrun.
  set (db2 := if hasNewInformation _ email phoneNumber
              then snd (createSecondaryContact now email phoneNumber
                                               (id oldest) db1)
              else db1) in *.
  assert (Hdb' : contacts db' = contacts db2).
  { pose proof (buildResponseForPrimary_database (id oldest) db2) as E.
    rewrite Hrun in E. simpl in E. now subst db'. }
  rewrite Hdb'.
  destruct (in_dec Z.eq_dec (id oldest)
                   (map id (contactsToMerge primaryContacts))) as [Hdup|Hnodup].
  - (* the oldest is also to be converted: no response can be built *)
    exfalso.
    assert (Hu1 : primariesUnlinked (contacts db1)).
    { rewrite Hrows1. apply demoteAll_primariesUnlinked.
      exact (wl_primary _ Hwl). }
    assert (Hn1 : noPrimaryAt (id oldest) (contacts db1)).
    { rewrite Hrows1. apply demoteAll_self_noPrimaryAt; [|assumption].
      exact (wl_primary _ Hwl). }
    assert (Hu2 : primariesUnlinked (contacts db2)
                  /\ noPrimaryAt (id oldest) (contacts db2)).
    { subst db2. destruct (hasNewInformation _ email phoneNumber); [|auto].
      unfold createSecondaryContact. rewrite createContact_resolves.
      cbn [snd contacts]. split.
      - intros r Hr Hp. apply in_app_or in Hr.
        destruct Hr as [Hr|[<-|[]]]; [now apply Hu1|discriminate Hp].
      - intros r Hr Hp. apply in_app_or in Hr.
        destruct Hr as [Hr|[<-|[]]]; [now apply Hn1|discriminate Hp]. }
    destruct Hu2 as [Hu2 Hn2].
    pose proof (buildResponseForPrimary_rejects (id oldest) db2 Hu2 Hn2) as E.
    rewrite Hrun in E. discriminate E.
  - destruct (demoteAll_wellLinked
                now (contactsToMerge primaryContacts) (id oldest)
                (contacts db) oldest Hwl Hin Hprim eq_refl Hnodup)
      as [Hwl1 Hin1].
    rewrite <- Hrows1 in Hwl1, Hin1.
    subst db2. destruct (hasNewInformation _ email phoneNumber);
      [|assumption].
    now apply wellLinked_secondary.
Qed.

Lemma identify_wellLinked now request db response db' :
  wellLinked (contacts db) ->
  identify now request db = (Resolved response, db') ->
  wellLinked (contacts db').
Proof.
  intros Hwl Hrun. unfold identify in Hrun. unfold await at 1 in Hrun.
  pose proof (lookup_database (reqEmail request) (reqPhoneNumber request) db)
    as Hdb.
  pose proof (lookup_In (reqEmail request) (reqPhoneNumber request) db)
    as Hsub.
  destruct (findContactsByEmailOrPhone _ _ db) as [[matches|e] db1];
    [|discriminate].
  simpl in Hdb. subst db1. specialize (Hsub matches (wl_normal _ Hwl) eq_refl).
  destruct matches as [|m matches].
  - rewrite createNewPrimaryContact_resolves in Hrun.
    injection Hrun as _ <-. cbn [contacts logCall].
    apply wellLinked_insert; auto.
    + intros r Hr.
      now apply (id_below_nextRowid
                   (logCall CallFindContactsByEmailOrPhone db)).
    + apply nextRowid_pos.
    + apply insertedRow_normal. discriminate.
  - assert (Hps : forall c, In c (findPrimaryContacts (m :: matches)) ->
                            In c (contacts db) /\ linkPrecedence c = PRIMARY).
    { intros c Hc.
      destruct (findPrimaryContacts_primary _ _ c Hwl Hsub Hc). auto. }
    destruct (findPrimaryContacts (m :: matches)) as [|P [|Q ps]] eqn:Hfind.
    + eapply mergePrimaryContacts_wellLinked; [| |exact Hrun]; auto.
    + destruct (Hps P (or_introl eq_refl)) as [HP HPp].
      unfold await at 1 in Hrun.
      pose proof (buildResponseForPrimary_database (id P)) as Hbuild.
      destruct (needsSecondaryContact P _ _).
      * unfold await at 1 in Hrun.
        pose proof (wellLinked_secondary
                      now (reqEmail request) (reqPhoneNumber request)
                      (logCall CallFindContactsByEmailOrPhone db) P Hwl HP HPp)
          as Hwl2.
        destruct (createSecondaryContact _ _ _ _ _) as [[c|e] db2].
        -- unfold resolve in Hrun. specialize (Hbuild db2).
           rewrite Hrun in Hbuild. simpl in Hbuild. now subst db'.
        -- discriminate.
      * unfold resolve in Hrun.
        specialize (Hbuild (logCall CallFindContactsByEmailOrPhone db)).
        rewrite Hrun in Hbuild. simpl in Hbuild. now subst db'.
    + eapply mergePrimaryContacts_wellLinked; [| |exact Hrun]; auto.
Qed.

Lemma wellLinked_empty : wellLinked [].
Proof. constructor; simpl; try tauto. constructor. Qed.

Lemma reachable_wellLinked db : reachable db -> wellLinked (contacts db).
Proof.
  induction 1 as [|db now request response db' _ IH Hrun].
  - apply wellLinked_empty.
  - eapply identify_wellLinked; eauto.
Qed.

Lemma reachable_after now request db response :
  reachable db ->
  fst (identify now request db) = Resolved response ->
  reachable (after now request db).
Proof.
  intros Hreach Hres. unfold after.
  destruct (identify now request db) as [res db'] eqn:E. simpl in *.
  subst res. eapply reachable_identify; eauto.
Qed.

End IdentifyKeepsLinks.

(** C5. In every database reached from the empty one by requests that all
    resolved, a SECONDARY contact has a linkedId, [findContactById] finds a
    contact under it, and that contact is live, PRIMARY and another row
    than the secondary; a PRIMARY contact has no linkedId.  So a link never
    dangles, never leads to a secondary and never closes a cycle. *)
Theorem C5_reachable_links_resolve_to_primaries :
  forall db,
    reachable db ->
    forall r,
      In r (contacts db) ->
      (linkPrecedence r = PRIMARY -> linkedId r = None)
      /\ (linkPrecedence r = SECONDARY ->
          exists l p,
            linkedId r = Some l
            /\ fst (Database.findContactById l db) = Resolved (Some p)
            /\ In p (contacts db)
            /\ id p = l
            /\ l <> id r
            /\ linkPrecedence p = PRIMARY
            /\ linkedId p = None
            /\ deletedAt p = None).
Proof.
  intros db Hreach r Hr.
  pose proof (reachable_wellLinked db Hreach) as Hwl.
  split; [now apply (wl_primary _ Hwl)|].
  intros Hs.
  destruct (wl_secondary _ Hwl r Hr Hs) as (p & Hp & Hl & Hpp).
  exists (id p), p. split; [assumption|].
  assert (Hfind : find (fun r0 => (id r0 =? id p)
                                  && Database.isNull (deletedAt r0))
                       (contacts db) = Some p).
  { destruct (find _ (contacts db)) as [p'|] eqn:E.
    - apply find_some in E. destruct E as [Hp' E].
      apply andb_true_iff in E. destruct E as [E _]. apply Z.eqb_eq in E.
      f_equal. apply (same_id_same_row (contacts db)); auto.
      apply (wl_ids _ Hwl).
    - exfalso. pose proof (find_none _ _ E p Hp) as Hf. cbv beta in Hf.
      rewrite Z.eqb_refl, (wl_live _ Hwl p Hp) in Hf.
      discriminate. }
  split.
  { unfold Database.findContactById. cbn [fst]. rewrite Hfind. simpl.
    now rewrite (wl_normal _ Hwl p Hp). }
  repeat split; auto.
  - intros E. assert (p = r); [|subst; congruence].
    apply (same_id_same_row (contacts db)); auto. apply (wl_ids _ Hwl).
  - now apply (wl_primary _ Hwl).
  - now apply (wl_live _ Hwl).
Qed.

Lemma C5_reachable_links_resolve_to_primaries_witness :
  let a := Some "a@x.com"%string in
  let b := Some "b@x.com"%string in
  let db :=
    after 3 {| reqEmail := a; reqPhoneNumber := Some "+2"%string |}
      (after 2 {| reqEmail := b; reqPhoneNumber := Some "+2"%string |}
         (after 1 {| reqEmail := a; reqPhoneNumber := Some "+1"%string |}
                emptyDatabase)) in
  let second := {| id := 2; phoneNumber := Some "+2"%string; email := b;
                   linkedId := Some 1; linkPrecedence := SECONDARY;
                   createdAt := 2; updatedAt := 3; deletedAt := None |} in
  (linkPrecedence second = PRIMARY -> linkedId second = None)
  /\ (linkPrecedence second = SECONDARY ->
      exists l p,
        linkedId second = Some l
        /\ fst (Database.findContactById l db) = Resolved (Some p)
        /\ In p (contacts db)
        /\ id p = l
        /\ l <> id second
        /\ linkPrecedence p = PRIMARY
        /\ linkedId p = None
        /\ deletedAt p = None).
Proof.
  intros a b db second.
  apply (C5_reachable_links_resolve_to_primaries db).
  - eapply reachable_after; [|reflexivity].
    eapply reachable_after; [|reflexivity].
    eapply reachable_after; [|reflexivity].
    apply reachable_empty.
  - simpl. right. left. reflexivity.
Defined.

(* ================================================================= *)
(** ** New information on the attach path and on the merge path *)

Section MergeTest.

Import Database.




End MergeTest.




(* ================================================================= *)
(** ** The projection of a cluster *)

Section Projection.

Import Database.

Lemma filter_filter_and {A : Type} (f g : A -> bool) (l : list A) :
  filter f (filter g l) = filter (fun x => g x && f x) l.
Proof.
  induction l as [|x l IH]; simpl; [reflexivity|].
  destruct (g x); simpl; [destruct (f x)|]; now rewrite IH.
Qed.

Lemma includes_app l s x :
  includes (l ++ [s]) x = includes l x || (x =? s)%string.
Proof.
  unfold includes. rewrite existsb_app. simpl. now rewrite orb_false_r.
Qed.

(** The loop of [buildResponseForPrimary] appends to what it has, in
    order, the first occurrences of the values it has not. *)
Lemma pushUnseen_fold (f : Contact -> option string) l acc :
  fold_left (fun a c => pushUnseen a (f c)) l acc
  = acc ++ filter (fun y => negb (includes acc y))
                  (firstOccurrences (truthyValues f l)).
Proof.
  revert acc. induction l as [|c l IH]; intros acc; simpl.
  - now rewrite app_nil_r.
  - rewrite IH. unfold pushUnseen, truthyValues. cbn [flat_map].
    fold (truthyValues f l).
    destruct (f c) as [s|]; [|reflexivity]. simpl.
    destruct (String.eqb_spec s EmptyString); simpl; [reflexivity|].
    destruct (includes acc s) eqn:Hinc; simpl.
    + rewrite filter_filter_and. f_equal. apply filter_ext_in.
      intros y _. destruct (String.eqb_spec y s) as [->|]; simpl.
      * now rewrite Hinc.
      * reflexivity.
    + rewrite <- app_assoc. simpl. f_equal. f_equal.
      rewrite filter_filter_and. apply filter_ext. intros y.
      rewrite includes_app, negb_orb. apply andb_comm.
Qed.

Lemma filter_true {A : Type} (l : list A) : filter (fun _ => true) l = l.
Proof. induction l; simpl; congruence. Qed.

Lemma pushUnseen_projection (f : Contact -> option string) primary l :
  fold_left (fun a c => pushUnseen a (f c)) l (pushUnseen [] (f primary))
  = firstOccurrences (listed (f primary) ++ truthyValues f l).
Proof.
  rewrite pushUnseen_fold. unfold pushUnseen, listed.
  destruct (f primary) as [s|]; simpl; [|apply filter_true].
  destruct (String.eqb_spec s EmptyString); simpl; [apply filter_true|].
  f_equal. apply filter_ext. intros y. now rewrite orb_false_r.
Qed.

Lemma firstOccurrences_In l x : In x (firstOccurrences l) <-> In x l.
Proof.
  induction l as [|y l IH]; simpl; [tauto|].
  rewrite filter_In, IH, negb_true_iff, String.eqb_neq.
  destruct (String.eqb_spec x y); intuition congruence.
Qed.

Lemma NoDup_filter_keep {A : Type} (f : A -> bool) (l : list A) :
  NoDup l -> NoDup (filter f l).
Proof.
  induction 1 as [|x l Hx Hnd IH]; simpl; [constructor|].
  destruct (f x); [|assumption]. constructor; [|assumption].
  rewrite filter_In. tauto.
Qed.

Lemma firstOccurrences_NoDup l : NoDup (firstOccurrences l).
Proof.
  induction l as [|y l IH]; simpl; constructor.
  - rewrite filter_In, String.eqb_refl. simpl. intros [_ H]. discriminate.
  - now apply NoDup_filter_keep.
Qed.

Lemma listed_head v rest :
  truthyStr v = true -> hd_error (firstOccurrences (listed v ++ rest)) = v.
Proof.
  unfold listed. destruct v as [s|]; [|discriminate].
  intros ->. reflexivity.
Qed.

Lemma filter_sortByCreatedAt (f : Contact -> bool) l :
  StronglySorted notAfter (filter f (sortByCreatedAt l)).
Proof.
  assert (H : forall l0, StronglySorted notAfter l0 ->
                         StronglySorted notAfter (filter f l0)).
  { induction 1 as [|x l0 Hl0 IH Hx]; simpl; [constructor|].
    destruct (f x); [|assumption]. constructor; [assumption|].
    rewrite Forall_forall in Hx |- *. intros y Hy.
    apply filter_In in Hy. apply Hx, Hy. }
  apply H, sortByCreatedAt_sorted.
Qed.

(** What a resolved [buildResponseForPrimary] says of the cluster. *)
Lemma buildResponseForPrimary_projection i db response :
  wellLinked (contacts db) ->
  fst (buildResponseForPrimary i db) = Resolved response ->
  let cluster := linkedRows i (contacts db) in
  let secondaries := filter isSecondary cluster in
  exists primary,
    In primary cluster
    /\ linkPrecedence primary = PRIMARY
    /\ id primary = i
    /\ primaryContactId response = i
    /\ emails response
       = firstOccurrences (listed (email primary)
                           ++ truthyValues email secondaries)
    /\ phoneNumbers response
       = firstOccurrences (listed (phoneNumber primary)
                           ++ truthyValues phoneNumber secondaries)
    /\ secondaryContactIds response = map id secondaries.
Proof.
  intros Hwl. unfold buildResponseForPrimary, await.
  cbn [findAllLinkedContacts]. cbv zeta.
  unfold linkedRows at 1 2 3 4 5.
  rewrite selected_rows by exact (wl_normal _ Hwl).
  fold (linkedRows i (contacts db)).
  destruct (find isPrimary (linkedRows i (contacts db))) as [P|] eqn:Hfind;
    [|discriminate].
  cbn [fst resolve]. intros H. injection H as <-.
  apply find_some in Hfind. destruct Hfind as [HP Hprim].
  apply isPrimary_true in Hprim.
  assert (Hid : id P = i).
  { apply linkedRows_In in HP. destruct HP as (HP & [E|E] & _);
      [assumption|].
    rewrite (wl_primary _ Hwl P HP Hprim) in E. discriminate. }
  exists P. cbn [primaryContactId emails phoneNumbers secondaryContactIds].
  rewrite !pushUnseen_projection. auto 10.
Qed.

End Projection.

Section IdentifyProjection.

Import Database.

Lemma filter_none {A : Type} (f : A -> bool) (l : list A) :
  (forall x, In x l -> f x = false) -> filter f l = [].
Proof.
  induction l as [|x l IH]; simpl; intros H; [reflexivity|].
  rewrite (H x (or_introl eq_refl)). apply IH. intros y Hy. apply H.
  now right.
Qed.

Lemma buildResponseForPrimary_contacts i db1 db2 :
  contacts db1 = contacts db2 ->
  fst (buildResponseForPrimary i db1) = fst (buildResponseForPrimary i db2).
Proof.
  intros E. unfold buildResponseForPrimary, await.
  cbn [findAllLinkedContacts]. rewrite E.
  destruct (find isPrimary _); reflexivity.
Qed.

(** No row of a well-linked table is linked to an id not yet in use. *)
Lemma fresh_id_unlinked rows i r :
  wellLinked rows -> (forall x, In x rows -> id x < i) -> In r rows ->
  ((id r =? i) || linkedTo i r) = false.
Proof.
  intros Hwl Hfresh Hr. apply orb_false_intro.
  - apply Z.eqb_neq. specialize (Hfresh r Hr). lia.
  - destruct (linkedTo i r) eqn:E; [|reflexivity].
    apply linkedTo_true in E.
    destruct (linkPrecedence r) eqn:Hp.
    + rewrite (wl_primary _ Hwl r Hr Hp) in E. discriminate.
    + destruct (wl_secondary _ Hwl r Hr Hp) as (p & Hin & Hl & _).
      specialize (Hfresh p Hin). rewrite Hl in E. injection E as E. lia.
Qed.

(** The response of the create path is the projection of the new
    cluster, as a read of the table would give it. *)
Lemma createNewPrimaryContact_projection now email phoneNumber db :
  wellLinked (contacts db) ->
  let run := createNewPrimaryContact now email phoneNumber db in
  exists response,
    fst run = Resolved response
    /\ fst (buildResponseForPrimary (primaryContactId response) (snd run))
       = Resolved response.
Proof.
  intros Hwl. cbv zeta. rewrite createNewPrimaryContact_resolves.
  eexists. split; [reflexivity|]. cbn [fst snd primaryContactId].
  unfold buildResponseForPrimary, await. cbn [findAllLinkedContacts contacts].
  unfold linkedRows. rewrite filter_app.
  rewrite filter_none.
  2:{ intros r Hr.
      rewrite (fresh_id_unlinked (contacts db) (nextRowid db) r Hwl); auto.
      intros x Hx. now apply id_below_nextRowid. }
  cbn [app filter insertedRow id deletedAt isNull].
  rewrite Z.eqb_refl. cbn [orb andb sortByCreatedAt insertByCreatedAt map].
  fold (insertedRow now {| dataPhoneNumber := stored phoneNumber;
                           dataEmail := stored email;
                           dataLinkedId := None;
                           dataLinkPrecedence := PRIMARY |} db).
  rewrite insertedRow_normal by discriminate.
  cbn. unfold pushUnseen, listed, stored.
  destruct email as [e|], phoneNumber as [p|]; simpl;
    try destruct (String.eqb_spec e EmptyString);
    try destruct (String.eqb_spec p EmptyString);
    simpl;
    try destruct (String.eqb_spec e EmptyString);
    try destruct (String.eqb_spec p EmptyString);
    simpl; try reflexivity; congruence.
Qed.

(** Whatever path a resolved [identify] took, its response is what
    [buildResponseForPrimary] reads from the table it leaves. *)
Lemma identify_projection now request db response db' :
  wellLinked (contacts db) ->
  identify now request db = (Resolved response, db') ->
  fst (buildResponseForPrimary (primaryContactId response) db')
  = Resolved response.
Proof.
  intros Hwl Hrun.
  pose proof (identify_wellLinked _ _ _ _ _ Hwl Hrun) as Hwl'.
  assert (Hbuilt : forall i db2,
             buildResponseForPrimary i db2 = (Resolved response, db') ->
             fst (buildResponseForPrimary (primaryContactId response) db')
             = Resolved response).
  { intros i db2 E.
    pose proof (buildResponseForPrimary_database i db2) as Hdb.
    rewrite E in Hdb. simpl in Hdb.
    assert (Hc : contacts db' = contacts db2) by now subst db'.
    assert (Hres : fst (buildResponseForPrimary i db2) = Resolved response)
      by now rewrite E.
    rewrite Hc in Hwl'.
    destruct (buildResponseForPrimary_projection i db2 response Hwl' Hres)
      as (P & _ & _ & _ & -> & _).
    now rewrite (buildResponseForPrimary_contacts i db' db2 Hc). }
  unfold identify in Hrun. unfold await at 1 in Hrun.
  pose proof (lookup_database (reqEmail request) (reqPhoneNumber request) db)
    as Hdb.
  destruct (findContactsByEmailOrPhone _ _ db) as [[matches|e] db1];
    [|discriminate].
  simpl in Hdb. subst db1.
  destruct matches as [|m matches].
  - destruct (createNewPrimaryContact_projection
                now (reqEmail request) (reqPhoneNumber request)
                (logCall CallFindContactsByEmailOrPhone db) Hwl)
      as (resp & H1 & H2).
    rewrite Hrun in H1, H2. simpl in H1, H2. injection H1 as <-. exact H2.
  - assert (Hmerge : forall ps,
               mergePrimaryContacts
                 now ps (reqEmail request) (reqPhoneNumber request)
                 (logCall CallFindContactsByEmailOrPhone db)
               = (Resolved response, db') ->
               fst (buildResponseForPrimary (primaryContactId response) db')
               = Resolved response).
    { intros ps E.
      destruct (oldestPrimary ps) as [oldest|] eqn:Hold.
      - rewrite (mergePrimaryContacts_run _ _ _ _ _ _ Hold) in E.
        eapply Hbuilt, E.
      - unfold mergePrimaryContacts in E. rewrite Hold in E. discriminate. }
    destruct (findPrimaryContacts (m :: matches)) as [|P [|Q ps]];
      [now apply (Hmerge [])| |now apply (Hmerge (P :: Q :: ps))].
    unfold await at 1 in Hrun.
    destruct (needsSecondaryContact P _ _).
    + unfold await at 1 in Hrun.
      destruct (createSecondaryContact _ _ _ _ _) as [[c|e] db2];
        [|discriminate].
      eapply Hbuilt, Hrun.
    + eapply Hbuilt, Hrun.
Qed.

End IdentifyProjection.

(** C3. The response [identify] resolves with, on a database reached from
    the empty one, projects the cluster of its primaryContactId as the
    table holds it after the request.  The cluster has a PRIMARY contact
    with that id; [secondaryContactIds] lists the ids of all the SECONDARY
    contacts linked to it, in ascending order of createdAt; [emails] is
    the primary's own email, when it has one, followed by the emails of
    those secondaries in that order, each value kept at its first
    occurrence only, and [phoneNumbers] likewise: the primary's own value
    comes first and no value appears twice. *)
Theorem C3_projection_lists_primary_first :
  forall now request db response db',
    reachable db ->
    identify now request db = (Resolved response, db') ->
    let cluster :=
      Database.linkedRows (primaryContactId response) (contacts db') in
    let secondaries := filter isSecondary cluster in
    exists primary,
      In primary (contacts db')
      /\ linkPrecedence primary = PRIMARY
      /\ id primary = primaryContactId response
      /\ (forall r, In r secondaries
                    <-> In r (contacts db')
                        /\ linkPrecedence r = SECONDARY
                        /\ linkedId r = Some (primaryContactId response))
      /\ StronglySorted notAfter secondaries
      /\ secondaryContactIds response = map id secondaries
      /\ emails response
         = firstOccurrences (listed (email primary)
                             ++ truthyValues email secondaries)
      /\ phoneNumbers response
         = firstOccurrences (listed (phoneNumber primary)
                             ++ truthyValues phoneNumber secondaries)
      /\ (truthyStr (email primary) = true ->
          hd_error (emails response) = email primary)
      /\ (truthyStr (phoneNumber primary) = true ->
          hd_error (phoneNumbers response) = phoneNumber primary)
      /\ NoDup (emails response)
      /\ NoDup (phoneNumbers response).
Proof.
  intros now request db response db' Hreach Hrun cluster secondaries.
  pose proof (reachable_wellLinked db Hreach) as Hwl.
  pose proof (identify_wellLinked _ _ _ _ _ Hwl Hrun) as Hwl'.
  pose proof (identify_projection _ _ _ _ _ Hwl Hrun) as Hproj.
  destruct (buildResponseForPrimary_projection _ _ _ Hwl' Hproj)
    as (P & HP & Hprim & Hid & _ & He & Hp & Hs).
  fold cluster in HP, He, Hp, Hs. fold secondaries in He, Hp, Hs.
  exists P.
  assert (HPin : In P (contacts db')).
  { unfold cluster in HP. apply linkedRows_In in HP. apply HP. }
  split; [exact HPin|]. split; [exact Hprim|]. split; [exact Hid|].
  split.
  { intros r. unfold secondaries, cluster.
    rewrite filter_In, linkedRows_In, isSecondary_true. split.
    - intros ((Hr & [E|E] & _) & Hsec); [|auto].
      exfalso. assert (r = P); [|subst; congruence].
      apply (same_id_same_row (contacts db')); auto using wl_ids.
      congruence.
    - intros (Hr & Hsec & Hl). repeat split; auto.
      now apply (wl_live _ Hwl'). }
  split; [apply filter_sortByCreatedAt|].
  split; [exact Hs|]. split; [exact He|]. split; [exact Hp|].
  rewrite He, Hp.
  repeat split; auto using listed_head, firstOccurrences_NoDup.
Qed.

Lemma C3_projection_lists_primary_first_witness :
  let a := Some "a@x.com"%string in
  let b := Some "b@x.com"%string in
  let db :=
    after 2 {| reqEmail := b; reqPhoneNumber := Some "+2"%string |}
      (after 1 {| reqEmail := a; reqPhoneNumber := Some "+1"%string |}
             emptyDatabase) in
  let request := {| reqEmail := a; reqPhoneNumber := Some "+2"%string |} in
  let response := {| primaryContactId := 1;
                     emails := ["a@x.com"%string; "b@x.com"%string];
                     phoneNumbers := ["+1"%string; "+2"%string];
                     secondaryContactIds := [2] |} in
  let db' := after 3 request db in
  let secondaries :=
    filter isSecondary (Database.linkedRows 1 (contacts db')) in
  exists primary,
    In primary (contacts db')
    /\ linkPrecedence primary = PRIMARY
    /\ id primary = 1
    /\ (forall r, In r secondaries
                  <-> In r (contacts db')
                      /\ linkPrecedence r = SECONDARY
                      /\ linkedId r = Some 1)
    /\ StronglySorted notAfter secondaries
    /\ secondaryContactIds response = map id secondaries
    /\ emails response
       = firstOccurrences (listed (email primary)
                           ++ truthyValues email secondaries)
    /\ phoneNumbers response
       = firstOccurrences (listed (phoneNumber primary)
                           ++ truthyValues phoneNumber secondaries)
    /\ (truthyStr (email primary) = true ->
        hd_error (emails response) = email primary)
    /\ (truthyStr (phoneNumber primary) = true ->
        hd_error (phoneNumbers response) = phoneNumber primary)
    /\ NoDup (emails response)
    /\ NoDup (phoneNumbers response).
Proof.
  intros a b db request response db' secondaries.
  apply (C3_projection_lists_primary_first 3 request db response db').
  - eapply reachable_after; [|reflexivity].
    eapply reachable_after; [|reflexivity].
    apply reachable_empty.
  - reflexivity.
Defined.

(* ================================================================= *)
(** ** The table under a clock that never runs backwards *)

Section OrderBasics.

Import Database.

Lemma StronglySorted_map_filter {A B : Type} (R : B -> B -> Prop)
      (g : A -> B) (f : A -> bool) (l : list A) :
  StronglySorted R (map g l) ->
  StronglySorted (fun a b => R (g a) (g b)) (filter f l).
Proof.
  induction l as [|x l IH]; simpl; intros H; [constructor|].
  inversion H as [|? ? Hl Hx]; subst. specialize (IH Hl).
  destruct (f x); [|assumption]. constructor; [assumption|].
  rewrite Forall_forall in Hx |- *. intros y Hy.
  apply filter_In in Hy. apply Hx, in_map, Hy.
Qed.

Lemma StronglySorted_app_one {A : Type} (R : A -> A -> Prop) l x :
  StronglySorted R l -> (forall y, In y l -> R y x) ->
  StronglySorted R (l ++ [x]).
Proof.
  induction 1 as [|z l Hl IH Hz]; intros Hx; simpl.
  - constructor; constructor.
  - constructor.
    + apply IH. intros y Hy. apply Hx. now right.
    + apply Forall_app. split; [assumption|].
      constructor; [|constructor]. apply Hx. now left.
Qed.

(** A selection from a table in order of createdAt needs no sorting. *)
Lemma sortByCreatedAt_filter rows (f : Contact -> bool) :
  StronglySorted Z.le (map createdAt rows) ->
  sortByCreatedAt (filter f rows) = filter f rows.
Proof.
  intros H. apply sortByCreatedAt_ordered.
  exact (StronglySorted_map_filter Z.le createdAt f rows H).
Qed.

Lemma sorted_ids_head (l : list Contact) p :
  StronglySorted (fun a b => id a < id b) l ->
  In p l -> (forall c, In c l -> c = p \/ id p < id c) ->
  exists others, l = p :: others.
Proof.
  intros Hs Hp Hleast. destruct l as [|x l]; [destruct Hp|].
  destruct Hp as [->|Hp]; [eauto|].
  exfalso. inversion Hs as [|? ? _ Hx]; subst.
  rewrite Forall_forall in Hx. specialize (Hx p Hp).
  destruct (Hleast x (or_introl eq_refl)) as [->|Hlt]; lia.
Qed.

(** In such a table the primaries of a lookup are the matched primaries,
    in the order of the lookup: a matched secondary comes after its
    primary, or its primary did not match. *)
Lemma findPrimaryContactsFrom_inOrder rows all acc ids rest :
  inOrder rows ->
  (forall c, In c all -> In c rows) ->
  (forall c, In c rest -> In c rows) ->
  StronglySorted (fun a b => id a < id b) rest ->
  (forall c, In c all -> isPrimary c = true -> In (id c) ids \/ In c rest) ->
  findPrimaryContactsFrom all acc ids rest = acc ++ filter isPrimary rest.
Proof.
  intros Hio Hall. pose proof (io_linked _ Hio) as Hwl.
  revert acc ids.
  induction rest as [|x rest IH]; intros acc ids Hrows Hsorted Hcover;
    cbn [findPrimaryContactsFrom filter].
  - now rewrite app_nil_r.
  - inversion Hsorted as [|? ? Hrest Hx]; subst.
    assert (Hrows' : forall c, In c rest -> In c rows).
    { intros c Hc. apply Hrows. now right. }
    destruct (isPrimary x) eqn:Hxp.
    + rewrite IH; [now rewrite <- app_assoc|assumption|assumption|].
      intros c Hc Hcp. cbn [In].
      destruct (Hcover c Hc Hcp) as [H|[->|H]]; auto.
    + assert (Hskip : findPrimaryContactsFrom all acc ids rest
                      = acc ++ filter isPrimary rest).
      { apply IH; [assumption|assumption|]. intros c Hc Hcp.
        destruct (Hcover c Hc Hcp) as [H|[->|H]]; auto. congruence. }
      destruct (linkedId x) as [l|] eqn:Hl; [|exact Hskip].
      destruct (truthyNum (Some l) && negb (existsb (Z.eqb l) ids)) eqn:Hcond;
        [|exact Hskip].
      destruct (find (fun c => id c =? l) all) as [c|] eqn:Hfind;
        [|exact Hskip].
      exfalso. apply find_some in Hfind. destruct Hfind as [Hc Hid].
      apply Z.eqb_eq in Hid.
      apply andb_true_iff in Hcond. destruct Hcond as [_ Hnew].
      apply negb_true_iff in Hnew.
      assert (Hxrows : In x rows) by (apply Hrows; now left).
      apply isPrimary_false in Hxp.
      destruct (wl_secondary _ Hwl x Hxrows Hxp) as (p & Hp & Hlp & Hpp).
      assert (c = p).
      { apply (same_id_same_row rows); auto using wl_ids. congruence. }
      subst c. apply isPrimary_true in Hpp.
      destruct (Hcover p Hc Hpp) as [H|[->|H]].
      * assert (existsb (Z.eqb l) ids = true); [|congruence].
        apply existsb_exists. exists (id p). split; [assumption|].
        apply Z.eqb_eq. congruence.
      * apply isPrimary_true in Hpp. congruence.
      * rewrite Forall_forall in Hx. specialize (Hx p H).
        pose proof (io_after _ Hio x l Hxrows Hl). lia.
Qed.

Lemma findPrimaryContacts_inOrder rows matches :
  inOrder rows ->
  (forall c, In c matches -> In c rows) ->
  StronglySorted (fun a b => id a < id b) matches ->
  findPrimaryContacts matches = filter isPrimary matches.
Proof.
  intros Hio Hsub Hsorted. unfold findPrimaryContacts.
  rewrite (findPrimaryContactsFrom_inOrder rows); auto.
Qed.

(** The lookup on such a table: the matching rows in table order. *)
Lemma lookup_inOrder email phoneNumber db matches :
  inOrder (contacts db) ->
  fst (findContactsByEmailOrPhone email phoneNumber db) = Resolved matches ->
  disjuncts email phoneNumber <> []
  /\ matches
     = filter (fun r => isNull (deletedAt r)
                        && existsb (fun d => holds d r)
                                   (disjuncts email phoneNumber))
              (contacts db)
  /\ StronglySorted (fun a b => id a < id b) matches
  /\ StronglySorted notAfter matches.
Proof.
  intros Hio Hfind.
  destruct (lookup_resolved _ _ _ _ (wl_normal _ (io_linked _ Hio)) Hfind)
    as [Hds ->].
  unfold matchingRows.
  rewrite sortByCreatedAt_filter by exact (io_times _ Hio).
  repeat split; auto.
  - exact (StronglySorted_map_filter Z.lt id _ _ (io_ids _ Hio)).
  - exact (StronglySorted_map_filter Z.le createdAt _ _ (io_times _ Hio)).
Qed.

End OrderBasics.

Section DuplicateRequest.

Import Database.

Lemma normal_email_truthy r e :
  rowToContact r = r -> email r = Some e -> truthyStr (Some e) = true.
Proof.
  intros Hn He. destruct (truthyStr (Some e)) eqn:E; [reflexivity|].
  apply (f_equal email) in Hn. unfold rowToContact in Hn. cbn in Hn.
  rewrite He, E in Hn. discriminate.
Qed.

Lemma normal_phoneNumber_truthy r p :
  rowToContact r = r -> phoneNumber r = Some p -> truthyStr (Some p) = true.
Proof.
  intros Hn Hp. destruct (truthyStr (Some p)) eqn:E; [reflexivity|].
  apply (f_equal phoneNumber) in Hn. unfold rowToContact in Hn. cbn in Hn.
  rewrite Hp, E in Hn. discriminate.
Qed.

Lemma disjuncts_In d email phoneNumber :
  In d (disjuncts email phoneNumber)
  <-> (exists e, d = EmailIs e /\ email = Some e
                 /\ truthyStr email = true)
      \/ (exists p, d = PhoneNumberIs p /\ phoneNumber = Some p
                    /\ truthyStr phoneNumber = true).
Proof.
  unfold disjuncts. rewrite in_app_iff.
  assert (He : In d match email with
                    | Some e => if truthyStr email then [EmailIs e] else []
                    | None => []
                    end
               <-> exists e, d = EmailIs e /\ email = Some e
                             /\ truthyStr email = true).
  { destruct email as [e|].
    - destruct (truthyStr (Some e)) eqn:E; simpl.
      + split.
        * intros [<-|[]]. eauto.
        * intros (x & -> & Hx & _). injection Hx as <-. now left.
      + split; [intros []|]. intros (x & _ & _ & Hx). discriminate.
    - split; [intros []|]. intros (x & _ & Hx & _). discriminate. }
  assert (Hp : In d match phoneNumber with
                    | Some p =>
                        if truthyStr phoneNumber then [PhoneNumberIs p] else []
                    | None => []
                    end
               <-> exists p, d = PhoneNumberIs p /\ phoneNumber = Some p
                             /\ truthyStr phoneNumber = true).
  { destruct phoneNumber as [p|].
    - destruct (truthyStr (Some p)) eqn:E; simpl.
      + split.
        * intros [<-|[]]. eauto.
        * intros (x & -> & Hx & _). injection Hx as <-. now left.
      + split; [intros []|]. intros (x & _ & _ & Hx). discriminate.
    - split; [intros []|]. intros (x & _ & Hx & _). discriminate. }
  rewrite He, Hp. reflexivity.
Qed.

(** A row matched by the lookup shares a value with whatever holds the
    requested ones, and conversely. *)
Lemma matched_shares (holder c : Contact) email phoneNumber d :
  Types.email holder = email -> Types.phoneNumber holder = phoneNumber ->
  In d (disjuncts email phoneNumber) -> holds d c = true ->
  shares holder c.
Proof.
  intros He Hp Hd Hh. apply disjuncts_In in Hd.
  destruct Hd as [(e & -> & E & _)|(p & -> & E & _)]; simpl in Hh;
    apply strictEq_eq in Hh.
  - left. exists e. split; congruence.
  - right. exists p. split; congruence.
Qed.

Lemma shares_matched (holder c : Contact) email phoneNumber :
  Types.email holder = stored email ->
  Types.phoneNumber holder = stored phoneNumber ->
  shares holder c ->
  existsb (fun d => holds d c) (disjuncts email phoneNumber) = true.
Proof.
  intros He Hp Hs. apply existsb_exists.
  assert (Hst : forall v s, stored v = Some s ->
                            v = Some s /\ truthyStr v = true).
  { intros v s. unfold stored. destruct (truthyStr v); [auto|discriminate]. }
  destruct Hs as [(e & E1 & E2)|(p & E1 & E2)].
  - rewrite He in E1. apply Hst in E1. destruct E1 as [E1 Ht].
    exists (EmailIs e). split.
    + apply disjuncts_In. left. eauto.
    + simpl. now apply strictEq_eq.
  - rewrite Hp in E1. apply Hst in E1. destruct E1 as [E1 Ht].
    exists (PhoneNumberIs p). split.
    + apply disjuncts_In. right. eauto.
    + simpl. now apply strictEq_eq.
Qed.

Lemma buildResponseForPrimary_resolves i db primary :
  wellLinked (contacts db) ->
  In primary (contacts db) -> linkPrecedence primary = PRIMARY ->
  id primary = i ->
  exists response,
    fst (buildResponseForPrimary i db) = Resolved response
    /\ primaryContactId response = i.
Proof.
  intros Hwl Hin Hprim Hid.
  destruct (fst (buildResponseForPrimary i db)) as [response|e] eqn:E.
  - exists response. split; [reflexivity|].
    destruct (buildResponseForPrimary_projection i db response Hwl E)
      as (P & _ & _ & _ & H & _).
    exact H.
  - exfalso. unfold buildResponseForPrimary, await in E.
    cbn [findAllLinkedContacts] in E.
    unfold linkedRows in E at 1.
    rewrite selected_rows in E by exact (wl_normal _ Hwl).
    fold (linkedRows i (contacts db)) in E.
    destruct (find isPrimary (linkedRows i (contacts db))) eqn:Hfind;
      [discriminate|].
    assert (Hc : In primary (linkedRows i (contacts db))).
    { apply linkedRows_In. repeat split; auto. now apply (wl_live _ Hwl). }
    pose proof (find_none _ _ Hfind primary Hc) as Hno.
    apply isPrimary_true in Hprim. congruence.
Qed.

(** In a table in order, a request repeating a primary's own values finds
    that primary alone and reads its cluster; nothing is written. *)
Lemma duplicate_request_inOrder now db primary :
  inOrder (contacts db) ->
  In primary (contacts db) -> linkPrecedence primary = PRIMARY ->
  exists response,
    identify now {| reqEmail := email primary;
                    reqPhoneNumber := phoneNumber primary |} db
    = (Resolved response,
       logCall CallFindAllLinkedContacts
               (logCall CallFindContactsByEmailOrPhone db))
    /\ primaryContactId response = id primary.
Proof.
  intros Hio Hin Hprim. pose proof (io_linked _ Hio) as Hwl.
  set (request := {| reqEmail := email primary;
                     reqPhoneNumber := phoneNumber primary |}).
  pose proof (wl_normal _ Hwl primary Hin) as Hnorm.
  (* the lookup resolves *)
  assert (Hds : exists d, In d (disjuncts (email primary)
                                          (phoneNumber primary))
                          /\ holds d primary = true).
  { destruct (io_valued _ Hio primary Hin) as [H|H].
    - destruct (email primary) as [e|] eqn:E; [|congruence].
      exists (EmailIs e). split; [|simpl; rewrite E; apply strictEq_refl].
      apply disjuncts_In. left. exists e. repeat split.
      now apply (normal_email_truthy primary e).
    - destruct (phoneNumber primary) as [p|] eqn:E; [|congruence].
      exists (PhoneNumberIs p).
      split; [|simpl; rewrite E; apply strictEq_refl].
      apply disjuncts_In. right. exists p. repeat split.
      now apply (normal_phoneNumber_truthy primary p). }
  destruct Hds as (d0 & Hd0 & Hholds0).
  assert (Hlook : exists matches,
             fst (findContactsByEmailOrPhone (email primary)
                                             (phoneNumber primary) db)
             = Resolved matches).
  { unfold findContactsByEmailOrPhone.
    destruct (disjuncts (email primary) (phoneNumber primary));
      [destruct Hd0|]. eexists. reflexivity. }
  destruct Hlook as (matches & Hlook).
  destruct (lookup_inOrder _ _ _ _ Hio Hlook)
    as (_ & Hmatches & Hsorted & _).
  assert (Hsub : forall c, In c matches -> In c (contacts db)).
  { intros c Hc. rewrite Hmatches in Hc. apply filter_In in Hc. apply Hc. }
  (* the primary is matched, before every other match *)
  assert (HPm : In primary matches).
  { rewrite Hmatches. apply filter_In. split; [assumption|].
    rewrite (wl_live _ Hwl primary Hin). simpl.
    apply existsb_exists. eauto. }
  assert (Hcluster : forall c, In c matches ->
                               c = primary \/ linkedId c = Some (id primary)).
  { intros c Hc. apply (io_shared _ Hio); auto.
    rewrite Hmatches in Hc. apply filter_In in Hc. destruct Hc as [_ Hc].
    apply andb_true_iff in Hc. destruct Hc as [_ Hc].
    apply existsb_exists in Hc. destruct Hc as (d & Hd & Hh).
    now apply (matched_shares primary c (email primary)
                              (phoneNumber primary) d). }
  destruct (sorted_ids_head matches primary Hsorted HPm) as (others & E).
  { intros c Hc. destruct (Hcluster c Hc) as [->|Hl]; [now left|right].
    apply (io_after _ Hio c); auto. }
  (* so it is the one primary found *)
  assert (Hfound : findPrimaryContacts matches = [primary]).
  { rewrite (findPrimaryContacts_inOrder (contacts db)); auto.
    rewrite E. cbn [filter].
    apply isPrimary_true in Hprim. rewrite Hprim. f_equal.
    apply filter_none. intros c Hc.
    destruct (Hcluster c) as [->|Hl]; [rewrite E; now right| |].
    - exfalso. rewrite E in Hsorted.
      inversion Hsorted as [|? ? _ Hx]; subst.
      rewrite Forall_forall in Hx. specialize (Hx primary Hc). lia.
    - destruct (isPrimary c) eqn:Hcp; [|reflexivity].
      apply isPrimary_true in Hcp.
      assert (Hcin : In c (contacts db)) by (apply Hsub; rewrite E; now right).
      rewrite (wl_primary _ Hwl c Hcin Hcp) in Hl. discriminate. }
  rewrite (identify_single_primary now request db matches primary Hlook Hfound).
  assert (Hno : needsSecondaryContact primary (reqEmail request)
                                      (reqPhoneNumber request) = false).
  { destruct (needsSecondaryContact primary _ _) eqn:Hn; [|reflexivity].
    apply needsSecondaryContact_iff in Hn. simpl in Hn.
    destruct Hn as [[_ Hn]|[_ Hn]]; congruence. }
  rewrite Hno. unfold await at 1. unfold resolve.
  destruct (buildResponseForPrimary_resolves
              (id primary) (logCall CallFindContactsByEmailOrPhone db)
              primary Hwl Hin Hprim eq_refl) as (response & Hres & Hid).
  exists response. split; [|exact Hid].
  pose proof (buildResponseForPrimary_database
                (id primary) (logCall CallFindContactsByEmailOrPhone db))
    as Hdb.
  destruct (buildResponseForPrimary _ _) as [res db2]. simpl in *.
  now subst.
Qed.

End DuplicateRequest.

Section OrderPreserved.

Import Database.

Lemma shares_sym a b : shares a b -> shares b a.
Proof.
  intros [(e & H1 & H2)|(p & H1 & H2)]; [left|right]; eauto.
Qed.

Lemma shares_sameValues a b b' : sameValues b b' -> shares a b' -> shares a b.
Proof.
  intros (_ & He & Hp & _) [(e & H1 & H2)|(p & H1 & H2)]; [left|right].
  - exists e. split; congruence.
  - exists p. split; congruence.
Qed.

(** One round of the loop on a table in order, converting a primary
    younger than the oldest. *)
Lemma demote_inOrder now x o rows oldest :
  inOrder rows ->
  In oldest rows -> linkPrecedence oldest = PRIMARY -> id oldest = o ->
  o < x ->
  (forall r, In r rows -> id r = x -> linkPrecedence r = PRIMARY) ->
  inOrder (demote now x o rows).
Proof.
  intros Hio Hin Hprim Hid Hox Hx. pose proof (io_linked _ Hio) as Hwl.
  assert (Hneq : x <> o) by lia.
  destruct (demote_wellLinked now x o rows oldest Hwl Hin Hprim Hid Hneq)
    as [Hwl' Hin'].
  constructor.
  - exact Hwl'.
  - rewrite demote_ids. apply (io_ids _ Hio).
  - rewrite demote_createdAt. apply (io_times _ Hio).
  - intros r' l Hr' Hl. apply demote_In in Hr'.
    destruct Hr'
      as (r & Hr & (Eid & _) & _
          & [(E1 & _ & E2)|[(_ & E1 & _ & E2)|(_ & _ & ->)]]).
    + rewrite Eid. assert (l = o) by congruence. lia.
    + rewrite Eid. assert (l = o) by congruence.
      pose proof (io_after _ Hio r x Hr E1). lia.
    + now apply (io_after _ Hio r).
  - intros p' c' Hp' Hc' Hpp Hsh.
    assert (Hp : In p' rows /\ id p' <> x).
    { apply demote_In in Hp'.
      destruct Hp'
        as (r & Hr & _ & _ & [(_ & E & _)|[(_ & Hl & E & _)|(Hne & _ & ->)]]).
      - congruence.
      - rewrite Hpp in E. symmetry in E.
        rewrite (wl_primary _ Hwl r Hr E) in Hl. discriminate.
      - auto. }
    destruct Hp as [Hp Hpx].
    pose proof Hc' as Hc. apply demote_In in Hc.
    destruct Hc as (c & Hc & Hsame & _ & Hcase).
    pose proof (shares_sameValues p' c c' Hsame Hsh) as Hsh0.
    destruct (io_shared _ Hio p' c Hp Hc Hpp Hsh0) as [->|Hl].
    + left. apply (same_id_same_row (demote now x o rows));
        auto using wl_ids. apply Hsame.
    + right.
      destruct Hcase as [(E1 & _)|[(_ & E1 & _)|(_ & _ & ->)]].
      * rewrite (wl_primary _ Hwl c Hc (Hx c Hc E1)) in Hl. discriminate.
      * congruence.
      * assumption.
  - intros r' Hr'. apply demote_In in Hr'.
    destruct Hr' as (r & Hr & (_ & He & Hp & _) & _). rewrite He, Hp.
    now apply (io_valued _ Hio).
Qed.

Lemma demoteAll_inOrder now toMerge o rows oldest :
  inOrder rows ->
  In oldest rows -> linkPrecedence oldest = PRIMARY -> id oldest = o ->
  (forall c, In c toMerge -> o < id c) ->
  NoDup (map id toMerge) ->
  (forall c r, In c toMerge -> In r rows -> id r = id c ->
               linkPrecedence r = PRIMARY) ->
  inOrder (demoteAll now toMerge o rows).
Proof.
  unfold demoteAll. revert rows.
  induction toMerge as [|x rest IH];
    intros rows Hio Hin Hprim Hid Hyounger Hnd Hprims; simpl;
    [assumption|].
  inversion Hnd as [|? ? Hnotin Hnd']; subst.
  assert (Hox : id oldest < id x) by (apply Hyounger; now left).
  assert (Hneq : id x <> id oldest) by lia.
  destruct (demote_wellLinked now (id x) (id oldest) rows oldest
                              (io_linked _ Hio) Hin Hprim eq_refl Hneq)
    as [_ Hin'].
  apply IH; auto.
  - apply (demote_inOrder now (id x) (id oldest) rows oldest); auto.
    intros r Hr E. apply (Hprims x r); auto. now left.
  - intros c Hc. apply Hyounger. now right.
  - intros c r' Hc Hr' E. apply demote_In in Hr'.
    destruct Hr' as (r & Hr & (Eid & _) & _ & Hcase).
    assert (Hrp : linkPrecedence r = PRIMARY).
    { apply (Hprims c r); [now right|assumption|congruence]. }
    destruct Hcase as [(E1 & _)|[(_ & E1 & _)|(_ & _ & ->)]].
    + exfalso. apply Hnotin. rewrite <- E1, <- Eid, E. now apply in_map.
    + rewrite (wl_primary _ (io_linked _ Hio) r Hr Hrp) in E1. discriminate.
    + assumption.
Qed.

(** A row appended to a table in order. *)
Lemma inOrder_insert rows row :
  inOrder rows ->
  wellLinked (rows ++ [row]) ->
  (forall r, In r rows -> id r < id row) ->
  (forall r, In r rows -> createdAt r <= createdAt row) ->
  (forall l, linkedId row = Some l -> l < id row) ->
  (forall p, In p rows -> linkPrecedence p = PRIMARY -> shares p row ->
             linkedId row = Some (id p)) ->
  (linkPrecedence row = PRIMARY ->
   forall c, In c rows -> ~ shares row c) ->
  (email row <> None \/ phoneNumber row <> None) ->
  inOrder (rows ++ [row]).
Proof.
  intros Hio Hwl Hid Htime Hlink Hshared Hnew Hvalued. constructor.
  - exact Hwl.
  - rewrite map_app. apply StronglySorted_app_one; [apply (io_ids _ Hio)|].
    intros y Hy. apply in_map_iff in Hy. destruct Hy as (r & <- & Hr).
    now apply Hid.
  - rewrite map_app. apply StronglySorted_app_one; [apply (io_times _ Hio)|].
    intros y Hy. apply in_map_iff in Hy. destruct Hy as (r & <- & Hr).
    now apply Htime.
  - intros r l Hr Hl. apply in_app_or in Hr. destruct Hr as [Hr|[<-|[]]].
    + now apply (io_after _ Hio r).
    + now apply Hlink.
  - intros p c Hp Hc Hpp Hsh.
    apply in_app_or in Hp. apply in_app_or in Hc.
    destruct Hp as [Hp|[<-|[]]], Hc as [Hc|[<-|[]]].
    + now apply (io_shared _ Hio).
    + right. now apply Hshared.
    + exfalso. now apply (Hnew Hpp c Hc).
    + now left.
  - intros r Hr. apply in_app_or in Hr. destruct Hr as [Hr|[<-|[]]].
    + now apply (io_valued _ Hio).
    + exact Hvalued.
Qed.

Lemma disjuncts_stored_valued email phoneNumber :
  disjuncts email phoneNumber <> [] ->
  stored email <> None \/ stored phoneNumber <> None.
Proof.
  intros H. unfold stored.
  destruct (truthyStr email) eqn:He.
  - left. destruct email; [discriminate|discriminate He].
  - destruct (truthyStr phoneNumber) eqn:Hp.
    + right. destruct phoneNumber; [discriminate|discriminate Hp].
    + exfalso. apply H. now apply disjuncts_falsy.
Qed.

(** A primary sharing a value with the row a request inserts was matched
    by the request's lookup. *)
Lemma sharing_primary_matched rows row email phoneNumber p :
  wellLinked rows ->
  Types.email row = stored email ->
  Types.phoneNumber row = stored phoneNumber ->
  In p rows -> shares row p ->
  In p (filter (fun r => isNull (deletedAt r)
                         && existsb (fun d => holds d r)
                                    (disjuncts email phoneNumber))
               rows).
Proof.
  intros Hwl He Hp Hin Hsh. apply filter_In. split; [assumption|].
  rewrite (wl_live _ Hwl p Hin). simpl.
  now apply (shares_matched row p).
Qed.

Lemma StronglySorted_ids_NoDup (l : list Contact) :
  StronglySorted (fun a b => id a < id b) l -> NoDup (map id l).
Proof.
  induction 1 as [|x l Hl IH Hx]; simpl; constructor; [|assumption].
  intros Hin. apply in_map_iff in Hin. destruct Hin as (y & E & Hy).
  rewrite Forall_forall in Hx. specialize (Hx y Hy). lia.
Qed.

Lemma identify_inOrder now request db response db' :
  inOrder (contacts db) ->
  clockAhead now db ->
  identify now request db = (Resolved response, db') ->
  inOrder (contacts db').
Proof.
  intros Hio Hclock Hrun. pose proof (io_linked _ Hio) as Hwl.
  pose proof (identify_wellLinked _ _ _ _ _ Hwl Hrun) as Hwl'.
  set (email := reqEmail request) in *.
  set (phoneNumber := reqPhoneNumber request) in *.
  unfold clockAhead in Hclock. rewrite Forall_forall in Hclock.
  unfold identify in Hrun. fold email phoneNumber in Hrun.
  unfold await at 1 in Hrun.
  pose proof (lookup_database email phoneNumber db) as Hdb.
  pose proof (lookup_inOrder email phoneNumber db) as Hlook.
  destruct (findContactsByEmailOrPhone email phoneNumber db)
    as [[matches|e] db1]; [|discriminate].
  simpl in Hdb. subst db1.
  destruct (Hlook matches Hio eq_refl) as (Hds & Hmatches & Hsorted & Htimes).
  clear Hlook.
  assert (Hsub : forall c, In c matches -> In c (contacts db)).
  { intros c Hc. rewrite Hmatches in Hc. apply filter_In in Hc. apply Hc. }
  assert (Hfound : findPrimaryContacts matches = filter isPrimary matches).
  { now apply (findPrimaryContacts_inOrder (contacts db)). }
  (* what appending the request's row as a secondary of [o] needs *)
  assert (Hvalued : stored email <> None \/ stored phoneNumber <> None)
    by now apply disjuncts_stored_valued.
  destruct matches as [|m matches].
  - (* create *)
    rewrite createNewPrimaryContact_resolves in Hrun.
    injection Hrun as _ <-. cbn [contacts logCall] in Hwl' |- *.
    apply inOrder_insert; [exact Hio|exact Hwl'| | | | | |exact Hvalued].
    + intros r Hr.
      now apply (id_below_nextRowid
                   (logCall CallFindContactsByEmailOrPhone db)).
    + intros r Hr. cbn. now apply Hclock.
    + discriminate.
    + intros p Hp _ Hsh. exfalso.
      match type of Hsh with shares _ ?row =>
        pose proof (sharing_primary_matched
                      (contacts db) row email phoneNumber p Hwl
                      eq_refl eq_refl Hp (shares_sym _ _ Hsh)) as Hin end.
      rewrite <- Hmatches in Hin. destruct Hin.
    + intros _ c Hc Hsh.
      match type of Hsh with shares ?row _ =>
        pose proof (sharing_primary_matched
                      (contacts db) row email phoneNumber c Hwl
                      eq_refl eq_refl Hc Hsh) as Hin end.
      rewrite <- Hmatches in Hin. destruct Hin.
  - rewrite Hfound in Hrun.
    assert (Hps : forall c, In c (filter isPrimary (m :: matches)) ->
                            In c (contacts db) /\ linkPrecedence c = PRIMARY).
    { intros c Hc. apply filter_In in Hc. destruct Hc as [Hc Hcp].
      split; [now apply Hsub|now apply isPrimary_true]. }
    assert (Hpsorted : StronglySorted (fun a b => id a < id b)
                                      (filter isPrimary (m :: matches))).
    { clear -Hsorted. induction Hsorted as [|x l Hl IH Hx]; simpl;
        [constructor|].
      destruct (isPrimary x); [|assumption]. constructor; [assumption|].
      rewrite Forall_forall in Hx |- *. intros y Hy.
      apply filter_In in Hy. apply Hx, Hy. }
    assert (Hptimes : StronglySorted notAfter
                                     (filter isPrimary (m :: matches))).
    { clear -Htimes. induction Htimes as [|x l Hl IH Hx]; simpl;
        [constructor|].
      destruct (isPrimary x); [|assumption]. constructor; [assumption|].
      rewrite Forall_forall in Hx |- *. intros y Hy.
      apply filter_In in Hy. apply Hx, Hy. }
    (* a primary sharing a value with the request's row is a found one *)
    assert (Hsharing : forall row p,
               Types.email row = stored email ->
               Types.phoneNumber row = stored phoneNumber ->
               In p (contacts db) -> linkPrecedence p = PRIMARY ->
               shares p row ->
               In p (filter isPrimary (m :: matches))).
    { intros row p He Hp Hin Hpp Hsh. apply filter_In.
      split; [|now apply isPrimary_true].
      rewrite Hmatches.
      apply (sharing_primary_matched (contacts db) row); auto.
      now apply shares_sym. }
    destruct (filter isPrimary (m :: matches)) as [|P [|Q ps]] eqn:Hfilter.
    + unfold mergePrimaryContacts in Hrun. discriminate.
    + (* attach *)
      destruct (Hps P (or_introl eq_refl)) as [HP HPp].
      assert (HPid : id P <> 0).
      { pose proof (wl_positive _ Hwl P HP). lia. }
      unfold await at 1 in Hrun.
      pose proof (buildResponseForPrimary_database (id P)) as Hbuild.
      destruct (needsSecondaryContact P email phoneNumber).
      * unfold await at 1 in Hrun.
        rewrite createSecondaryContact_resolves in Hrun by assumption.
        unfold resolve in Hrun.
        match type of Hrun with buildResponseForPrimary _ ?d = _ =>
          specialize (Hbuild d) end.
        rewrite Hrun in Hbuild. simpl in Hbuild. subst db'.
        cbn [contacts logCall] in Hwl' |- *.
        apply inOrder_insert; [exact Hio|exact Hwl'| | | | | |exact Hvalued].
        -- intros r Hr.
           now apply (id_below_nextRowid
                        (logCall CallFindContactsByEmailOrPhone db)).
        -- intros r Hr. cbn. now apply Hclock.
        -- cbn. intros l E. injection E as <-.
           now apply (id_below_nextRowid
                        (logCall CallFindContactsByEmailOrPhone db)).
        -- intros p Hp Hpp Hsh.
           match type of Hsh with shares _ ?row =>
             destruct (Hsharing row p eq_refl eq_refl Hp Hpp Hsh)
               as [<-|[]] end.
           reflexivity.
        -- discriminate.
      * unfold resolve in Hrun.
        specialize (Hbuild (logCall CallFindContactsByEmailOrPhone db)).
        rewrite Hrun in Hbuild. simpl in Hbuild. now subst db'.
    + (* merge *)
      set (primaries := P :: Q :: ps) in *.
      assert (Hsortedps : sortByCreatedAt primaries = primaries)
        by now apply sortByCreatedAt_ordered.
      assert (Hold : oldestPrimary primaries = Some P).
      { unfold oldestPrimary. now rewrite Hsortedps. }
      assert (Htail : contactsToMerge primaries = Q :: ps).
      { unfold contactsToMerge. now rewrite Hsortedps. }
      rewrite (mergePrimaryContacts_run _ _ _ _ _ _ Hold) in Hrun.
      rewrite Htail in Hrun. cbv zeta in Hrun.
      rewrite convertToSecondaries_run in Hrun.
      cbn [snd logCall contacts sqliteSequence calls] in Hrun.
      destruct (Hps P (or_introl eq_refl)) as [HP HPp].
      assert (HPid : id P <> 0).
      { pose proof (wl_positive _ Hwl P HP). lia. }
      set (rows1 := demoteAll now (Q :: ps) (id P) (contacts db)) in *.
      assert (Hio1 : inOrder rows1).
      { apply (demoteAll_inOrder now (Q :: ps) (id P) (contacts db) P);
          auto.
        - intros c Hc. inversion Hpsorted as [|? ? _ Hx]; subst.
          rewrite Forall_forall in Hx. now apply Hx.
        - inversion Hpsorted as [|? ? Hrest _]; subst.
          now apply StronglySorted_ids_NoDup.
        - intros c r Hc Hr E.
          destruct (Hps c (or_intror Hc)) as [Hcin Hcp].
          assert (r = c); [|now subst].
          apply (same_id_same_row (contacts db)); auto using wl_ids. }
      pose proof (buildResponseForPrimary_database (id P)) as Hbuild.
      match type of Hrun with buildResponseForPrimary _ ?d = _ =>
        specialize (Hbuild d) end.
      rewrite Hrun in Hbuild. cbn [snd] in Hbuild.
      destruct (hasNewInformation _ email phoneNumber).
      * rewrite createSecondaryContact_resolves in Hbuild by assumption.
        cbn [snd logCall contacts] in Hbuild. subst db'.
        unfold logCall at 1. unfold logCall at 1 in Hwl'.
        cbn [contacts] in Hwl' |- *.
        match goal with |- inOrder (_ ++ [insertedRow _ _ ?d]) =>
          set (db1 := d) in * end.
        assert (Hfresh : forall r, In r rows1 ->
                                   id r < Database.nextRowid db1).
        { intros r Hr. now apply (id_below_nextRowid db1). }
        apply inOrder_insert;
          [exact Hio1|exact Hwl'|exact Hfresh| | | | |exact Hvalued].
        -- intros r Hr. cbn.
           assert (Hc : In (createdAt r) (map createdAt rows1))
             by now apply in_map.
           unfold rows1 in Hc. rewrite demoteAll_createdAt in Hc.
           apply in_map_iff in Hc. destruct Hc as (r0 & <- & Hr0).
           now apply Hclock.
        -- cbn. intros l E. injection E as <-.
           assert (Hc : In (id P) (map id rows1)).
           { unfold rows1. rewrite demoteAll_ids. now apply in_map. }
           apply in_map_iff in Hc. destruct Hc as (r0 & <- & Hr0).
           now apply Hfresh.
        -- intros p Hp Hpp Hsh.
           assert (Hp0 : In p (contacts db)).
           { apply (demoteAll_primary_In now (Q :: ps) (id P)); auto.
             exact (wl_primary _ Hwl). }
           match type of Hsh with shares _ ?row =>
             destruct (Hsharing row p eq_refl eq_refl Hp0 Hpp Hsh)
               as [<-|Htl]; [reflexivity|] end.
           exfalso. change (In p (Q :: ps)) in Htl.
           apply (demoteAll_self_noPrimaryAt
                    now (Q :: ps) (id P) (id p) (contacts db)
                    (wl_primary _ Hwl) (in_map id _ _ Htl) p Hp Hpp).
           reflexivity.
        -- discriminate.
      * cbn [logCall contacts] in Hbuild. now subst db'.
Qed.

Lemma inOrder_empty : inOrder [].
Proof.
  constructor.
  - apply wellLinked_empty.
  - constructor.
  - constructor.
  - intros r l [].
  - intros p c [].
  - intros r [].
Qed.

Lemma reachableInOrder_inOrder db :
  reachableInOrder db -> inOrder (contacts db).
Proof.
  induction 1 as [|db now request response db' _ IH Hclock Hrun].
  - apply inOrder_empty.
  - eapply identify_inOrder; eauto.
Qed.

Lemma reachableInOrder_after now request db response :
  reachableInOrder db -> clockAhead now db ->
  fst (identify now request db) = Resolved response ->
  reachableInOrder (after now request db).
Proof.
  intros Hreach Hclock Hres. unfold after.
  destruct (identify now request db) as [res db'] eqn:E. simpl in *.
  subst res. eapply ordered_identify; eauto.
Qed.

End OrderPreserved.

(** C4. On a database reached from the empty one by resolved requests
    under a clock that never ran backwards, the request repeating the
    email and the phone number of a PRIMARY contact resolves with that
    contact's id as primaryContactId, inserts no row and leaves every row
    and the rowid counter as they were: after the lookup the only storage
    call is the read of the cluster. *)
Theorem C4_repeating_a_primary_changes_nothing :
  forall now db primary,
    reachableInOrder db ->
    In primary (contacts db) ->
    linkPrecedence primary = PRIMARY ->
    let request := {| reqEmail := email primary;
                      reqPhoneNumber := phoneNumber primary |} in
    (exists response,
        fst (identify now request db) = Resolved response
        /\ primaryContactId response = id primary)
    /\ contacts (after now request db) = contacts db
    /\ sqliteSequence (after now request db) = sqliteSequence db
    /\ calls (after now request db)
       = calls db ++ [CallFindContactsByEmailOrPhone;
                      CallFindAllLinkedContacts].
Proof.
  intros now db primary Hreach Hin Hprim request.
  pose proof (reachableInOrder_inOrder db Hreach) as Hio.
  destruct (duplicate_request_inOrder now db primary Hio Hin Hprim)
    as (response & Hrun & Hid).
  fold request in Hrun. unfold after. rewrite Hrun. cbn.
  split; [eauto|]. repeat split. now rewrite <- app_assoc.
Qed.

Lemma C4_repeating_a_primary_changes_nothing_witness :
  let a := Some "a@x.com"%string in
  let db :=
    after 2 {| reqEmail := a; reqPhoneNumber := Some "+2"%string |}
      (after 1 {| reqEmail := a; reqPhoneNumber := Some "+1"%string |}
             emptyDatabase) in
  let request := {| reqEmail := a; reqPhoneNumber := Some "+1"%string |} in
  (exists response,
      fst (identify 2 request db) = Resolved response
      /\ primaryContactId response = 1)
  /\ contacts (after 2 request db) = contacts db
  /\ sqliteSequence (after 2 request db) = sqliteSequence db
  /\ calls (after 2 request db)
     = calls db ++ [CallFindContactsByEmailOrPhone;
                    CallFindAllLinkedContacts].
Proof.
  intros a db request.
  apply (C4_repeating_a_primary_changes_nothing
           2 db {| id := 1; phoneNumber := Some "+1"%string; email := a;
                   linkedId := None; linkPrecedence := PRIMARY;
                   createdAt := 1; updatedAt := 1; deletedAt := None |}).
  - eapply reachableInOrder_after;
      [|repeat constructor; simpl; lia|reflexivity].
    eapply reachableInOrder_after; [|constructor|reflexivity].
    apply ordered_empty.
  - simpl. left. reflexivity.
  - reflexivity.
Defined.

(* ================================================================= *)
(** ** The storage class: what its queries and updates deliver *)

Section StorageQueries.

Import Database.

Lemma insertByCreatedAt_perm x l : Permutation (insertByCreatedAt x l) (x :: l).
Proof.
  induction l as [|y l IH]; simpl; [reflexivity|].
  destruct (createdAt x <=? createdAt y); [reflexivity|].
  rewrite IH. apply perm_swap.
Qed.

Lemma sortByCreatedAt_perm l : Permutation (sortByCreatedAt l) l.
Proof.
  induction l as [|x l IH]; simpl; [reflexivity|].
  rewrite insertByCreatedAt_perm. now constructor.
Qed.

Lemma rowToContact_sorted l :
  StronglySorted notAfter l -> StronglySorted notAfter (map rowToContact l).
Proof.
  induction 1 as [|x l Hl IH Hx]; simpl; constructor; [assumption|].
  rewrite Forall_forall in Hx |- *. intros y Hy.
  apply in_map_iff in Hy. destruct Hy as (r & <- & Hr). exact (Hx r Hr).
Qed.

Lemma NoDup_ids_filter (f : Contact -> bool) l :
  NoDup (map id l) -> NoDup (map id (filter f l)).
Proof.
  induction l as [|x l IH]; simpl; intros H; [constructor|].
  inversion H as [|? ? Hx Hl]; subst. destruct (f x); simpl; auto.
  constructor; auto. intros Hin. apply Hx.
  apply in_map_iff in Hin. destruct Hin as (r & E & Hr).
  apply filter_In in Hr. rewrite <- E. apply in_map, Hr.
Qed.

(** Rows a query selects, sorts and converts: one contact per selected
    row, in ascending order of createdAt. *)
Lemma selected_contacts (f : Contact -> bool) rows :
  let result := map rowToContact (sortByCreatedAt (filter f rows)) in
  (forall c, In c result
             <-> exists r, In r rows /\ f r = true /\ c = rowToContact r)
  /\ StronglySorted notAfter result
  /\ (NoDup (map id rows) -> NoDup (map id result)).
Proof.
  cbv zeta. split; [|split].
  - intros c. rewrite in_map_iff. split.
    + intros (r & <- & Hr). apply sortByCreatedAt_In, filter_In in Hr.
      exists r. tauto.
    + intros (r & Hr & Hf & ->). exists r. split; [reflexivity|].
      apply sortByCreatedAt_In, filter_In. auto.
  - apply rowToContact_sorted, sortByCreatedAt_sorted.
  - intros Hnd. rewrite map_map.
    assert (E : map (fun x => id (rowToContact x))
                    (sortByCreatedAt (filter f rows))
                = map id (sortByCreatedAt (filter f rows)))
      by (apply map_ext; reflexivity).
    rewrite E.
    apply (Permutation_NoDup
             (l := map id (filter f rows))).
    + apply Permutation_map. symmetry. apply sortByCreatedAt_perm.
    + now apply NoDup_ids_filter.
Qed.

Lemma isNull_true {A : Type} (x : option A) : isNull x = true <-> x = None.
Proof. destruct x; simpl; split; congruence. Qed.

Lemma matched_iff email phoneNumber r :
  existsb (fun d => holds d r) (disjuncts email phoneNumber) = true
  <-> (truthyStr email = true /\ Types.email r = email)
      \/ (truthyStr phoneNumber = true /\ Types.phoneNumber r = phoneNumber).
Proof.
  rewrite existsb_exists. split.
  - intros (d & Hd & Hh). apply disjuncts_In in Hd.
    destruct Hd as [(e & -> & E & Ht)|(p & -> & E & Ht)]; simpl in Hh;
      apply strictEq_eq in Hh; [left|right]; split; congruence.
  - intros [[Ht E]|[Ht E]].
    + destruct email as [e|]; [|discriminate].
      exists (EmailIs e). split; [apply disjuncts_In; left; eauto|].
      simpl. now apply strictEq_eq.
    + destruct phoneNumber as [p|]; [|discriminate].
      exists (PhoneNumberIs p). split; [apply disjuncts_In; right; eauto|].
      simpl. now apply strictEq_eq.
Qed.

End StorageQueries.

(** X1. When [findContactsByEmailOrPhone] resolves, it delivers exactly
    the rows that are not deleted and whose email equals the given email
    or whose phone number equals the given phone number (a falsy argument
    matches nothing), each converted by [rowToContact], in ascending order
    of createdAt; rows with distinct ids give contacts with distinct ids.
    The table is not touched. *)
Theorem X1_lookup_delivers_the_live_matches :
  forall email phoneNumber db matches,
    fst (Database.findContactsByEmailOrPhone email phoneNumber db)
    = Resolved matches ->
    (forall c,
        In c matches
        <-> exists r,
            In r (contacts db)
            /\ deletedAt r = None
            /\ ((truthyStr email = true /\ Types.email r = email)
                \/ (truthyStr phoneNumber = true
                    /\ Types.phoneNumber r = phoneNumber))
            /\ c = Database.rowToContact r)
    /\ StronglySorted notAfter matches
    /\ (NoDup (map id (contacts db)) -> NoDup (map id matches))
    /\ contacts (snd (Database.findContactsByEmailOrPhone
                        email phoneNumber db)) = contacts db.
Proof.
  intros email phoneNumber db matches H.
  rewrite lookup_database. unfold Database.findContactsByEmailOrPhone in H.
  destruct (Database.disjuncts email phoneNumber) as [|d ds] eqn:E;
    [discriminate|].
  cbn [fst] in H. injection H as <-. rewrite <- E.
  unfold Database.matchingRows.
  destruct (selected_contacts
              (fun r => Database.isNull (deletedAt r)
                        && existsb (fun d0 => Database.holds d0 r)
                                   (Database.disjuncts email phoneNumber))
              (contacts db)) as (Hin & Hsorted & Hnd).
  repeat split; auto.
  - intros Hc. apply Hin in Hc. destruct Hc as (r & Hr & Hf & ->).
    apply andb_true_iff in Hf. destruct Hf as [Hl Hm].
    apply isNull_true in Hl. apply matched_iff in Hm. eauto 6.
  - intros (r & Hr & Hl & Hm & ->). apply Hin. exists r.
    repeat split; auto. apply andb_true_iff. split.
    + now apply isNull_true.
    + now apply matched_iff.
Qed.

Lemma X1_lookup_delivers_the_live_matches_witness :
  let a := Some "a@x.com"%string in
  let db := after 2 {| reqEmail := a; reqPhoneNumber := Some "+2"%string |}
              (after 1 {| reqEmail := a; reqPhoneNumber := Some "+1"%string |}
                     emptyDatabase) in
  let matches := contacts db in
  (forall c,
      In c matches
      <-> exists r,
          In r (contacts db)
          /\ deletedAt r = None
          /\ ((truthyStr a = true /\ Types.email r = a)
              \/ (truthyStr None = true /\ Types.phoneNumber r = None))
          /\ c = Database.rowToContact r)
  /\ StronglySorted notAfter matches
  /\ (NoDup (map id (contacts db)) -> NoDup (map id matches))
  /\ contacts (snd (Database.findContactsByEmailOrPhone a None db))
     = contacts db.
Proof.
  intros a db matches.
  apply (X1_lookup_delivers_the_live_matches a None db matches).
  reflexivity.
Defined.

(** X2. [findAllLinkedContacts] always resolves, with exactly the rows
    that are not deleted and whose id or linkedId is the given id, each
    converted by [rowToContact], in ascending order of createdAt; it
    changes no row. *)
Theorem X2_cluster_read_delivers_the_linked_rows :
  forall i db,
  exists cluster,
    fst (Database.findAllLinkedContacts i db) = Resolved cluster
    /\ (forall c,
           In c cluster
           <-> exists r,
               In r (contacts db)
               /\ deletedAt r = None
               /\ (id r = i \/ linkedId r = Some i)
               /\ c = Database.rowToContact r)
    /\ StronglySorted notAfter cluster
    /\ (NoDup (map id (contacts db)) -> NoDup (map id cluster))
    /\ contacts (snd (Database.findAllLinkedContacts i db)) = contacts db.
Proof.
  intros i db. eexists. split; [reflexivity|].
  unfold Database.linkedRows.
  destruct (selected_contacts
              (fun r => ((id r =? i) || Database.linkedTo i r)
                        && Database.isNull (deletedAt r))
              (contacts db)) as (Hin & Hsorted & Hnd).
  repeat split; auto.
  - intros Hc. apply Hin in Hc. destruct Hc as (r & Hr & Hf & ->).
    apply andb_true_iff in Hf. destruct Hf as [Hm Hl].
    apply isNull_true in Hl. apply orb_true_iff in Hm.
    rewrite Z.eqb_eq, linkedTo_true in Hm. eauto 6.
  - intros (r & Hr & Hl & Hm & ->). apply Hin. exists r.
    repeat split; auto. apply andb_true_iff. split.
    + apply orb_true_iff. now rewrite Z.eqb_eq, linkedTo_true.
    + now apply isNull_true.
Qed.

(** X3. While the rowid the insertion gets is at most
    [Number.MAX_SAFE_INTEGER], the range in which the driver hands it back
    exactly, [createContact] resolves.  The contact it hands back has an
    id that is positive and larger than the id of every row of the table,
    carries the given link precedence and [now] as createdAt and
    updatedAt, and is what [findContactById] then finds under that id;
    the rows that were there stay as they were. *)
Theorem X3_created_contact_is_found_by_id :
  forall now contactData db,
    Database.nextRowid db <= maxSafeInteger ->
    exists c,
      fst (Database.createContact now contactData db) = Resolved c
      /\ fst (Database.findContactById
                (id c) (snd (Database.createContact now contactData db)))
         = Resolved (Some c)
      /\ 0 < id c <= maxSafeInteger
      /\ (forall r, In r (contacts db) -> id r < id c)
      /\ linkPrecedence c = dataLinkPrecedence contactData
      /\ createdAt c = now /\ updatedAt c = now /\ deletedAt c = None
      /\ exists row,
          contacts (snd (Database.createContact now contactData db))
          = contacts db ++ [row]
          /\ c = Database.rowToContact row.
Proof.
  intros now contactData db Hsafe. rewrite createContact_resolves.
  eexists. split; [reflexivity|]. cbn [fst snd]. split.
  - unfold Database.findContactById. cbn [fst contacts].
    rewrite find_app_none.
    + cbn [find id Database.rowToContact insertedRow deletedAt
               Database.isNull].
      rewrite Z.eqb_refl. reflexivity.
    + intros x Hx. apply id_below_nextRowid in Hx.
      apply andb_false_intro1. apply Z.eqb_neq.
      cbn [id Database.rowToContact insertedRow]. lia.
  - cbn [id Database.rowToContact insertedRow linkPrecedence createdAt
            updatedAt deletedAt contacts].
    repeat split; eauto using nextRowid_pos, id_below_nextRowid.
Qed.

Lemma X3_created_contact_is_found_by_id_witness :
  let a := Some "a@x.com"%string in
  let db := after 1 {| reqEmail := a; reqPhoneNumber := Some "+1"%string |}
                  emptyDatabase in
  let contactData := {| dataPhoneNumber := Some "+2"%string; dataEmail := a;
                        dataLinkedId := Some 1;
                        dataLinkPrecedence := SECONDARY |} in
  exists c,
    fst (Database.createContact 2 contactData db) = Resolved c
    /\ fst (Database.findContactById
              (id c) (snd (Database.createContact 2 contactData db)))
       = Resolved (Some c)
    /\ 0 < id c <= maxSafeInteger
    /\ (forall r, In r (contacts db) -> id r < id c)
    /\ linkPrecedence c = dataLinkPrecedence contactData
    /\ createdAt c = 2 /\ updatedAt c = 2 /\ deletedAt c = None
    /\ exists row,
        contacts (snd (Database.createContact 2 contactData db))
        = contacts db ++ [row]
        /\ c = Database.rowToContact row.
Proof.
  intros a db contactData.
  apply (X3_created_contact_is_found_by_id 2 contactData db).
  vm_compute. discriminate.
Defined.

(** X4. [findContactById] resolves with the first row of the table that
    has the given id and is not deleted, converted by [rowToContact], and
    with null exactly when the table has no such row; it never changes the
    database. *)
Theorem X4_findContactById_finds_live_rows_only :
  forall i db,
    snd (Database.findContactById i db) = db
    /\ (forall c,
           fst (Database.findContactById i db) = Resolved (Some c) ->
           id c = i /\ deletedAt c = None
           /\ exists r, In r (contacts db) /\ c = Database.rowToContact r)
    /\ (fst (Database.findContactById i db) = Resolved None
        <-> forall r, In r (contacts db) -> id r = i -> deletedAt r <> None).
Proof.
  intros i db. unfold Database.findContactById. cbn [fst snd].
  split; [reflexivity|].
  destruct (find _ (contacts db)) as [r|] eqn:E; cbn [option_map].
  - apply find_some in E. destruct E as [Hr E].
    apply andb_true_iff in E. destruct E as [Hid Hl].
    apply Z.eqb_eq in Hid. apply isNull_true in Hl. split.
    + intros c H. injection H as <-. cbn. eauto.
    + split; [discriminate|]. intros H. exfalso. now apply (H r Hr Hid).
  - split; [discriminate|]. split; [|reflexivity].
    intros _ r Hr Hid Hl. pose proof (find_none _ _ E r Hr) as Hf.
    cbv beta in Hf. apply Z.eqb_eq in Hid. rewrite Hid, Hl in Hf.
    discriminate.
Qed.

Section StorageUpdates.

Import Database.

Lemma sequenced_nextRowid db :
  sequenced db -> 0 <= sqliteSequence db ->
  nextRowid db = sqliteSequence db + 1.
Proof.
  unfold sequenced, nextRowid. intros Hs H0.
  assert (H : fold_right Z.max 0 (map id (contacts db)) <= sqliteSequence db).
  { induction (contacts db) as [|x l IH]; simpl; [assumption|].
    assert (id x <= sqliteSequence db) by (apply Hs; now left).
    assert (fold_right Z.max 0 (map id l) <= sqliteSequence db).
    { apply IH. intros r Hr. apply Hs. now right. }
    lia. }
  lia.
Qed.

(** Every method of the class keeps the rowids below the counter. *)
Lemma sequenced_createContact now contactData db :
  sequenced db -> sequenced (snd (createContact now contactData db)).
Proof.
  intros Hs. rewrite createContact_resolves. intros r Hr.
  cbn [snd contacts sqliteSequence] in *. apply in_app_or in Hr.
  destruct Hr as [Hr|[<-|[]]].
  - apply id_below_nextRowid in Hr. lia.
  - cbn. lia.
Qed.

Lemma updateWhere_ids condition set rows :
  (forall r, id (set r) = id r) ->
  map id (updateWhere condition set rows) = map id rows.
Proof.
  intros H. unfold updateWhere. rewrite map_map. apply map_ext.
  intros r. destruct (condition r); auto.
Qed.

End StorageUpdates.

(** X5. Ids are not reused after [clearAllContacts].  On a database where
    no rowid exceeds the AUTOINCREMENT counter, which every insertion
    maintains, clearing the table leaves [getAllContacts] empty, and the
    next contact created gets the counter plus one: an id larger than that
    of every row the table held before it was cleared. *)
Theorem X5_cleared_ids_are_not_reused :
  forall now contactData db,
    sequenced db ->
    0 <= sqliteSequence db ->
    let cleared := snd (clearAllContacts db) in
    fst (getAllContacts cleared) = Resolved []
    /\ exists c,
        fst (Database.createContact now contactData cleared) = Resolved c
        /\ id c = sqliteSequence db + 1
        /\ (forall r, In r (contacts db) -> id r < id c)
        /\ sequenced (snd (Database.createContact now contactData cleared)).
Proof.
  intros now contactData db Hs H0 cleared. split; [reflexivity|].
  assert (Hc : sequenced cleared) by (intros r []).
  pose proof (sequenced_createContact now contactData cleared Hc) as Hseq.
  pose proof (sequenced_nextRowid cleared Hc H0) as Hnext.
  rewrite createContact_resolves in Hseq |- *.
  eexists. split; [reflexivity|].
  split; [|split; [|exact Hseq]];
    cbn [id Database.rowToContact insertedRow]; rewrite Hnext.
  - reflexivity.
  - intros r Hr. specialize (Hs r Hr).
    change (sqliteSequence cleared) with (sqliteSequence db). lia.
Qed.

Lemma X5_cleared_ids_are_not_reused_witness :
  let a := Some "a@x.com"%string in
  let db := after 2 {| reqEmail := a; reqPhoneNumber := Some "+2"%string |}
              (after 1 {| reqEmail := a; reqPhoneNumber := Some "+1"%string |}
                     emptyDatabase) in
  let contactData := {| dataPhoneNumber := None; dataEmail := a;
                        dataLinkedId := None;
                        dataLinkPrecedence := PRIMARY |} in
  let cleared := snd (clearAllContacts db) in
  fst (getAllContacts cleared) = Resolved []
  /\ exists c,
      fst (Database.createContact 3 contactData cleared) = Resolved c
      /\ id c = 2 + 1
      /\ (forall r, In r (contacts db) -> id r < id c)
      /\ sequenced (snd (Database.createContact 3 contactData cleared)).
Proof.
  intros a db contactData cleared.
  apply (X5_cleared_ids_are_not_reused 3 contactData db).
  - intros r Hr. vm_compute in Hr.
    destruct Hr as [<-|[<-|[]]]; vm_compute; discriminate.
  - vm_compute. discriminate.
Defined.

(** X6. [getAllContacts] resolves with exactly the rows that are not
    deleted, each converted by [rowToContact], in ascending order of
    createdAt, and changes nothing; right after [createContact] its result
    holds the contact that was created. *)
Theorem X6_getAllContacts_lists_the_live_rows :
  forall db,
    snd (getAllContacts db) = db
    /\ (exists all,
           fst (getAllContacts db) = Resolved all
           /\ (forall c,
                  In c all
                  <-> exists r, In r (contacts db) /\ deletedAt r = None
                                /\ c = Database.rowToContact r)
           /\ StronglySorted notAfter all
           /\ (NoDup (map id (contacts db)) -> NoDup (map id all)))
    /\ (forall now contactData,
           exists c all,
             fst (Database.createContact now contactData db) = Resolved c
             /\ fst (getAllContacts
                       (snd (Database.createContact now contactData db)))
                = Resolved all
             /\ In c all).
Proof.
  intros db. split; [reflexivity|]. split.
  - eexists. split; [reflexivity|].
    destruct (selected_contacts
                (fun r => Database.isNull (deletedAt r)) (contacts db))
      as (Hin & Hsorted & Hnd).
    repeat split; auto.
    + intros Hc. apply Hin in Hc. destruct Hc as (r & Hr & Hf & ->).
      apply isNull_true in Hf. eauto.
    + intros (r & Hr & Hl & ->). apply Hin. exists r.
      repeat split; auto. now apply isNull_true.
  - intros now contactData. rewrite createContact_resolves.
    eexists. eexists. split; [reflexivity|]. split; [reflexivity|].
    apply in_map, sortByCreatedAt_In, filter_In. split; [|reflexivity].
    cbn [snd contacts]. apply in_or_app. right. now left.
Qed.

(** X7. After [updateLinkedContactsPrimaryId old new] with [old <> new]
    no row is linked to [old] any more.  The table keeps its length and
    order; a row that was linked to [old] is now linked to [new], with
    [now] as updatedAt and every other field untouched (its link
    precedence too); every other row is exactly as it was. *)
Theorem X7_repointing_leaves_nothing_linked_to_the_old_id :
  forall now old new db,
    old <> new ->
    let rows' :=
      contacts (snd (Database.updateLinkedContactsPrimaryId now old new db)) in
    (forall r', In r' rows' -> linkedId r' <> Some old)
    /\ Forall2 (fun r r' =>
                  (linkedId r = Some old ->
                   linkedId r' = Some new /\ updatedAt r' = now
                   /\ linkPrecedence r' = linkPrecedence r
                   /\ id r' = id r /\ email r' = email r
                   /\ phoneNumber r' = phoneNumber r
                   /\ createdAt r' = createdAt r
                   /\ deletedAt r' = deletedAt r)
                  /\ (linkedId r <> Some old -> r' = r))
               (contacts db) rows'.
Proof.
  intros now old new db Hneq rows'. subst rows'.
  cbn [snd Database.updateLinkedContactsPrimaryId contacts].
  unfold Database.updateWhere. split.
  - intros r' Hr'. apply in_map_iff in Hr'. destruct Hr' as (r & <- & Hr).
    destruct (Database.linkedTo old r) eqn:E.
    + cbn. congruence.
    + intros H. apply linkedTo_true in H. congruence.
  - induction (contacts db) as [|r rows IH]; simpl; constructor;
      [|exact IH].
    destruct (Database.linkedTo old r) eqn:E.
    + split; [intros _; cbn; auto 10|].
      intros H. apply linkedTo_true in E. contradiction.
    + split; [|reflexivity].
      intros H. apply linkedTo_true in H. congruence.
Qed.

Lemma X7_repointing_leaves_nothing_linked_to_the_old_id_witness :
  let a := Some "a@x.com"%string in
  let db := after 2 {| reqEmail := a; reqPhoneNumber := Some "+2"%string |}
              (after 1 {| reqEmail := a; reqPhoneNumber := Some "+1"%string |}
                     emptyDatabase) in
  let rows' :=
    contacts (snd (Database.updateLinkedContactsPrimaryId 5 1 7 db)) in
  (forall r', In r' rows' -> linkedId r' <> Some 1)
  /\ Forall2 (fun r r' =>
                (linkedId r = Some 1 ->
                 linkedId r' = Some 7 /\ updatedAt r' = 5
                 /\ linkPrecedence r' = linkPrecedence r
                 /\ id r' = id r /\ email r' = email r
                 /\ phoneNumber r' = phoneNumber r
                 /\ createdAt r' = createdAt r
                 /\ deletedAt r' = deletedAt r)
                /\ (linkedId r <> Some 1 -> r' = r))
             (contacts db) rows'.
Proof.
  intros a db rows'.
  apply (X7_repointing_leaves_nothing_linked_to_the_old_id 5 1 7 db).
  discriminate.
Defined.

(** X8. [updateContactToSecondary contactId primaryContactId] turns every
    row with id [contactId] into a SECONDARY contact linked to
    [primaryContactId], and leaves every other row exactly as it was; a
    converted row that is not deleted is then among the contacts
    [findAllLinkedContacts primaryContactId] delivers. *)
Theorem X8_converted_contact_joins_the_cluster :
  forall now contactId primaryContactId db,
    let db' := snd (Database.updateContactToSecondary
                      now contactId primaryContactId db) in
    Forall2 (fun r r' =>
               (id r = contactId ->
                r' = Database.setSecondary now primaryContactId r)
               /\ (id r <> contactId -> r' = r))
            (contacts db) (contacts db')
    /\ (forall r',
           In r' (contacts db') -> id r' = contactId ->
           linkPrecedence r' = SECONDARY
           /\ linkedId r' = Some primaryContactId
           /\ (deletedAt r' = None ->
               exists cluster,
                 fst (Database.findAllLinkedContacts primaryContactId db')
                 = Resolved cluster
                 /\ In (Database.rowToContact r') cluster)).
Proof.
  intros now contactId primaryContactId db db'. subst db'.
  cbn [snd Database.updateContactToSecondary contacts].
  unfold Database.updateWhere. split.
  - induction (contacts db) as [|r rows IH]; simpl; constructor;
      [|exact IH].
    destruct (Z.eqb_spec (id r) contactId); split; congruence.
  - intros r' Hr' Hid.
    assert (Hconv : linkPrecedence r' = SECONDARY
                    /\ linkedId r' = Some primaryContactId).
    { apply in_map_iff in Hr'. destruct Hr' as (r & <- & Hr).
      destruct (Z.eqb_spec (id r) contactId); [cbn; auto|].
      congruence. }
    destruct Hconv as [Hs Hl]. repeat split; auto.
    intros Hlive. eexists. split; [reflexivity|].
    cbn [contacts]. apply in_map. apply linkedRows_In.
    split; [exact Hr'|]. auto.
Qed.

(** X9. One round of the merge loop, [updateContactToSecondary] followed
    by [updateLinkedContactsPrimaryId] for the same contact and the same
    oldest primary, is idempotent on the table: running the round a second
    time at the same moment changes no row, so a contact listed twice among
    the contacts to merge is converted as if listed once. *)
Theorem X9_merge_round_is_idempotent :
  forall now x o db,
    let round :=
      (Database.updateContactToSecondary now x o ;;
       Database.updateLinkedContactsPrimaryId now x o)%promise in
    contacts (snd ((round ;; round)%promise db))
    = contacts (snd (round db))
    /\ forall c rest,
        contacts (snd (convertToSecondaries now (c :: c :: rest) o db))
        = contacts (snd (convertToSecondaries now (c :: rest) o db)).
Proof.
  assert (Hidem : forall now x o rows,
             demote now x o (demote now x o rows) = demote now x o rows).
  { intros now x o rows. unfold demote, Database.updateWhere.
    rewrite !map_map. apply map_ext. intros r.
    destruct (Z.eqb_spec (id r) x) as [E|E].
    - destruct (Database.linkedTo x (Database.setSecondary now o r)) eqn:E1;
        cbn [id Database.setSecondary Database.setLinkedId];
        rewrite (proj2 (Z.eqb_eq _ _) E).
      + unfold Database.linkedTo in E1 |- *. cbn in E1 |- *.
        rewrite E1. reflexivity.
      + unfold Database.linkedTo in E1 |- *. cbn in E1 |- *.
        rewrite E1. reflexivity.
    - destruct (Database.linkedTo x r) eqn:E1.
      + cbn [id Database.setLinkedId].
        rewrite (proj2 (Z.eqb_neq _ _) E).
        destruct (Database.linkedTo x (Database.setLinkedId now o r)) eqn:E2;
          reflexivity.
      + rewrite (proj2 (Z.eqb_neq _ _) E), E1. reflexivity. }
  intros now x o db round. split.
  - subst round. unfold await. cbn. apply Hidem.
  - intros c rest. rewrite !convertToSecondaries_run. cbn [snd contacts].
    unfold demoteAll. cbn [fold_left]. now rewrite Hidem.
Qed.

(* ================================================================= *)
(** ** How [identify] fails *)

Section Failures.

Import Database.

Lemma buildResponseForPrimary_rejection i db e :
  fst (buildResponseForPrimary i db) = Rejected e ->
  e = Thrown "Primary contact not found".
Proof.
  unfold buildResponseForPrimary, await. cbn [findAllLinkedContacts].
  destruct (find isPrimary _); cbn; [discriminate|]. congruence.
Qed.

(** The shape of [identify] when the lookup yields nothing. *)
Lemma identify_no_match now request db :
  fst (findContactsByEmailOrPhone (reqEmail request) (reqPhoneNumber request)
                                  db) = Resolved [] ->
  identify now request db
  = createNewPrimaryContact now (reqEmail request) (reqPhoneNumber request)
                            (logCall CallFindContactsByEmailOrPhone db).
Proof.
  intros Hfind. unfold identify. unfold await at 1.
  pose proof (lookup_database (reqEmail request) (reqPhoneNumber request) db)
    as Hdb.
  destruct (findContactsByEmailOrPhone _ _ db) as [res db1].
  simpl in Hfind, Hdb. now subst res db1.
Qed.

(** With matches but no primary among them, nothing is written. *)
Lemma identify_without_primary now request db matches :
  fst (findContactsByEmailOrPhone (reqEmail request) (reqPhoneNumber request)
                                  db) = Resolved matches ->
  matches <> [] ->
  findPrimaryContacts matches = [] ->
  identify now request db
  = (Rejected (Thrown "No primary contact found to merge"),
     logCall CallFindContactsByEmailOrPhone db).
Proof.
  intros Hfind Hne Hnone. unfold identify. unfold await at 1.
  pose proof (lookup_database (reqEmail request) (reqPhoneNumber request) db)
    as Hdb.
  destruct (findContactsByEmailOrPhone _ _ db) as [res db1].
  simpl in Hfind, Hdb. subst res db1.
  destruct matches as [|m matches]; [congruence|].
  rewrite Hnone. reflexivity.
Qed.

Lemma optional_secondary_resolves (b : bool) now email phoneNumber i db :
  exists db2,
    (if b
     then createSecondaryContact now email phoneNumber i ;; resolve tt
     else resolve tt) db = (Resolved tt, db2).
Proof.
  destruct b; [|eexists; reflexivity].
  unfold await, createSecondaryContact. rewrite createContact_resolves.
  eexists. reflexivity.
Qed.

End Failures.

(** Every way [identify] can reject, with its cause. *)
Lemma identify_rejection_cases :
  forall now request db e,
    fst (identify now request db) = Rejected e ->
    (e = SqliteError Database.syntaxErrorMessage
     /\ truthyStr (reqEmail request) = false
     /\ truthyStr (reqPhoneNumber request) = false
     /\ after now request db = logCall CallFindContactsByEmailOrPhone db)
    \/ (e = Thrown "No primary contact found to merge"
        /\ (exists matches,
               fst (Database.findContactsByEmailOrPhone
                      (reqEmail request) (reqPhoneNumber request) db)
               = Resolved matches
               /\ matches <> []
               /\ findPrimaryContacts matches = [])
        /\ after now request db
           = logCall CallFindContactsByEmailOrPhone db)
    \/ (e = Thrown "Primary contact not found"
        /\ exists matches,
            fst (Database.findContactsByEmailOrPhone
                   (reqEmail request) (reqPhoneNumber request) db)
            = Resolved matches
            /\ findPrimaryContacts matches <> []).
Proof.
  intros now request db e Hrej.
  destruct (fst (Database.findContactsByEmailOrPhone
                   (reqEmail request) (reqPhoneNumber request) db))
    as [matches|e0] eqn:Hlook.
  - destruct matches as [|m matches].
    + (* create: always resolves *)
      exfalso.
      rewrite (identify_no_match now request db Hlook) in Hrej.
      rewrite createNewPrimaryContact_resolves in Hrej. discriminate.
    + destruct (findPrimaryContacts (m :: matches)) as [|P ps] eqn:Hfound.
      * right. left.
        pose proof (identify_without_primary
                      now request db (m :: matches) Hlook) as H.
        unfold after. rewrite H in Hrej |- *; try discriminate; auto.
        cbn in Hrej. injection Hrej as <-.
        repeat split; auto. exists (m :: matches).
        repeat split; auto. discriminate.
      * right. right.
        assert (Hlast : e = Thrown "Primary contact not found").
        { destruct ps as [|Q ps].
          - rewrite (identify_single_primary
                       now request db (m :: matches) P Hlook Hfound)
              in Hrej.
            unfold await at 1 in Hrej.
            destruct (optional_secondary_resolves
                        (needsSecondaryContact P (reqEmail request)
                                               (reqPhoneNumber request))
                        now (reqEmail request) (reqPhoneNumber request)
                        (id P) (logCall CallFindContactsByEmailOrPhone db))
              as (db2 & E).
            rewrite E in Hrej.
            now apply buildResponseForPrimary_rejection in Hrej.
          - unfold identify in Hrej. unfold await at 1 in Hrej.
            pose proof (lookup_database
                          (reqEmail request) (reqPhoneNumber request) db)
              as Hdb.
            destruct (Database.findContactsByEmailOrPhone _ _ db)
              as [res db1].
            simpl in Hlook, Hdb. subst res db1. rewrite Hfound in Hrej.
            destruct (oldestPrimary (P :: Q :: ps)) as [oldest|] eqn:Hold.
            + rewrite (mergePrimaryContacts_run _ _ _ _ _ _ Hold) in Hrej.
              now apply buildResponseForPrimary_rejection in Hrej.
            + exfalso. unfold oldestPrimary in Hold.
              pose proof (sortByCreatedAt_perm (P :: Q :: ps)) as Hperm.
              destruct (sortByCreatedAt (P :: Q :: ps)); [|discriminate].
              apply Permutation_nil in Hperm. discriminate Hperm. }
        split; [exact Hlast|]. exists (m :: matches).
        split; [reflexivity|]. rewrite Hfound. discriminate.
  - left. unfold identify, await in Hrej |- *. unfold after, identify, await.
    unfold Database.findContactsByEmailOrPhone in *.
    destruct (Database.disjuncts (reqEmail request) (reqPhoneNumber request))
      as [|d ds] eqn:Hds; [|discriminate].
    cbn in Hrej |- *. injection Hrej as <-. repeat split.
    + destruct (truthyStr (reqEmail request)) eqn:E; [|reflexivity].
      exfalso. unfold Database.disjuncts in Hds. rewrite E in Hds.
      destruct (reqEmail request); discriminate.
    + destruct (truthyStr (reqPhoneNumber request)) eqn:E; [|reflexivity].
      exfalso. unfold Database.disjuncts in Hds. rewrite E in Hds.
      apply app_eq_nil in Hds. destruct Hds as [_ Hds].
      destruct (reqPhoneNumber request); discriminate.
Qed.

(** X10. While the rowid the next insertion gets is at most
    [Number.MAX_SAFE_INTEGER], so that [createContact] reads back the row
    it inserted, [identify] can reject in three ways only.  It rejects
    with the error the driver reports for the malformed query exactly when
    the email and the phone number are both falsy, and with "No primary
    contact found to merge" exactly when the lookup delivers contacts
    among which [findPrimaryContacts] finds no primary; in both cases no
    storage call follows the lookup and the database is as the lookup left
    it.  Any other rejection is "Primary contact not found", thrown when
    the cluster is read for the response. *)
Theorem X10_identify_rejects_in_three_ways :
  (forall now request db e,
      Database.nextRowid db <= maxSafeInteger ->
      fst (identify now request db) = Rejected e ->
      ((exists msg, e = SqliteError msg)
       /\ truthyStr (reqEmail request) = false
       /\ truthyStr (reqPhoneNumber request) = false
       /\ after now request db = logCall CallFindContactsByEmailOrPhone db)
      \/ (e = Thrown "No primary contact found to merge"
          /\ (exists matches,
                 fst (Database.findContactsByEmailOrPhone
                        (reqEmail request) (reqPhoneNumber request) db)
                 = Resolved matches
                 /\ matches <> []
                 /\ findPrimaryContacts matches = [])
          /\ after now request db
             = logCall CallFindContactsByEmailOrPhone db)
      \/ (e = Thrown "Primary contact not found"
          /\ exists matches,
              fst (Database.findContactsByEmailOrPhone
                     (reqEmail request) (reqPhoneNumber request) db)
              = Resolved matches
              /\ findPrimaryContacts matches <> []))
  /\ (forall now request db,
         truthyStr (reqEmail request) = false ->
         truthyStr (reqPhoneNumber request) = false ->
         exists msg,
           fst (identify now request db) = Rejected (SqliteError msg))
  /\ (forall now request db matches,
         fst (Database.findContactsByEmailOrPhone
                (reqEmail request) (reqPhoneNumber request) db)
         = Resolved matches ->
         matches <> [] ->
         findPrimaryContacts matches = [] ->
         fst (identify now request db)
         = Rejected (Thrown "No primary contact found to merge")).
Proof.
  split; [|split].
  - intros now request db e _ Hrej.
    destruct (identify_rejection_cases now request db e Hrej)
      as [(-> & H)|[H|H]]; [left|right; left|right; right]; eauto.
  - intros now request db He Hp.
    unfold identify, await, Database.findContactsByEmailOrPhone.
    rewrite (disjuncts_falsy _ _ He Hp). eexists. reflexivity.
  - intros now request db matches Hlook Hne Hnone.
    now rewrite (identify_without_primary now request db matches).
Qed.

Lemma X10_identify_rejects_in_three_ways_witness :
  let a := Some "a@x.com"%string in
  let db := after 2 {| reqEmail := a; reqPhoneNumber := Some "+2"%string |}
              (after 1 {| reqEmail := a; reqPhoneNumber := Some "+1"%string |}
                     emptyDatabase) in
  let nothing := {| reqEmail := None; reqPhoneNumber := None |} in
  let second := {| reqEmail := None; reqPhoneNumber := Some "+2"%string |} in
  (exists msg, fst (identify 3 nothing db) = Rejected (SqliteError msg))
  /\ fst (identify 3 second db)
     = Rejected (Thrown "No primary contact found to merge")
  /\ (((exists msg,
          Thrown "No primary contact found to merge" = SqliteError msg)
       /\ truthyStr (reqEmail second) = false
       /\ truthyStr (reqPhoneNumber second) = false
       /\ after 3 second db = logCall CallFindContactsByEmailOrPhone db)
      \/ (Thrown "No primary contact found to merge"
          = Thrown "No primary contact found to merge"
          /\ (exists matches,
                 fst (Database.findContactsByEmailOrPhone
                        (reqEmail second) (reqPhoneNumber second) db)
                 = Resolved matches
                 /\ matches <> []
                 /\ findPrimaryContacts matches = [])
          /\ after 3 second db = logCall CallFindContactsByEmailOrPhone db)
      \/ (Thrown "No primary contact found to merge"
          = Thrown "Primary contact not found"
          /\ exists matches,
              fst (Database.findContactsByEmailOrPhone
                     (reqEmail second) (reqPhoneNumber second) db)
              = Resolved matches
              /\ findPrimaryContacts matches <> [])).
Proof.
  intros a db nothing second. split; [|split].
  - apply (proj1 (proj2 X10_identify_rejects_in_three_ways) 3 nothing db);
      reflexivity.
  - apply (proj2 (proj2 X10_identify_rejects_in_three_ways) 3 second db
                 [{| id := 2; phoneNumber := Some "+2"%string;
                     email := a; linkedId := Some 1;
                     linkPrecedence := SECONDARY; createdAt := 2;
                     updatedAt := 2; deletedAt := None |}]);
      [reflexivity|discriminate|reflexivity].
  - apply (proj1 X10_identify_rejects_in_three_ways 3 second db).
    + vm_compute. discriminate.
    + reflexivity.
Defined.

Section Resolution.

Import Database.

Lemma filter_isPrimary_nil matches :
  filter isPrimary matches = []
  <-> forall c, In c matches -> linkPrecedence c <> PRIMARY.
Proof.
  split.
  - intros H c Hc Hp.
    assert (Hin : In c (filter isPrimary matches)).
    { apply filter_In. split; [assumption|now apply isPrimary_true]. }
    rewrite H in Hin. destruct Hin.
  - intros H. apply filter_none. intros c Hc.
    destruct (isPrimary c) eqn:E; [|reflexivity].
    apply isPrimary_true in E. now apply H in E.
Qed.

(** After the optional insertion of a secondary under a primary of the
    table, the response for that primary can be built. *)
Lemma response_after_optional_secondary
      (b : bool) now email phoneNumber db primary :
  wellLinked (contacts db) ->
  In primary (contacts db) -> linkPrecedence primary = PRIMARY ->
  exists response,
    fst (((if b
           then createSecondaryContact now email phoneNumber (id primary) ;;
                resolve tt
           else resolve tt) ;;
          buildResponseForPrimary (id primary)) db)
    = Resolved response.
Proof.
  intros Hwl Hin Hprim. unfold await at 1.
  destruct b.
  - unfold await at 1.
    pose proof (wellLinked_secondary now email phoneNumber db primary
                                     Hwl Hin Hprim) as Hwl2.
    assert (Hid : id primary <> 0).
    { pose proof (wl_positive _ Hwl primary Hin). lia. }
    rewrite createSecondaryContact_resolves in Hwl2 |- * by assumption.
    unfold resolve. cbn [snd] in Hwl2.
    match goal with |- context [buildResponseForPrimary _ ?d] =>
      destruct (buildResponseForPrimary_resolves (id primary) d primary)
        as (response & H & _) end; auto.
    + cbn [contacts]. apply in_or_app. now left.
    + eauto.
  - unfold resolve.
    destruct (buildResponseForPrimary_resolves (id primary) db primary)
      as (response & H & _); eauto.
Qed.

Lemma identify_resolves_inOrder now request db matches :
  inOrder (contacts db) ->
  fst (findContactsByEmailOrPhone (reqEmail request) (reqPhoneNumber request)
                                  db) = Resolved matches ->
  matches = [] \/ (exists c, In c matches /\ linkPrecedence c = PRIMARY) ->
  exists response, fst (identify now request db) = Resolved response.
Proof.
  intros Hio Hlook Hcase. pose proof (io_linked _ Hio) as Hwl.
  destruct (lookup_inOrder _ _ _ _ Hio Hlook)
    as (_ & Hmatches & Hsorted & Htimes).
  assert (Hsub : forall c, In c matches -> In c (contacts db)).
  { intros c Hc. rewrite Hmatches in Hc. apply filter_In in Hc. apply Hc. }
  destruct matches as [|m matches].
  { rewrite (identify_no_match now request db Hlook).
    rewrite createNewPrimaryContact_resolves. eexists. reflexivity. }
  destruct Hcase as [Hnil|(c & Hc & Hcp)]; [discriminate|].
  assert (Hfound : findPrimaryContacts (m :: matches)
                   = filter isPrimary (m :: matches)).
  { now apply (findPrimaryContacts_inOrder (contacts db)). }
  assert (Hps : forall p, In p (filter isPrimary (m :: matches)) ->
                          In p (contacts db) /\ linkPrecedence p = PRIMARY).
  { intros p Hp. apply filter_In in Hp. destruct Hp as [Hp Hpp].
    split; [now apply Hsub|now apply isPrimary_true]. }
  assert (Hpsorted : StronglySorted (fun a b => id a < id b)
                                    (filter isPrimary (m :: matches))).
  { clear -Hsorted. induction Hsorted as [|x l Hl IH Hx]; simpl;
      [constructor|].
    destruct (isPrimary x); [|assumption]. constructor; [assumption|].
    rewrite Forall_forall in Hx |- *. intros y Hy.
    apply filter_In in Hy. apply Hx, Hy. }
  assert (Hptimes : StronglySorted notAfter
                                   (filter isPrimary (m :: matches))).
  { clear -Htimes. induction Htimes as [|x l Hl IH Hx]; simpl;
      [constructor|].
    destruct (isPrimary x); [|assumption]. constructor; [assumption|].
    rewrite Forall_forall in Hx |- *. intros y Hy.
    apply filter_In in Hy. apply Hx, Hy. }
  destruct (filter isPrimary (m :: matches)) as [|P [|Q ps]] eqn:Hfilter.
  - exfalso.
    exact (proj1 (filter_isPrimary_nil (m :: matches)) Hfilter c Hc Hcp).
  - destruct (Hps P (or_introl eq_refl)) as [HP HPp].
    rewrite (identify_single_primary now request db (m :: matches) P
                                     Hlook Hfound).
    now apply response_after_optional_secondary.
  - destruct (Hps P (or_introl eq_refl)) as [HP HPp].
    assert (Hsortedps : sortByCreatedAt (P :: Q :: ps) = P :: Q :: ps)
      by now apply sortByCreatedAt_ordered.
    assert (Hold : oldestPrimary (P :: Q :: ps) = Some P).
    { unfold oldestPrimary. now rewrite Hsortedps. }
    assert (Htail : contactsToMerge (P :: Q :: ps) = Q :: ps).
    { unfold contactsToMerge. now rewrite Hsortedps. }
    unfold identify. unfold await at 1.
    pose proof (lookup_database (reqEmail request) (reqPhoneNumber request)
                                db) as Hdb.
    destruct (findContactsByEmailOrPhone _ _ db) as [res db1].
    simpl in Hlook, Hdb. subst res db1. rewrite Hfound.
    rewrite (mergePrimaryContacts_run _ _ _ _ _ _ Hold), Htail.
    cbv zeta. rewrite convertToSecondaries_run.
    cbn [snd logCall contacts sqliteSequence calls].
    assert (Hnot : ~ In (id P) (map id (Q :: ps))).
    { intros Hin. apply in_map_iff in Hin. destruct Hin as (x & E & Hx).
      inversion Hpsorted as [|? ? _ Hlt]; subst.
      rewrite Forall_forall in Hlt. specialize (Hlt x Hx). lia. }
    destruct (demoteAll_wellLinked now (Q :: ps) (id P) (contacts db) P
                                   Hwl HP HPp eq_refl Hnot) as [Hwl1 Hin1].
    match goal with
      |- context [hasNewInformation ?l ?e ?p] =>
        generalize (hasNewInformation l e p) end.
    intros b.
    match goal with
      |- context [if b then snd (_ ?d) else _] =>
        pose proof (response_after_optional_secondary
                      b now (reqEmail request) (reqPhoneNumber request)
                      d P Hwl1 Hin1 HPp) as (response & H) end.
    exists response. destruct b.
    + unfold await, createSecondaryContact in H.
      unfold createSecondaryContact.
      rewrite createContact_resolves in H |- *. exact H.
    + exact H.
Qed.

End Resolution.

(** X11. On a database reached from the empty one by resolved requests
    under a clock that never ran backwards, [identify] resolves exactly
    when the lookup resolves and delivers either nothing or at least one
    PRIMARY contact.  A request that is rejected has written nothing: the
    table and the rowid counter are as before, and the rejection is never
    "Primary contact not found". *)
Theorem X11_rejected_requests_write_nothing :
  forall now request db,
    reachableInOrder db ->
    ((exists response, fst (identify now request db) = Resolved response)
     <-> exists matches,
        fst (Database.findContactsByEmailOrPhone
               (reqEmail request) (reqPhoneNumber request) db)
        = Resolved matches
        /\ (matches = []
            \/ exists c, In c matches /\ linkPrecedence c = PRIMARY))
    /\ (forall e,
           fst (identify now request db) = Rejected e ->
           contacts (after now request db) = contacts db
           /\ sqliteSequence (after now request db) = sqliteSequence db
           /\ e <> Thrown "Primary contact not found").
Proof.
  intros now request db Hreach.
  pose proof (reachableInOrder_inOrder db Hreach) as Hio.
  assert (Hfound : forall matches,
             fst (Database.findContactsByEmailOrPhone
                    (reqEmail request) (reqPhoneNumber request) db)
             = Resolved matches ->
             findPrimaryContacts matches = filter isPrimary matches).
  { intros matches Hlook.
    destruct (lookup_inOrder _ _ _ _ Hio Hlook)
      as (_ & Hmatches & Hsorted & _).
    apply (findPrimaryContacts_inOrder (contacts db)); auto.
    intros c Hc. rewrite Hmatches in Hc. apply filter_In in Hc. apply Hc. }
  split; [split|].
  - intros (response & Hres).
    destruct (fst (Database.findContactsByEmailOrPhone
                     (reqEmail request) (reqPhoneNumber request) db))
      as [matches|e] eqn:Hlook.
    + exists matches. split; [reflexivity|].
      destruct matches as [|m matches]; [now left|right].
      destruct (filter isPrimary (m :: matches)) as [|P ps] eqn:Hfilter.
      * exfalso.
        rewrite (identify_without_primary now request db (m :: matches))
          in Hres; try discriminate; auto.
        now rewrite (Hfound _ eq_refl).
      * exists P.
        assert (HP : In P (filter isPrimary (m :: matches)))
          by (rewrite Hfilter; now left).
        apply filter_In in HP. destruct HP as [HP HPp].
        split; [assumption|now apply isPrimary_true].
    + exfalso. unfold identify, await in Hres.
      destruct (Database.findContactsByEmailOrPhone _ _ db) as [res db1].
      simpl in Hlook. subst res. discriminate.
  - intros (matches & Hlook & Hcase).
    now apply (identify_resolves_inOrder now request db matches).
  - intros e Hrej.
    destruct (identify_rejection_cases now request db e Hrej)
      as [(-> & _ & _ & ->)|[(-> & _ & ->)|(-> & matches & Hlook & Hne)]].
    + repeat split; auto. discriminate.
    + repeat split; auto. discriminate.
    + exfalso.
      destruct (identify_resolves_inOrder now request db matches Hio Hlook)
        as (response & Hres); [|congruence].
      destruct matches as [|m matches]; [now left|right].
      rewrite (Hfound _ Hlook) in Hne.
      destruct (filter isPrimary (m :: matches)) as [|P ps] eqn:Hfilter;
        [congruence|].
      exists P.
      assert (HP : In P (filter isPrimary (m :: matches)))
        by (rewrite Hfilter; now left).
      apply filter_In in HP. destruct HP as [HP HPp].
      split; [assumption|now apply isPrimary_true].
Qed.

Lemma X11_rejected_requests_write_nothing_witness :
  let a := Some "a@x.com"%string in
  let db := after 2 {| reqEmail := a; reqPhoneNumber := Some "+2"%string |}
              (after 1 {| reqEmail := a; reqPhoneNumber := Some "+1"%string |}
                     emptyDatabase) in
  let request := {| reqEmail := None; reqPhoneNumber := Some "+2"%string |} in
  ((exists response, fst (identify 3 request db) = Resolved response)
   <-> exists matches,
      fst (Database.findContactsByEmailOrPhone
             (reqEmail request) (reqPhoneNumber request) db)
      = Resolved matches
      /\ (matches = []
          \/ exists c, In c matches /\ linkPrecedence c = PRIMARY))
  /\ (forall e,
         fst (identify 3 request db) = Rejected e ->
         contacts (after 3 request db) = contacts db
         /\ sqliteSequence (after 3 request db) = sqliteSequence db
         /\ e <> Thrown "Primary contact not found").
Proof.
  intros a db request.
  apply (X11_rejected_requests_write_nothing 3 request db).
  eapply reachableInOrder_after;
    [|repeat constructor; simpl; lia|reflexivity].
  eapply reachableInOrder_after; [|constructor|reflexivity].
  apply ordered_empty.
Defined.

(* ================================================================= *)
(** ** What a resolved request returns *)

Section ResolvedShape.

Import Database.

(** The three ways [identify] resolves, with the database its response
    was read from. *)
Lemma identify_resolved_shape now request db response db' :
  identify now request db = (Resolved response, db') ->
  let email := reqEmail request in
  let phoneNumber := reqPhoneNumber request in
  let db0 := logCall CallFindContactsByEmailOrPhone db in
  exists matches,
    fst (findContactsByEmailOrPhone email phoneNumber db) = Resolved matches
    /\ ((matches = []
         /\ createNewPrimaryContact now email phoneNumber db0
            = (Resolved response, db'))
        \/ (exists P db2,
               findPrimaryContacts matches = [P]
               /\ db2 = (if needsSecondaryContact P email phoneNumber
                         then snd (createSecondaryContact
                                     now email phoneNumber (id P) db0)
                         else db0)
               /\ buildResponseForPrimary (id P) db2
                  = (Resolved response, db'))
        \/ (exists O db1 db2,
               matches <> []
               /\ oldestPrimary (findPrimaryContacts matches) = Some O
               /\ db1 = logCall CallFindAllLinkedContacts
                          (snd (convertToSecondaries
                                  now
                                  (contactsToMerge
                                     (findPrimaryContacts matches))
                                  (id O) db0))
               /\ db2 = (if hasNewInformation
                              (map rowToContact
                                   (linkedRows (id O) (contacts db1)))
                              email phoneNumber
                         then snd (createSecondaryContact
                                     now email phoneNumber (id O) db1)
                         else db1)
               /\ buildResponseForPrimary (id O) db2
                  = (Resolved response, db'))).
Proof.
  intros Hrun. cbv zeta.
  destruct (fst (findContactsByEmailOrPhone
                   (reqEmail request) (reqPhoneNumber request) db))
    as [matches|e] eqn:Hlook.
  2:{ exfalso. unfold identify, await in Hrun.
      destruct (findContactsByEmailOrPhone _ _ db) as [res db1].
      simpl in Hlook. subst res. discriminate. }
  exists matches. split; [reflexivity|].
  destruct matches as [|m matches].
  - left. split; [reflexivity|].
    now rewrite <- (identify_no_match now request db Hlook).
  - right.
    assert (Hmerge : forall ps,
               findPrimaryContacts (m :: matches) = ps ->
               mergePrimaryContacts
                 now ps (reqEmail request) (reqPhoneNumber request)
                 (logCall CallFindContactsByEmailOrPhone db)
               = (Resolved response, db') ->
               exists O db1 db2,
                 m :: matches <> []
                 /\ oldestPrimary ps = Some O
                 /\ db1 = logCall CallFindAllLinkedContacts
                            (snd (convertToSecondaries
                                    now (contactsToMerge ps) (id O)
                                    (logCall CallFindContactsByEmailOrPhone
                                             db)))
                 /\ db2 = (if hasNewInformation
                                (map rowToContact
                                     (linkedRows (id O) (contacts db1)))
                                (reqEmail request) (reqPhoneNumber request)
                           then snd (createSecondaryContact
                                       now (reqEmail request)
                                       (reqPhoneNumber request) (id O) db1)
                           else db1)
                 /\ buildResponseForPrimary (id O) db2
                    = (Resolved response, db')).
    { intros ps _ E.
      destruct (oldestPrimary ps) as [O|] eqn:Hold.
      - rewrite (mergePrimaryContacts_run _ _ _ _ _ _ Hold) in E.
        cbv zeta in E. eexists O, _, _.
        split; [discriminate|]. split; [reflexivity|].
        split; [reflexivity|]. split; [reflexivity|]. exact E.
      - unfold mergePrimaryContacts in E. rewrite Hold in E. discriminate. }
    destruct (findPrimaryContacts (m :: matches)) as [|P [|Q ps]] eqn:Hfound.
    + right. apply Hmerge; [reflexivity|].
      unfold identify in Hrun. unfold await at 1 in Hrun.
      pose proof (lookup_database (reqEmail request) (reqPhoneNumber request)
                                  db) as Hdb.
      destruct (findContactsByEmailOrPhone _ _ db) as [res d].
      simpl in Hlook, Hdb. subst res d. now rewrite Hfound in Hrun.
    + left. exists P.
      rewrite (identify_single_primary now request db (m :: matches) P
                                       Hlook Hfound) in Hrun.
      unfold await at 1 in Hrun.
      destruct (needsSecondaryContact P _ _).
      * unfold await at 1 in Hrun. unfold createSecondaryContact in *.
        rewrite createContact_resolves in Hrun |- *.
        eexists. split; [reflexivity|]. split; [reflexivity|]. exact Hrun.
      * eexists. split; [reflexivity|]. split; [reflexivity|]. exact Hrun.
    + right. apply Hmerge; [reflexivity|].
      unfold identify in Hrun. unfold await at 1 in Hrun.
      pose proof (lookup_database (reqEmail request) (reqPhoneNumber request)
                                  db) as Hdb.
      destruct (findContactsByEmailOrPhone _ _ db) as [res d].
      simpl in Hlook, Hdb. subst res d. now rewrite Hfound in Hrun.
Qed.

Lemma truthyValues_In (f : Contact -> option string) l s :
  In s (truthyValues f l)
  <-> exists c, In c l /\ f c = Some s /\ s <> EmptyString.
Proof.
  unfold truthyValues. rewrite in_flat_map. split.
  - intros (c & Hc & Hs). exists c. split; [assumption|].
    destruct (f c) as [x|]; [|destruct Hs].
    destruct (String.eqb_spec x EmptyString); [destruct Hs|].
    destruct Hs as [<-|[]]. auto.
  - intros (c & Hc & E & Hne). exists c. split; [assumption|].
    rewrite E. destruct (String.eqb_spec s EmptyString); [contradiction|].
    now left.
Qed.

(** Every value held by a contact of the cluster is listed. *)
Lemma cluster_values_listed i db response :
  wellLinked (contacts db) ->
  fst (buildResponseForPrimary i db) = Resolved response ->
  forall c,
    In c (linkedRows i (contacts db)) ->
    (forall e, email c = Some e -> In e (emails response))
    /\ (forall p, phoneNumber c = Some p -> In p (phoneNumbers response)).
Proof.
  intros Hwl Hres c Hc.
  destruct (buildResponseForPrimary_projection i db response Hwl Hres)
    as (P & HP & HPp & HPid & _ & He & Hp & _).
  pose proof Hc as Hc'. apply linkedRows_In in Hc'.
  destruct Hc' as (Hcin & Hlink & _).
  pose proof HP as HP'. apply linkedRows_In in HP'.
  destruct HP' as (HPin & _).
  pose proof (wl_normal _ Hwl c Hcin) as Hnorm.
  assert (Hcases : c = P \/ In c (filter isSecondary
                                         (linkedRows i (contacts db)))).
  { destruct (linkPrecedence c) eqn:Hk.
    - left. apply (same_id_same_row (contacts db)); auto using wl_ids.
      destruct Hlink as [E|E]; [congruence|].
      rewrite (wl_primary _ Hwl c Hcin Hk) in E. discriminate.
    - right. apply filter_In. split; [assumption|].
      now apply isSecondary_true. }
  split.
  - intros e E. rewrite He. apply firstOccurrences_In, in_or_app.
    pose proof (normal_email_truthy c e Hnorm E) as Ht.
    destruct Hcases as [->|Hsec].
    + left. unfold listed. rewrite E, Ht. now left.
    + right. apply truthyValues_In. exists c.
      repeat split; auto. now apply truthyStr_Some.
  - intros p E. rewrite Hp. apply firstOccurrences_In, in_or_app.
    pose proof (normal_phoneNumber_truthy c p Hnorm E) as Ht.
    destruct Hcases as [->|Hsec].
    + left. unfold listed. rewrite E, Ht. now left.
    + right. apply truthyValues_In. exists c.
      repeat split; auto. now apply truthyStr_Some.
Qed.

Lemma stored_truthy v : truthyStr v = true -> stored v = v.
Proof. unfold stored. now intros ->. Qed.

(** The row a request inserts under [i] is read with the cluster of [i]
    and carries the request's values. *)
Lemma inserted_secondary_in_cluster now email phoneNumber i db :
  i <> 0 ->
  let db2 := snd (createSecondaryContact now email phoneNumber i db) in
  exists row,
    In row (linkedRows i (contacts db2))
    /\ Types.email row = stored email
    /\ Types.phoneNumber row = stored phoneNumber.
Proof.
  intros Hi. cbv zeta. rewrite createSecondaryContact_resolves by assumption.
  cbn [snd contacts].
  exists (insertedRow now {| dataPhoneNumber := stored phoneNumber;
                             dataEmail := stored email;
                             dataLinkedId := Some i;
                             dataLinkPrecedence := SECONDARY |} db).
  split; [|split; reflexivity].
  apply linkedRows_In. split; [apply in_or_app; right; now left|].
  split; [now right|reflexivity].
Qed.

End ResolvedShape.

Section RequestValues.

Import Database.

Lemma build_wellLinked i db2 response db' :
  wellLinked (contacts db') ->
  buildResponseForPrimary i db2 = (Resolved response, db') ->
  wellLinked (contacts db2)
  /\ fst (buildResponseForPrimary i db2) = Resolved response.
Proof.
  intros Hwl E. pose proof (buildResponseForPrimary_database i db2) as Hdb.
  rewrite E in Hdb |- *. simpl in Hdb. subst db'. auto.
Qed.

Lemma found_primary_in_table db email phoneNumber matches c :
  wellLinked (contacts db) ->
  fst (findContactsByEmailOrPhone email phoneNumber db) = Resolved matches ->
  In c (findPrimaryContacts matches) ->
  In c matches /\ In c (contacts db) /\ linkPrecedence c = PRIMARY
  /\ id c <> 0.
Proof.
  intros Hwl Hlook Hc.
  pose proof (lookup_In _ _ _ _ (wl_normal _ Hwl) Hlook) as Hsub.
  destruct (findPrimaryContacts_primary _ _ c Hwl Hsub Hc) as [Hm Hp].
  repeat split; auto.
  pose proof (wl_positive _ Hwl c (Hsub c Hm)). lia.
Qed.

(** A request's values are carried by a contact of the cluster the
    response is read from. *)
Lemma request_values_carried now request db response db' :
  wellLinked (contacts db) ->
  identify now request db = (Resolved response, db') ->
  forall (f : Contact -> option string) (v : option string),
    (f = Types.email /\ v = reqEmail request)
    \/ (f = Types.phoneNumber /\ v = reqPhoneNumber request) ->
    truthyStr v = true ->
    exists c,
      In c (linkedRows (primaryContactId response) (contacts db'))
      /\ f c = v.
Proof.
  intros Hwl Hrun f v Hfv Hv.
  pose proof (identify_wellLinked _ _ _ _ _ Hwl Hrun) as Hwl'.
  destruct (identify_resolved_shape _ _ _ _ _ Hrun)
    as (matches & Hlook & Hshape). cbv zeta in Hshape.
  assert (Hstored : forall row,
             Types.email row = stored (reqEmail request) ->
             Types.phoneNumber row = stored (reqPhoneNumber request) ->
             f row = v).
  { intros row He Hp.
    destruct Hfv as [[-> ->]|[-> ->]];
      [rewrite He|rewrite Hp]; now apply stored_truthy. }
  (* the response is read from a table with the rows of [db'] *)
  assert (Hread : forall i db2,
             buildResponseForPrimary i db2 = (Resolved response, db') ->
             (exists c, In c (linkedRows i (contacts db2)) /\ f c = v) ->
             exists c,
               In c (linkedRows (primaryContactId response) (contacts db'))
               /\ f c = v).
  { intros i db2 E Hcarrier.
    destruct (build_wellLinked i db2 response db' Hwl' E) as [Hwl2 Hres].
    destruct (buildResponseForPrimary_projection i db2 response Hwl2 Hres)
      as (_ & _ & _ & _ & -> & _).
    pose proof (buildResponseForPrimary_database i db2) as Hdb.
    rewrite E in Hdb. simpl in Hdb. now subst db'. }
  destruct Hshape
    as [[-> Hcreate]
       |[(P & db2 & Hfound & Hdb2 & Hbuild)
        |(O & db1 & db2 & Hne & Hold & Hdb1 & Hdb2 & Hbuild)]].
  - rewrite createNewPrimaryContact_resolves in Hcreate.
    injection Hcreate as <- <-. cbn [primaryContactId contacts].
    eexists. split.
    + apply linkedRows_In. split; [apply in_or_app; right; now left|].
      split; [now left|reflexivity].
    + now apply Hstored.
  - destruct (found_primary_in_table db _ _ matches P Hwl Hlook)
      as (_ & HP & HPp & HPid); [rewrite Hfound; now left|].
    apply (Hread (id P) db2 Hbuild).
    destruct (needsSecondaryContact P (reqEmail request)
                                    (reqPhoneNumber request)) eqn:Hneeds.
    + destruct (inserted_secondary_in_cluster
                  now (reqEmail request) (reqPhoneNumber request) (id P)
                  (logCall CallFindContactsByEmailOrPhone db) HPid)
        as (row & Hrow & He & Hp).
      exists row. rewrite Hdb2. split; [exact Hrow|now apply Hstored].
    + exists P. rewrite Hdb2. split.
      * apply linkedRows_In. repeat split; auto.
        now apply (wl_live _ Hwl).
      * assert (Hno : ~ ((truthyStr (reqEmail request) = true
                          /\ Types.email P <> reqEmail request)
                         \/ (truthyStr (reqPhoneNumber request) = true
                             /\ Types.phoneNumber P
                                <> reqPhoneNumber request))).
        { intros H. apply needsSecondaryContact_iff in H. congruence. }
        destruct Hfv as [[-> ->]|[-> ->]].
        -- destruct (strictEq (Types.email P) (reqEmail request)) eqn:E;
             [now apply strictEq_eq|].
           exfalso. apply Hno. left. split; [assumption|].
           now apply strictEq_neq.
        -- destruct (strictEq (Types.phoneNumber P)
                              (reqPhoneNumber request)) eqn:E;
             [now apply strictEq_eq|].
           exfalso. apply Hno. right. split; [assumption|].
           now apply strictEq_neq.
  - destruct (found_primary_in_table
                db _ _ matches O Hwl Hlook (oldestPrimary_In _ _ Hold))
      as (_ & HO & HOp & HOid).
    apply (Hread (id O) db2 Hbuild).
    destruct (build_wellLinked (id O) db2 response db' Hwl' Hbuild)
      as [Hwl2 _].
    destruct (hasNewInformation
                (map rowToContact (linkedRows (id O) (contacts db1)))
                (reqEmail request) (reqPhoneNumber request)) eqn:Hnew.
    + destruct (inserted_secondary_in_cluster
                  now (reqEmail request) (reqPhoneNumber request) (id O)
                  db1 HOid) as (row & Hrow & He & Hp).
      exists row. rewrite Hdb2. split; [exact Hrow|now apply Hstored].
    + subst db2.
      assert (Hno : forall g w,
                 (g = Types.email /\ w = reqEmail request)
                 \/ (g = Types.phoneNumber /\ w = reqPhoneNumber request) ->
                 forall s, w = Some s -> s <> EmptyString ->
                 In s (truthyValues
                         g (map rowToContact
                                (linkedRows (id O) (contacts db1))))).
      { intros g w Hgw s Hw Hs.
        destruct (in_dec string_dec s
                         (truthyValues
                            g (map rowToContact
                                   (linkedRows (id O) (contacts db1)))))
          as [Hin|Hout]; [assumption|].
        exfalso.
        assert (H : hasNewInformation
                      (map rowToContact (linkedRows (id O) (contacts db1)))
                      (reqEmail request) (reqPhoneNumber request) = true);
          [|congruence].
        apply hasNewInformation_iff.
        destruct Hgw as [[-> ->]|[-> ->]]; [left|right]; eauto. }
      destruct v as [s|]; [|discriminate].
      pose proof (proj1 (truthyStr_Some s) Hv) as Hs.
      pose proof (Hno f (Some s) Hfv s eq_refl Hs) as Hin.
      apply truthyValues_In in Hin. destruct Hin as (c' & Hc' & E & _).
      apply in_map_iff in Hc'. destruct Hc' as (r & <- & Hr).
      exists r. split; [assumption|].
      pose proof Hr as Hr'. apply linkedRows_In in Hr'.
      now rewrite (wl_normal _ Hwl2 r (proj1 Hr')) in E.
Qed.

End RequestValues.

(** X12. What was asked is in the answer.  On a database reached from the
    empty one by resolved requests, the response of a resolved [identify]
    lists the request's email among its emails and the request's phone
    number among its phone numbers, whenever the request has them. *)
Theorem X12_response_lists_the_request_values :
  forall now request db response db',
    reachable db ->
    identify now request db = (Resolved response, db') ->
    (forall e, reqEmail request = Some e -> e <> EmptyString ->
               In e (emails response))
    /\ (forall p, reqPhoneNumber request = Some p -> p <> EmptyString ->
                  In p (phoneNumbers response)).
Proof.
  intros now request db response db' Hreach Hrun.
  pose proof (reachable_wellLinked db Hreach) as Hwl.
  pose proof (identify_wellLinked _ _ _ _ _ Hwl Hrun) as Hwl'.
  pose proof (identify_projection _ _ _ _ _ Hwl Hrun) as Hproj.
  split.
  - intros e He Hne.
    destruct (request_values_carried
                now request db response db' Hwl Hrun
                Types.email (reqEmail request)) as (c & Hc & E); auto.
    { rewrite He. now apply truthyStr_Some. }
    apply (proj1 (cluster_values_listed _ _ _ Hwl' Hproj c Hc)).
    congruence.
  - intros p Hp Hne.
    destruct (request_values_carried
                now request db response db' Hwl Hrun
                Types.phoneNumber (reqPhoneNumber request))
      as (c & Hc & E); auto.
    { rewrite Hp. now apply truthyStr_Some. }
    apply (proj2 (cluster_values_listed _ _ _ Hwl' Hproj c Hc)).
    congruence.
Qed.

Lemma X12_response_lists_the_request_values_witness :
  let a := Some "a@x.com"%string in
  let b := Some "b@x.com"%string in
  let db :=
    after 2 {| reqEmail := b; reqPhoneNumber := Some "+2"%string |}
      (after 1 {| reqEmail := a; reqPhoneNumber := Some "+1"%string |}
             emptyDatabase) in
  let request := {| reqEmail := a; reqPhoneNumber := Some "+2"%string |} in
  let response := {| primaryContactId := 1;
                     emails := ["a@x.com"%string; "b@x.com"%string];
                     phoneNumbers := ["+1"%string; "+2"%string];
                     secondaryContactIds := [2] |} in
  (forall e, reqEmail request = Some e -> e <> EmptyString ->
             In e (emails response))
  /\ (forall p, reqPhoneNumber request = Some p -> p <> EmptyString ->
                In p (phoneNumbers response)).
Proof.
  intros a b db request response.
  apply (X12_response_lists_the_request_values
           3 request db response (after 3 request db)).
  - eapply reachable_after; [|reflexivity].
    eapply reachable_after; [|reflexivity].
    apply reachable_empty.
  - reflexivity.
Defined.

Section MergeOutcome.

Import Database.

(** Rows the loop links to the oldest primary: the contacts to merge, the
    rows linked to one of them, and the rows already linked to it. *)
Lemma demoteAll_links now toMerge o rows i :
  ~ In o (map id toMerge) ->
  (forall r, In r rows -> id r = i ->
             In (id r) (map id toMerge)
             \/ (exists l, linkedId r = Some l /\ In l (map id toMerge))
             \/ linkedId r = Some o) ->
  forall r', In r' (demoteAll now toMerge o rows) -> id r' = i ->
             linkedId r' = Some o.
Proof.
  unfold demoteAll. revert rows.
  induction toMerge as [|x rest IH]; intros rows Hnot Hrows r' Hr' Hid;
    cbn [fold_left map] in *.
  - destruct (Hrows r' Hr' Hid) as [[]|[(l & _ & [])|H]]. exact H.
  - assert (Hx : id x <> o) by (intros E; apply Hnot; now left).
    assert (Hrest : ~ In o (map id rest)) by (intros E; apply Hnot; now right).
    apply (IH (demote now (id x) o rows) Hrest); auto.
    intros r1 Hr1 Hid1. apply demote_In in Hr1.
    destruct Hr1
      as (r & Hr & (Eid & _) & _
          & [(E1 & _ & E2)|[(N1 & E1 & _ & E2)|(N1 & N2 & ->)]]);
      auto.
    assert (Hri : id r = i) by congruence.
    destruct (Hrows r Hr Hri) as [[H|H]|[(l & Hl & [H|H])|H]].
    + congruence.
    + left. exact H.
    + congruence.
    + right. left. eauto.
    + auto.
Qed.

(** When the merge resolves, the oldest primary was not among the contacts
    it converted. *)
Lemma resolved_merge_keeps_oldest
      (b : bool) now email phoneNumber toMerge o db1 rows response :
  primariesUnlinked rows ->
  contacts db1 = demoteAll now toMerge o rows ->
  fst (buildResponseForPrimary
         o (if b
            then snd (createSecondaryContact now email phoneNumber o db1)
            else db1)) = Resolved response ->
  ~ In o (map id toMerge).
Proof.
  intros Hu Hrows Hres Hin.
  assert (Hu1 : primariesUnlinked (contacts db1)).
  { rewrite Hrows. now apply demoteAll_primariesUnlinked. }
  assert (Hn1 : noPrimaryAt o (contacts db1)).
  { rewrite Hrows. now apply demoteAll_self_noPrimaryAt. }
  rewrite buildResponseForPrimary_rejects in Hres; [discriminate| |];
    destruct b; auto; unfold createSecondaryContact;
    rewrite createContact_resolves; cbn [snd contacts];
    intros r Hr Hp; apply in_app_or in Hr;
    destruct Hr as [Hr|[<-|[]]]; auto; discriminate Hp.
Qed.

Lemma linked_row_is_listed i db response r :
  wellLinked (contacts db) ->
  fst (buildResponseForPrimary i db) = Resolved response ->
  In r (contacts db) -> linkedId r = Some i ->
  In (id r) (secondaryContactIds response).
Proof.
  intros Hwl Hres Hr Hl.
  destruct (buildResponseForPrimary_projection i db response Hwl Hres)
    as (_ & _ & _ & _ & _ & _ & _ & ->).
  apply in_map, filter_In. split.
  - apply linkedRows_In. repeat split; auto. now apply (wl_live _ Hwl).
  - apply isSecondary_true. destruct (linkPrecedence r) eqn:E; [|reflexivity].
    rewrite (wl_primary _ Hwl r Hr E) in Hl. discriminate.
Qed.

Lemma sorted_head_and_tail primaryContacts oldest c :
  oldestPrimary primaryContacts = Some oldest ->
  In c primaryContacts ->
  createdAt oldest <= createdAt c
  /\ (c = oldest \/ In c (contactsToMerge primaryContacts)).
Proof.
  unfold oldestPrimary, contactsToMerge. intros Hold Hc.
  apply sortByCreatedAt_In in Hc.
  pose proof (sortByCreatedAt_sorted primaryContacts) as Hs.
  destruct (sortByCreatedAt primaryContacts) as [|x l]; [discriminate|].
  injection Hold as ->. inversion Hs as [|? ? _ Hx]; subst.
  rewrite Forall_forall in Hx. destruct Hc as [->|Hc].
  - split; [lia|now left].
  - split; [exact (Hx c Hc)|now right].
Qed.

(** The cluster of the response holds every matched primary and every
    contact that was linked to one. *)
Lemma matched_primaries_gathered now request db response db' matches :
  wellLinked (contacts db) ->
  identify now request db = (Resolved response, db') ->
  fst (findContactsByEmailOrPhone (reqEmail request) (reqPhoneNumber request)
                                  db) = Resolved matches ->
  matches <> [] ->
  exists oldest,
    In oldest (findPrimaryContacts matches)
    /\ id oldest = primaryContactId response
    /\ forall c,
        In c (findPrimaryContacts matches) ->
        createdAt oldest <= createdAt c
        /\ (id c = primaryContactId response
            \/ In (id c) (secondaryContactIds response))
        /\ forall s, In s (contacts db) -> linkedId s = Some (id c) ->
                     In (id s) (secondaryContactIds response).
Proof.
  intros Hwl Hrun Hlook Hne.
  pose proof (identify_wellLinked _ _ _ _ _ Hwl Hrun) as Hwl'.
  destruct (identify_resolved_shape _ _ _ _ _ Hrun)
    as (matches' & Hlook' & Hshape). cbv zeta in Hshape.
  rewrite Hlook in Hlook'. injection Hlook' as <-.
  destruct Hshape
    as [[-> _]
       |[(P & db2 & Hfound & Hdb2 & Hbuild)
        |(O & db1 & db2 & _ & Hold & Hdb1 & Hdb2 & Hbuild)]];
    [congruence| |].
  - (* one primary *)
    destruct (build_wellLinked (id P) db2 response db' Hwl' Hbuild)
      as [Hwl2 Hres].
    destruct (buildResponseForPrimary_projection _ _ _ Hwl2 Hres)
      as (_ & _ & _ & _ & Hpid & _).
    exists P. rewrite Hfound. split; [now left|]. split; [now rewrite Hpid|].
    intros c [<-|[]]. split; [lia|]. split; [left; now rewrite Hpid|].
    intros s Hs Hl. apply (linked_row_is_listed (id P) db2); auto.
    rewrite Hdb2. destruct (needsSecondaryContact P _ _); [|exact Hs].
    unfold createSecondaryContact. rewrite createContact_resolves.
    cbn [snd contacts logCall]. apply in_or_app. now left.
  - (* several primaries *)
    destruct (build_wellLinked (id O) db2 response db' Hwl' Hbuild)
      as [Hwl2 Hres].
    destruct (buildResponseForPrimary_projection _ _ _ Hwl2 Hres)
      as (_ & _ & _ & _ & Hpid & _).
    set (toMerge := contactsToMerge (findPrimaryContacts matches)) in *.
    assert (Hrows1 : contacts db1
                     = demoteAll now toMerge (id O) (contacts db)).
    { rewrite Hdb1, convertToSecondaries_run. reflexivity. }
    assert (Hnot : ~ In (id O) (map id toMerge)).
    { rewrite Hdb2 in Hres.
      exact (resolved_merge_keeps_oldest
               _ now _ _ toMerge (id O) db1 (contacts db) response
               (wl_primary _ Hwl) Hrows1 Hres). }
    (* a row of the old table the loop links to the oldest is listed *)
    assert (Hlisted : forall r,
               In r (contacts db) ->
               In (id r) (map id toMerge)
               \/ (exists l, linkedId r = Some l /\ In l (map id toMerge))
               \/ linkedId r = Some (id O) ->
               In (id r) (secondaryContactIds response)).
    { intros r Hr Hcase.
      assert (Hin1 : In (id r) (map id (contacts db1))).
      { rewrite Hrows1, demoteAll_ids. now apply in_map. }
      apply in_map_iff in Hin1. destruct Hin1 as (r1 & Eid & Hr1).
      assert (Hl1 : linkedId r1 = Some (id O)).
      { rewrite Hrows1 in Hr1.
        apply (demoteAll_links now toMerge (id O) (contacts db) (id r));
          auto.
        intros r0 Hr0 E0.
        assert (r0 = r); [|now subst].
        apply (same_id_same_row (contacts db)); auto using wl_ids. }
      rewrite <- Eid. apply (linked_row_is_listed (id O) db2); auto.
      rewrite Hdb2.
      destruct (hasNewInformation _ _ _); [|exact Hr1].
      unfold createSecondaryContact. rewrite createContact_resolves.
      cbn [snd contacts]. apply in_or_app. now left. }
    exists O. split; [now apply oldestPrimary_In|].
    split; [now rewrite Hpid|].
    intros c Hc.
    destruct (sorted_head_and_tail _ O c Hold Hc) as [Hle Hcase].
    destruct (found_primary_in_table db _ _ matches c Hwl Hlook Hc)
      as (_ & Hcin & _).
    split; [exact Hle|]. split.
    + destruct Hcase as [->|Htail]; [left; now rewrite Hpid|right].
      apply Hlisted; [assumption|]. left. now apply in_map.
    + intros s Hs Hl. apply Hlisted; [assumption|].
      destruct Hcase as [->|Htail]; [now right; right|].
      right. left. exists (id c). split; [assumption|now apply in_map].
Qed.

End MergeOutcome.

(** X13. The oldest matched primary wins, and what it wins is complete.
    On a database reached from the empty one by resolved requests, when
    the lookup of a resolved request delivers contacts, the response's
    primaryContactId is the id of a matched PRIMARY contact whose createdAt
    is the least among the matched PRIMARY contacts; every matched PRIMARY
    contact has the primaryContactId or is among the secondaryContactIds,
    and so is every contact that was linked to a matched PRIMARY contact
    before the request. *)
Theorem X13_oldest_matched_primary_gathers_the_others :
  forall now request db response db' matches,
    reachable db ->
    identify now request db = (Resolved response, db') ->
    fst (Database.findContactsByEmailOrPhone
           (reqEmail request) (reqPhoneNumber request) db)
    = Resolved matches ->
    matches <> [] ->
    exists oldest,
      In oldest matches
      /\ linkPrecedence oldest = PRIMARY
      /\ id oldest = primaryContactId response
      /\ forall c,
          In c matches -> linkPrecedence c = PRIMARY ->
          createdAt oldest <= createdAt c
          /\ (id c = primaryContactId response
              \/ In (id c) (secondaryContactIds response))
          /\ forall s, In s (contacts db) -> linkedId s = Some (id c) ->
                       In (id s) (secondaryContactIds response).
Proof.
  intros now request db response db' matches Hreach Hrun Hlook Hne.
  pose proof (reachable_wellLinked db Hreach) as Hwl.
  destruct (matched_primaries_gathered
              now request db response db' matches Hwl Hrun Hlook Hne)
    as (oldest & Hin & Hid & Hall).
  destruct (found_primary_in_table db _ _ matches oldest Hwl Hlook Hin)
    as (Hm & _ & Hp & _).
  exists oldest. split; [exact Hm|]. split; [exact Hp|].
  split; [exact Hid|]. intros c Hc Hcp. apply Hall.
  apply findPrimaryContacts_complete; [exact Hc|].
  now apply isPrimary_true.
Qed.

Lemma X13_oldest_matched_primary_gathers_the_others_witness :
  let a := Some "a@x.com"%string in
  let b := Some "b@x.com"%string in
  let db :=
    after 3 {| reqEmail := b; reqPhoneNumber := Some "+3"%string |}
      (after 2 {| reqEmail := b; reqPhoneNumber := Some "+2"%string |}
         (after 1 {| reqEmail := a; reqPhoneNumber := Some "+1"%string |}
                emptyDatabase)) in
  let request := {| reqEmail := a; reqPhoneNumber := Some "+2"%string |} in
  let response := {| primaryContactId := 1;
                     emails := ["a@x.com"%string; "b@x.com"%string];
                     phoneNumbers := ["+1"%string; "+2"%string; "+3"%string];
                     secondaryContactIds := [2; 3] |} in
  let matches :=
    [{| id := 1; phoneNumber := Some "+1"%string; email := a;
        linkedId := None; linkPrecedence := PRIMARY; createdAt := 1;
        updatedAt := 1; deletedAt := None |};
     {| id := 2; phoneNumber := Some "+2"%string; email := b;
        linkedId := None; linkPrecedence := PRIMARY; createdAt := 2;
        updatedAt := 2; deletedAt := None |}] in
  exists oldest,
    In oldest matches
    /\ linkPrecedence oldest = PRIMARY
    /\ id oldest = primaryContactId response
    /\ forall c,
        In c matches -> linkPrecedence c = PRIMARY ->
        createdAt oldest <= createdAt c
        /\ (id c = primaryContactId response
            \/ In (id c) (secondaryContactIds response))
        /\ forall s, In s (contacts db) -> linkedId s = Some (id c) ->
                     In (id s) (secondaryContactIds response).
Proof.
  intros a b db request response matches.
  apply (X13_oldest_matched_primary_gathers_the_others
           4 request db response (after 4 request db) matches).
  - eapply reachable_after; [|reflexivity].
    eapply reachable_after; [|reflexivity].
    eapply reachable_after; [|reflexivity].
    apply reachable_empty.
  - reflexivity.
  - reflexivity.
  - discriminate.
Defined.

Section Decisions.

Lemma includes_truthyValues_single (f : Contact -> option string) c s :
  s <> EmptyString ->
  includes (truthyValues f [c]) s = strictEq (f c) (Some s).
Proof.
  intros Hs. unfold truthyValues, includes. cbn [flat_map].
  rewrite app_nil_r. destruct (f c) as [v|]; [|reflexivity].
  cbn [strictEq].
  destruct (String.eqb_spec v EmptyString) as [->|Hv]; cbn [existsb].
  - symmetry. apply String.eqb_neq. congruence.
  - rewrite orb_false_r. apply String.eqb_sym.
Qed.

Lemma new_value_single (f : Contact -> option string) c v :
  match v with
  | Some s => truthyStr v && negb (includes (truthyValues f [c]) s)
  | None => false
  end
  = truthyStr v && negb (strictEq (f c) v).
Proof.
  destruct v as [s|]; [|reflexivity].
  destruct (truthyStr (Some s)) eqn:E; [|reflexivity].
  apply truthyStr_Some in E.
  now rewrite includes_truthyValues_single.
Qed.

End Decisions.

(** X14. The two tests for new information agree on a single contact: what
    [needsSecondaryContact] answers for a primary contact and a request is
    what [hasNewInformation] answers for the list holding that contact
    alone, for every contact and every pair of request values. *)
Theorem X14_attach_test_is_merge_test_on_one_contact :
  forall primaryContact email phoneNumber,
    needsSecondaryContact primaryContact email phoneNumber
    = hasNewInformation [primaryContact] email phoneNumber.
Proof.
  intros c email phoneNumber.
  unfold needsSecondaryContact, hasNewInformation. cbv zeta.
  rewrite !new_value_single.
  destruct (truthyStr email), (truthyStr phoneNumber),
    (strictEq (Types.email c) email),
    (strictEq (Types.phoneNumber c) phoneNumber); reflexivity.
Qed.

Section ContactGroups.

Import Database.

Lemma filter_all {A : Type} (f : A -> bool) (l : list A) :
  (forall x, In x l -> f x = true) -> filter f l = l.
Proof.
  induction l as [|x l IH]; simpl; intros H; [reflexivity|].
  rewrite (H x) by now left. rewrite IH; [reflexivity|].
  intros y Hy. apply H. now right.
Qed.

(** In a table kept in order the cluster is read with its primary first,
    and every contact after it is a secondary. *)
Lemma cluster_primary_first i rows P :
  inOrder rows ->
  find isPrimary (linkedRows i rows) = Some P ->
  id P = i
  /\ exists others,
      linkedRows i rows = P :: others
      /\ filter isSecondary others = others.
Proof.
  intros Hio Hfind. pose proof (io_linked _ Hio) as Hwl.
  apply find_some in Hfind. destruct Hfind as [HP Hprim].
  apply isPrimary_true in Hprim.
  pose proof HP as HP'. apply linkedRows_In in HP'.
  destruct HP' as (HPin & HPid & _).
  assert (Hid : id P = i).
  { destruct HPid as [E|E]; [exact E|].
    rewrite (wl_primary _ Hwl P HPin Hprim) in E. discriminate. }
  split; [exact Hid|].
  assert (Hsorted : StronglySorted (fun a b => id a < id b)
                                   (linkedRows i rows)).
  { unfold linkedRows.
    rewrite sortByCreatedAt_filter by exact (io_times _ Hio).
    apply (StronglySorted_map_filter Z.lt id). exact (io_ids _ Hio). }
  assert (Hleast : forall c, In c (linkedRows i rows) ->
                             c = P \/ id P < id c).
  { intros c Hc. apply linkedRows_In in Hc.
    destruct Hc as (Hcin & [E|E] & _).
    - left. apply (same_id_same_row rows); auto using wl_ids. congruence.
    - right. rewrite Hid. exact (io_after _ Hio c i Hcin E). }
  destruct (sorted_ids_head _ P Hsorted HP Hleast) as (others & Hl).
  exists others. split; [exact Hl|].
  apply filter_all. intros c Hc.
  rewrite Hl in Hsorted. inversion Hsorted as [|? ? _ Hall]; subst.
  rewrite Forall_forall in Hall. specialize (Hall c Hc).
  assert (Hcl : In c (linkedRows (id P) rows)).
  { rewrite Hl. now right. }
  apply linkedRows_In in Hcl. destruct Hcl as (Hcin & [E|E] & _); [lia|].
  apply isSecondary_true.
  destruct (linkPrecedence c) eqn:Ep; [|reflexivity].
  rewrite (wl_primary _ Hwl c Hcin Ep) in E. discriminate.
Qed.

Lemma getContactGroup_resolves primaryContactId db :
  exists group,
    fst (getContactGroup primaryContactId db) = Resolved group.
Proof.
  unfold getContactGroup, await. cbn [findAllLinkedContacts]. cbv zeta.
  destruct (find isPrimary _); eexists; reflexivity.
Qed.

(** What [getContactGroup] resolves with is what
    [buildResponseForPrimary] reads, when the table is in order. *)
Lemma getContactGroup_inOrder primaryContactId db :
  inOrder (contacts db) ->
  snd (getContactGroup primaryContactId db)
  = snd (buildResponseForPrimary primaryContactId db)
  /\ (fst (getContactGroup primaryContactId db) = Resolved None
      <-> fst (buildResponseForPrimary primaryContactId db)
          = Rejected (Thrown "Primary contact not found"))
  /\ forall group,
      fst (getContactGroup primaryContactId db) = Resolved (Some group) ->
      id (Group.primaryContact group) = primaryContactId
      /\ linkPrecedence (Group.primaryContact group) = PRIMARY
      /\ fst (buildResponseForPrimary primaryContactId db)
         = Resolved
             {| Types.primaryContactId := id (Group.primaryContact group);
                emails := Group.allEmails group;
                phoneNumbers := Group.allPhoneNumbers group;
                secondaryContactIds :=
                  map id (Group.secondaryContacts group) |}.
Proof.
  revert primaryContactId. intros i Hio.
  pose proof (io_linked _ Hio) as Hwl.
  assert (Hread : map Database.rowToContact
                       (Database.linkedRows i (contacts db))
                   = Database.linkedRows i (contacts db)).
  { unfold Database.linkedRows. apply selected_rows.
    exact (wl_normal _ Hwl). }
  unfold getContactGroup, buildResponseForPrimary, await.
  cbn [Database.findAllLinkedContacts]. cbv zeta. rewrite !Hread.
  destruct (find isPrimary (Database.linkedRows i (contacts db)))
    as [P|] eqn:Hfind; cbn [fst snd resolve reject].
  - split; [reflexivity|]. split; [split; discriminate|].
    intros group Hgroup. injection Hgroup as <-.
    cbn [Group.primaryContact Group.secondaryContacts Group.allEmails
         Group.allPhoneNumbers].
    destruct (cluster_primary_first i (contacts db) P Hio Hfind)
      as (Hid & others & Hl & Hsec).
    split; [exact Hid|]. split.
    { apply find_some in Hfind. now apply isPrimary_true. }
    rewrite Hl. cbn [filter fold_left].
    assert (Hp : isSecondary P = false).
    { apply find_some in Hfind. destruct Hfind as [_ Hp].
      unfold isPrimary, isSecondary in *.
      destruct (linkPrecedence P); [reflexivity|discriminate]. }
    rewrite Hp, Hsec. reflexivity.
  - split; [reflexivity|]. split; [split; reflexivity|].
    intros group Hgroup. discriminate Hgroup.
Qed.

End ContactGroups.

(** X15. [getContactGroup] and [buildResponseForPrimary] read the same
    cluster.  On a database reached from the empty one by resolved requests
    under a clock that never runs behind a stored timestamp, the first
    resolves with null exactly when the second rejects with 'Primary
    contact not found'; when it resolves with a group, its primary contact
    is the PRIMARY contact with the id asked for, and the second resolves
    with the id of that contact, the ids of the group's secondary contacts,
    and the group's emails and phone numbers in the same order.  Both leave
    the same database behind. *)
Theorem X15_contact_group_is_the_response_cluster :
  forall primaryContactId db,
    reachableInOrder db ->
    snd (getContactGroup primaryContactId db)
    = snd (buildResponseForPrimary primaryContactId db)
    /\ (fst (getContactGroup primaryContactId db) = Resolved None
        <-> fst (buildResponseForPrimary primaryContactId db)
            = Rejected (Thrown "Primary contact not found"))
    /\ forall group,
        fst (getContactGroup primaryContactId db) = Resolved (Some group) ->
        id (Group.primaryContact group) = primaryContactId
        /\ linkPrecedence (Group.primaryContact group) = PRIMARY
        /\ fst (buildResponseForPrimary primaryContactId db)
           = Resolved
               {| Types.primaryContactId := id (Group.primaryContact group);
                  emails := Group.allEmails group;
                  phoneNumbers := Group.allPhoneNumbers group;
                  secondaryContactIds :=
                    map id (Group.secondaryContacts group) |}.
Proof.
  intros i db Hreach. apply getContactGroup_inOrder.
  now apply reachableInOrder_inOrder.
Qed.

Lemma X15_contact_group_is_the_response_cluster_witness :
  let a := Some "a@x.com"%string in
  let db :=
    after 2 {| reqEmail := a; reqPhoneNumber := Some "+2"%string |}
      (after 1 {| reqEmail := a; reqPhoneNumber := Some "+1"%string |}
             emptyDatabase) in
  snd (getContactGroup 1 db) = snd (buildResponseForPrimary 1 db)
  /\ (fst (getContactGroup 1 db) = Resolved None
      <-> fst (buildResponseForPrimary 1 db)
          = Rejected (Thrown "Primary contact not found"))
  /\ forall group,
      fst (getContactGroup 1 db) = Resolved (Some group) ->
      id (Group.primaryContact group) = 1
      /\ linkPrecedence (Group.primaryContact group) = PRIMARY
      /\ fst (buildResponseForPrimary 1 db)
         = Resolved
             {| Types.primaryContactId := id (Group.primaryContact group);
                emails := Group.allEmails group;
                phoneNumbers := Group.allPhoneNumbers group;
                secondaryContactIds :=
                  map id (Group.secondaryContacts group) |}.
Proof.
  intros a db.
  apply (X15_contact_group_is_the_response_cluster 1 db).
  eapply reachableInOrder_after;
    [|repeat constructor; simpl; lia|reflexivity].
  eapply reachableInOrder_after; [|constructor|reflexivity].
  apply ordered_empty.
Defined.

(** X22. Reading the group back gives the response.  After a request
    that resolved on a database reached under a clock that never runs
    behind a stored timestamp, [getContactGroup] for the response's
    primaryContactId resolves with a group whose primary contact has that
    id, whose secondary contacts have the response's secondaryContactIds,
    and whose emails and phone numbers are the response's, in the same
    order. *)
Theorem X22_group_read_back_is_the_response :
  forall now request db response db',
    reachableInOrder db ->
    clockAhead now db ->
    identify now request db = (Resolved response, db') ->
    exists group,
      fst (getContactGroup (primaryContactId response) db')
      = Resolved (Some group)
      /\ id (Group.primaryContact group) = primaryContactId response
      /\ map id (Group.secondaryContacts group)
         = secondaryContactIds response
      /\ Group.allEmails group = emails response
      /\ Group.allPhoneNumbers group = phoneNumbers response.
Proof.
  intros now request db response db' Hreach Hclock Hrun.
  pose proof (reachableInOrder_inOrder db Hreach) as Hio.
  pose proof (identify_inOrder _ _ _ _ _ Hio Hclock Hrun) as Hio'.
  pose proof (identify_projection _ _ _ _ _ (io_linked _ Hio) Hrun) as Hproj.
  destruct (getContactGroup_inOrder (primaryContactId response) db' Hio')
    as (_ & Hnull & Hgroup).
  destruct (getContactGroup_resolves (primaryContactId response) db')
    as ([group|] & Hres).
  - exists group. split; [exact Hres|].
    destruct (Hgroup group Hres) as (Hid & _ & Hbuild).
    rewrite Hproj in Hbuild. injection Hbuild as ->.
    cbn [Types.primaryContactId emails phoneNumbers secondaryContactIds].
    auto.
  - apply Hnull in Hres. rewrite Hproj in Hres. discriminate Hres.
Qed.

Lemma X22_group_read_back_is_the_response_witness :
  let a := Some "a@x.com"%string in
  let db :=
    after 1 {| reqEmail := a; reqPhoneNumber := Some "+1"%string |}
          emptyDatabase in
  let request := {| reqEmail := a; reqPhoneNumber := Some "+2"%string |} in
  let response := {| primaryContactId := 1;
                     emails := ["a@x.com"%string];
                     phoneNumbers := ["+1"%string; "+2"%string];
                     secondaryContactIds := [2] |} in
  exists group,
    fst (getContactGroup (primaryContactId response) (after 2 request db))
    = Resolved (Some group)
    /\ id (Group.primaryContact group) = primaryContactId response
    /\ map id (Group.secondaryContacts group)
       = secondaryContactIds response
    /\ Group.allEmails group = emails response
    /\ Group.allPhoneNumbers group = phoneNumbers response.
Proof.
  intros a db request response.
  apply (X22_group_read_back_is_the_response
           2 request db response (after 2 request db)).
  - eapply reachableInOrder_after; [|constructor|reflexivity].
    apply ordered_empty.
  - repeat constructor. simpl. lia.
  - reflexivity.
Defined.

Section Clusters.

Import Database.

Lemma demote_row now x o rows r :
  In r rows -> exists r', In r' (demote now x o rows) /\ sameValues r r'.
Proof.
  intros Hr. unfold demote, updateWhere. rewrite map_map.
  eexists. split; [apply in_map_iff; eexists; split; [reflexivity|exact Hr]|].
  destruct (id r =? x); [|destruct (linkedTo x r)];
    try destruct (linkedTo x (setSecondary now o r));
    repeat split.
Qed.

Lemma demoteAll_row now toMerge o rows r :
  In r rows ->
  exists r', In r' (demoteAll now toMerge o rows) /\ sameValues r r'.
Proof.
  unfold demoteAll. revert rows r.
  induction toMerge as [|c rest IH]; intros rows r Hr; cbn [fold_left].
  - exists r. split; [assumption|apply sameValues_refl].
  - destruct (demote_row now (id c) o rows r Hr) as (r1 & Hr1 & H1).
    destruct (IH _ r1 Hr1) as (r' & Hr' & H').
    exists r'. split; [assumption|].
    exact (sameValues_trans _ _ _ H1 H').
Qed.

Lemma demoteAll_unchanged now toMerge o rows r :
  In r rows ->
  ~ In (id r) (map id toMerge) ->
  (forall l, linkedId r = Some l -> ~ In l (map id toMerge)) ->
  In r (demoteAll now toMerge o rows).
Proof.
  unfold demoteAll. revert rows.
  induction toMerge as [|c rest IH]; intros rows Hr Hid Hl;
    cbn [fold_left map] in *; [assumption|].
  apply IH.
  - apply demote_unchanged; [assumption| |].
    + intros E. apply Hid. now left.
    + intros E. apply (Hl _ E). now left.
  - intros E. apply Hid. now right.
  - intros l E H. apply (Hl _ E). now right.
Qed.

Lemma contactsToMerge_In primaryContacts c :
  In c (contactsToMerge primaryContacts) -> In c primaryContacts.
Proof.
  unfold contactsToMerge. intros Hc. apply sortByCreatedAt_In.
  destruct (sortByCreatedAt primaryContacts); [destruct Hc|now right].
Qed.

(** The table a resolved request leaves: the rows before it, after the
    rounds of the merge loop for the primaries it converted, followed by
    the row it inserted, if any. *)
Lemma identify_resolved_table now request db response db' :
  wellLinked (contacts db) ->
  identify now request db = (Resolved response, db') ->
  exists toMerge inserted,
    contacts db'
    = demoteAll now toMerge (primaryContactId response) (contacts db)
      ++ inserted
    /\ ~ In (primaryContactId response) (map id toMerge)
    /\ (forall c, In c toMerge ->
                  In c (contacts db) /\ linkPrecedence c = PRIMARY)
    /\ forall r, In r inserted -> linkPrecedence r = PRIMARY ->
                 fst (findContactsByEmailOrPhone
                        (reqEmail request) (reqPhoneNumber request) db)
                 = Resolved [].
Proof.
  intros Hwl Hrun.
  pose proof (identify_wellLinked _ _ _ _ _ Hwl Hrun) as Hwl'.
  destruct (identify_resolved_shape _ _ _ _ _ Hrun)
    as (matches & Hlook & Hshape). cbv zeta in Hshape.
  assert (Hread : forall i db2,
             buildResponseForPrimary i db2 = (Resolved response, db') ->
             contacts db' = contacts db2
             /\ primaryContactId response = i
             /\ fst (buildResponseForPrimary i db2) = Resolved response).
  { intros i db2 E.
    destruct (build_wellLinked i db2 response db' Hwl' E) as [Hwl2 Hres].
    destruct (buildResponseForPrimary_projection i db2 response Hwl2 Hres)
      as (_ & _ & _ & _ & Hpid & _).
    pose proof (buildResponseForPrimary_database i db2) as Hdb.
    rewrite E in Hdb. simpl in Hdb. subst db'. auto. }
  destruct Hshape
    as [[-> Hcreate]
       |[(P & db2 & Hfound & Hdb2 & Hbuild)
        |(O & db1 & db2 & Hne & Hold & Hdb1 & Hdb2 & Hbuild)]].
  - rewrite createNewPrimaryContact_resolves in Hcreate.
    injection Hcreate as <- <-. cbn [contacts logCall].
    exists []. eexists. split; [reflexivity|].
    split; [intros []|]. split; [intros c []|]. intros r _ _. exact Hlook.
  - destruct (Hread _ _ Hbuild) as (-> & _ & _). exists [].
    rewrite Hdb2.
    destruct (needsSecondaryContact P _ _).
    + unfold createSecondaryContact. rewrite createContact_resolves.
      cbn [snd contacts logCall]. eexists. split; [reflexivity|].
      split; [intros []|]. split; [intros c []|].
      intros r [<-|[]] Hp. discriminate Hp.
    + exists []. cbn [contacts logCall]. rewrite app_nil_r.
      split; [reflexivity|]. split; [intros []|].
      split; [intros c []|intros r []].
  - destruct (Hread _ _ Hbuild) as (-> & Hpid & Hres).
    set (toMerge := contactsToMerge (findPrimaryContacts matches)) in *.
    assert (Hrows1 : contacts db1
                     = demoteAll now toMerge (id O) (contacts db)).
    { rewrite Hdb1, convertToSecondaries_run. reflexivity. }
    assert (Hnot : ~ In (id O) (map id toMerge)).
    { rewrite Hdb2 in Hres.
      exact (resolved_merge_keeps_oldest
               _ now _ _ toMerge (id O) db1 (contacts db) response
               (wl_primary _ Hwl) Hrows1 Hres). }
    exists toMerge. rewrite Hpid, Hdb2.
    assert (Htail : forall c, In c toMerge ->
                              In c (contacts db)
                              /\ linkPrecedence c = PRIMARY).
    { intros c Hc. apply contactsToMerge_In in Hc.
      destruct (found_primary_in_table db _ _ matches c Hwl Hlook Hc)
        as (_ & Hin & Hp & _). auto. }
    destruct (hasNewInformation _ _ _).
    + unfold createSecondaryContact. rewrite createContact_resolves.
      cbn [snd contacts]. rewrite Hrows1. eexists. split; [reflexivity|].
      split; [exact Hnot|]. split; [exact Htail|].
      intros r [<-|[]] Hp. discriminate Hp.
    + exists []. rewrite app_nil_r.
      split; [exact Hrows1|]. split; [exact Hnot|].
      split; [exact Htail|intros r []].
Qed.

End Clusters.

(** X16. A resolved request never splits a cluster.  On a database reached
    from the empty one by resolved requests, the contacts that
    [findAllLinkedContacts] delivers for an id before the request are
    all delivered for one id after it, each with the same id, email,
    phone number and creation time: for the same id, or for the
    primaryContactId of the response when the request merged them into
    its cluster. *)
Theorem X16_resolved_requests_never_split_a_cluster :
  forall now request db response db' p,
    reachable db ->
    identify now request db = (Resolved response, db') ->
    exists p',
      (p' = p \/ p' = primaryContactId response)
      /\ forall r,
          In r (Database.linkedRows p (contacts db)) ->
          exists r',
            In r' (Database.linkedRows p' (contacts db'))
            /\ sameValues r r'.
Proof.
  intros now request db response db' p Hreach Hrun.
  pose proof (reachable_wellLinked db Hreach) as Hwl.
  destruct (identify_resolved_table now request db response db' Hwl Hrun)
    as (toMerge & inserted & Hrows & Hnot & Htail & _).
  set (o := primaryContactId response) in *.
  assert (Hnew : forall r r0 q,
             In r (contacts db) -> deletedAt r = None ->
             In r0 (demoteAll now toMerge o (contacts db)) ->
             sameValues r r0 ->
             id r0 = q \/ linkedId r0 = Some q ->
             exists r', In r' (Database.linkedRows q (contacts db'))
                        /\ sameValues r r').
  { intros r r0 q Hr Hlive Hr0 Hsame Hq. exists r0.
    split; [|exact Hsame]. apply linkedRows_In.
    split; [rewrite Hrows; apply in_or_app; now left|].
    split; [exact Hq|]. destruct Hsame as (_ & _ & _ & _ & ->).
    exact Hlive. }
  destruct (in_dec Z.eq_dec p (map id toMerge)) as [Hp|Hp].
  - (* the cluster of a converted primary *)
    exists o. split; [now right|]. intros r Hr.
    apply linkedRows_In in Hr. destruct Hr as (Hr & Hcase & Hlive).
    destruct (demoteAll_row now toMerge o (contacts db) r Hr)
      as (r0 & Hr0 & Hsame).
    apply (Hnew r r0 o Hr Hlive Hr0 Hsame). right.
    apply (demoteAll_links now toMerge o (contacts db) (id r));
      [exact Hnot| |exact Hr0|apply Hsame].
    intros r1 Hr1 E.
    assert (r1 = r); [|subst r1].
    { apply (same_id_same_row (contacts db)); auto using wl_ids. }
    destruct Hcase as [E1|E1]; [left; now rewrite E1|].
    right. left. eauto.
  - (* any other cluster *)
    exists p. split; [now left|]. intros r Hr.
    apply linkedRows_In in Hr. destruct Hr as (Hr & Hcase & Hlive).
    destruct Hcase as [E|E].
    + destruct (demoteAll_row now toMerge o (contacts db) r Hr)
        as (r0 & Hr0 & Hsame).
      apply (Hnew r r0 p Hr Hlive Hr0 Hsame). left.
      destruct Hsame as (-> & _). exact E.
    + apply (Hnew r r p Hr Hlive); [|apply sameValues_refl|now right].
      apply demoteAll_unchanged; [exact Hr| |].
      * intros Hin. apply in_map_iff in Hin.
        destruct Hin as (c & Ec & Hc).
        destruct (Htail c Hc) as [Hcin Hcp].
        assert (c = r); [|subst c].
        { apply (same_id_same_row (contacts db)); auto using wl_ids. }
        rewrite (wl_primary _ Hwl r Hr Hcp) in E. discriminate.
      * intros l El. rewrite E in El. injection El as <-. exact Hp.
Qed.

Lemma X16_resolved_requests_never_split_a_cluster_witness :
  let a := Some "a@x.com"%string in
  let b := Some "b@x.com"%string in
  let db :=
    after 3 {| reqEmail := b; reqPhoneNumber := Some "+3"%string |}
      (after 2 {| reqEmail := b; reqPhoneNumber := Some "+2"%string |}
         (after 1 {| reqEmail := a; reqPhoneNumber := Some "+1"%string |}
                emptyDatabase)) in
  let request := {| reqEmail := a; reqPhoneNumber := Some "+2"%string |} in
  let response := {| primaryContactId := 1;
                     emails := ["a@x.com"%string; "b@x.com"%string];
                     phoneNumbers := ["+1"%string; "+2"%string; "+3"%string];
                     secondaryContactIds := [2; 3] |} in
  exists p',
    (p' = 2 \/ p' = primaryContactId response)
    /\ forall r,
        In r (Database.linkedRows 2 (contacts db)) ->
        exists r',
          In r' (Database.linkedRows p' (contacts (after 4 request db)))
          /\ sameValues r r'.
Proof.
  intros a b db request response.
  apply (X16_resolved_requests_never_split_a_cluster
           4 request db response (after 4 request db) 2).
  - eapply reachable_after; [|reflexivity].
    eapply reachable_after; [|reflexivity].
    eapply reachable_after; [|reflexivity].
    apply reachable_empty.
  - reflexivity.
Defined.

(** X21. A request that matched something leaves the primaries alone or
    converts them: on a database reached from the empty one by resolved
    requests, when the lookup of a resolved request delivers contacts,
    every PRIMARY contact of the table after the request is a row of the
    table before it, unchanged in every column.  No primary is created and
    none is rewritten. *)
Theorem X21_matching_requests_create_no_primary :
  forall now request db response db' matches,
    reachable db ->
    identify now request db = (Resolved response, db') ->
    fst (Database.findContactsByEmailOrPhone
           (reqEmail request) (reqPhoneNumber request) db)
    = Resolved matches ->
    matches <> [] ->
    forall r, In r (contacts db') -> linkPrecedence r = PRIMARY ->
              In r (contacts db).
Proof.
  intros now request db response db' matches Hreach Hrun Hlook Hne r Hr Hp.
  pose proof (reachable_wellLinked db Hreach) as Hwl.
  destruct (identify_resolved_table now request db response db' Hwl Hrun)
    as (toMerge & inserted & Hrows & _ & _ & Hinserted).
  rewrite Hrows in Hr. apply in_app_or in Hr. destruct Hr as [Hr|Hr].
  - exact (demoteAll_primary_In _ _ _ _ r (wl_primary _ Hwl) Hr Hp).
  - specialize (Hinserted r Hr Hp). rewrite Hlook in Hinserted.
    injection Hinserted as ->. now contradiction Hne.
Qed.

Lemma X21_matching_requests_create_no_primary_witness :
  let a := Some "a@x.com"%string in
  let b := Some "b@x.com"%string in
  let db :=
    after 2 {| reqEmail := b; reqPhoneNumber := Some "+2"%string |}
      (after 1 {| reqEmail := a; reqPhoneNumber := Some "+1"%string |}
             emptyDatabase) in
  let request := {| reqEmail := a; reqPhoneNumber := Some "+2"%string |} in
  let r := {| id := 1; phoneNumber := Some "+1"%string; email := a;
              linkedId := None; linkPrecedence := PRIMARY; createdAt := 1;
              updatedAt := 1; deletedAt := None |} in
  In r (contacts (after 3 request db)) /\ In r (contacts db).
Proof.
  intros a b db request r.
  assert (Hr : In r (contacts (after 3 request db))).
  { left. reflexivity. }
  split; [exact Hr|].
  apply (X21_matching_requests_create_no_primary
           3 request db
           {| primaryContactId := 1;
              emails := ["a@x.com"%string; "b@x.com"%string];
              phoneNumbers := ["+1"%string; "+2"%string];
              secondaryContactIds := [2] |}
           (after 3 request db)
           [r;
            {| id := 2; phoneNumber := Some "+2"%string; email := b;
               linkedId := None; linkPrecedence := PRIMARY; createdAt := 2;
               updatedAt := 2; deletedAt := None |}]).
  - eapply reachable_after; [|reflexivity].
    eapply reachable_after; [|reflexivity].
    apply reachable_empty.
  - reflexivity.
  - reflexivity.
  - discriminate.
  - exact Hr.
  - reflexivity.
Defined.

Section OldestFirst.

Lemma sorted_ids_times rows a b :
  StronglySorted Z.lt (map id rows) ->
  StronglySorted Z.le (map createdAt rows) ->
  In a rows -> In b rows -> id a < id b -> createdAt a <= createdAt b.
Proof.
  induction rows as [|x rows IH]; simpl; intros Hids Htimes Ha Hb Hlt;
    [destruct Ha|].
  inversion Hids as [|? ? Hids' Hx]; subst.
  inversion Htimes as [|? ? Htimes' Hxt]; subst.
  rewrite Forall_forall in Hx, Hxt.
  destruct Ha as [->|Ha], Hb as [->|Hb].
  - lia.
  - apply Hxt. now apply in_map.
  - specialize (Hx (id a) (in_map id _ _ Ha)). lia.
  - now apply IH.
Qed.

End OldestFirst.

(** X17. The primary is the oldest contact of its cluster.  On a database
    reached from the empty one by resolved requests under a clock that
    never runs behind a stored timestamp, every SECONDARY contact is
    linked to a PRIMARY contact of the table that has a smaller id and a
    createdAt not after its own. *)
Theorem X17_primary_is_the_oldest_of_its_cluster :
  forall db secondary,
    reachableInOrder db ->
    In secondary (contacts db) ->
    linkPrecedence secondary = SECONDARY ->
    exists primary,
      In primary (contacts db)
      /\ linkPrecedence primary = PRIMARY
      /\ linkedId secondary = Some (id primary)
      /\ id primary < id secondary
      /\ createdAt primary <= createdAt secondary.
Proof.
  intros db s Hreach Hs Hsec.
  pose proof (reachableInOrder_inOrder db Hreach) as Hio.
  destruct (wl_secondary _ (io_linked _ Hio) s Hs Hsec)
    as (p & Hp & Hl & Hprim).
  pose proof (io_after _ Hio s (id p) Hs Hl) as Hlt.
  exists p. repeat split; auto.
  exact (sorted_ids_times (contacts db) p s (io_ids _ Hio) (io_times _ Hio)
                          Hp Hs Hlt).
Qed.

Lemma X17_primary_is_the_oldest_of_its_cluster_witness :
  let a := Some "a@x.com"%string in
  let db :=
    after 2 {| reqEmail := a; reqPhoneNumber := Some "+2"%string |}
      (after 1 {| reqEmail := a; reqPhoneNumber := Some "+1"%string |}
             emptyDatabase) in
  let secondary :=
    {| id := 2; phoneNumber := Some "+2"%string; email := a;
       linkedId := Some 1; linkPrecedence := SECONDARY;
       createdAt := 2; updatedAt := 2; deletedAt := None |} in
  exists primary,
    In primary (contacts db)
    /\ linkPrecedence primary = PRIMARY
    /\ linkedId secondary = Some (id primary)
    /\ id primary < id secondary
    /\ createdAt primary <= createdAt secondary.
Proof.
  intros a db secondary.
  apply (X17_primary_is_the_oldest_of_its_cluster db secondary).
  - eapply reachableInOrder_after;
      [|repeat constructor; simpl; lia|reflexivity].
    eapply reachableInOrder_after; [|constructor|reflexivity].
    apply ordered_empty.
  - simpl. right. left. reflexivity.
  - reflexivity.
Defined.

Section PatternMatching.

Import RegExp.

Lemma Matches_Never s : Matches Never s <-> False.
Proof. split; [intros H; inversion H|intros []]. Qed.

Lemma Matches_Empty s : Matches Empty s <-> s = [].
Proof.
  split; [intros H; now inversion H|intros ->; constructor].
Qed.

Lemma Matches_Class accepts s :
  Matches (Class accepts) s <-> exists c, s = [c] /\ accepts c = true.
Proof.
  split.
  - intros H. inversion H; subst. eauto.
  - intros (c & -> & H). now constructor.
Qed.

Lemma Matches_Seq r1 r2 s :
  Matches (Seq r1 r2) s
  <-> exists s1 s2, s = s1 ++ s2 /\ Matches r1 s1 /\ Matches r2 s2.
Proof.
  split.
  - intros H. inversion H; subst. eauto.
  - intros (s1 & s2 & -> & H1 & H2). now constructor.
Qed.

Lemma Matches_Alt r1 r2 s :
  Matches (Alt r1 r2) s <-> Matches r1 s \/ Matches r2 s.
Proof.
  split.
  - intros H. inversion H; subst; auto.
  - intros [H|H]; [now apply MatchesAltL|now apply MatchesAltR].
Qed.

Lemma Matches_Star_cons r c s :
  Matches (Star r) (c :: s) ->
  exists s1 s2, s = s1 ++ s2 /\ Matches r (c :: s1) /\ Matches (Star r) s2.
Proof.
  intros H. remember (Star r) as r0 eqn:Er. remember (c :: s) as l eqn:El.
  revert s El.
  induction H as [| | | | | |r' s1 s2 H1 _ H2 IH2]; intros rest El;
    try discriminate.
  injection Er as ->. destruct s1 as [|c1 s1].
  - apply IH2; [reflexivity|exact El].
  - simpl in El. injection El as -> <-. eauto.
Qed.

Lemma nullable_Matches r : nullable r = true <-> Matches r [].
Proof.
  induction r as [| |accepts|r1 IH1 r2 IH2|r1 IH1 r2 IH2|r IH]; simpl.
  - rewrite Matches_Never. split; [discriminate|tauto].
  - rewrite Matches_Empty. tauto.
  - rewrite Matches_Class. split; [discriminate|].
    intros (c & E & _). discriminate E.
  - rewrite andb_true_iff, IH1, IH2, Matches_Seq. split.
    + intros [H1 H2]. exists [], []. auto.
    + intros (s1 & s2 & E & H1 & H2). symmetry in E.
      apply app_eq_nil in E. destruct E as [-> ->]. auto.
  - rewrite orb_true_iff, IH1, IH2, Matches_Alt. tauto.
  - split; [constructor|reflexivity].
Qed.

Lemma derivative_Matches c r s :
  Matches (derivative c r) s <-> Matches r (c :: s).
Proof.
  revert s.
  induction r as [| |accepts|r1 IH1 r2 IH2|r1 IH1 r2 IH2|r IH]; intros s;
    cbn [derivative].
  - rewrite !Matches_Never. tauto.
  - rewrite Matches_Never, Matches_Empty. split; [tauto|discriminate].
  - rewrite Matches_Class. destruct (accepts c) eqn:E.
    + rewrite Matches_Empty. split.
      * intros ->. eauto.
      * intros (c' & E' & _). now injection E'.
    + rewrite Matches_Never. split; [tauto|].
      intros (c' & E' & H). injection E' as -> _. congruence.
  - assert (Hseq : Matches (Seq (derivative c r1) r2) s
                   <-> exists s1 s2, s = s1 ++ s2
                                     /\ Matches r1 (c :: s1)
                                     /\ Matches r2 s2).
    { rewrite Matches_Seq. split; intros (s1 & s2 & E & H1 & H2);
        exists s1, s2; repeat split; auto; now apply IH1. }
    destruct (nullable r1) eqn:En.
    + apply nullable_Matches in En.
      rewrite Matches_Alt, Hseq, IH2, Matches_Seq. split.
      * intros [(s1 & s2 & -> & H1 & H2)|H].
        -- exists (c :: s1), s2. auto.
        -- exists [], (c :: s). auto.
      * intros (s1 & s2 & E & H1 & H2). destruct s1 as [|c1 s1].
        -- right. simpl in E. now rewrite E.
        -- left. simpl in E. injection E as -> ->. eauto.
    + rewrite Hseq, Matches_Seq. split.
      * intros (s1 & s2 & -> & H1 & H2). exists (c :: s1), s2. auto.
      * intros (s1 & s2 & E & H1 & H2). destruct s1 as [|c1 s1].
        -- apply nullable_Matches in H1. congruence.
        -- simpl in E. injection E as -> ->. eauto.
  - rewrite !Matches_Alt, IH1, IH2. tauto.
  - rewrite Matches_Seq. split.
    + intros (s1 & s2 & -> & H1 & H2). apply IH in H1.
      exact (MatchesStarApp r (c :: s1) s2 H1 H2).
    + intros H. apply Matches_Star_cons in H.
      destruct H as (s1 & s2 & -> & H1 & H2).
      exists s1, s2. repeat split; auto. now apply IH.
Qed.

(** The derivative matcher decides the language of the pattern. *)
Lemma test_Matches r s : test r s = true <-> Matches r s.
Proof.
  unfold test. revert r. induction s as [|c s IH]; intros r; simpl.
  - apply nullable_Matches.
  - rewrite IH. apply derivative_Matches.
Qed.

Lemma Matches_Star_Class accepts s :
  Matches (Star (Class accepts)) s
  <-> Forall (fun c => accepts c = true) s.
Proof.
  split.
  - intros H. remember (Star (Class accepts)) as r0 eqn:Er.
    induction H as [| | | | | |r' s1 s2 H1 _ H2 IH2]; try discriminate.
    + constructor.
    + injection Er as ->. apply Matches_Class in H1.
      destruct H1 as (c & -> & Hc). constructor; auto.
  - induction 1 as [|c s Hc _ IH]; [constructor|].
    apply (MatchesStarApp _ [c] s); [now constructor|exact IH].
Qed.

Lemma Matches_plus_Class accepts s :
  Matches (plus (Class accepts)) s
  <-> s <> [] /\ Forall (fun c => accepts c = true) s.
Proof.
  unfold plus. rewrite Matches_Seq. split.
  - intros (s1 & s2 & -> & H1 & H2). apply Matches_Class in H1.
    destruct H1 as (c & -> & Hc). apply Matches_Star_Class in H2.
    split; [discriminate|]. now constructor.
  - intros [Hne H]. destruct H as [|c s Hc Hs]; [congruence|].
    exists [c], s. split; [reflexivity|].
    split; [now constructor|now apply Matches_Star_Class].
Qed.

Lemma Matches_times_Class n accepts s :
  Matches (times n (Class accepts)) s
  <-> List.length s = n /\ Forall (fun c => accepts c = true) s.
Proof.
  revert s. induction n as [|n IH]; intros s; cbn [times].
  - rewrite Matches_Empty. split.
    + intros ->. split; [reflexivity|constructor].
    + intros [E _]. now destruct s.
  - rewrite Matches_Seq. split.
    + intros (s1 & s2 & -> & H1 & H2). apply Matches_Class in H1.
      destruct H1 as (c & -> & Hc). apply IH in H2. destruct H2 as [E H2].
      simpl. split; [now rewrite E|now constructor].
    + intros [E H]. destruct H as [|c s Hc Hs]; [discriminate|].
      exists [c], s. split; [reflexivity|]. split; [now constructor|].
      apply IH. simpl in E. split; [congruence|exact Hs].
Qed.

Lemma Matches_upTo_Class n accepts s :
  Matches (upTo n (Class accepts)) s
  <-> (List.length s <= n)%nat /\ Forall (fun c => accepts c = true) s.
Proof.
  revert s. induction n as [|n IH]; intros s; cbn [upTo].
  - rewrite Matches_Empty. split.
    + intros ->. split; [reflexivity|constructor].
    + intros [E _]. destruct s; [reflexivity|simpl in E; lia].
  - unfold optional. rewrite Matches_Alt, Matches_Empty, Matches_Seq. split.
    + intros [->|(s1 & s2 & -> & H1 & H2)].
      * split; [simpl; lia|constructor].
      * apply Matches_Class in H1. destruct H1 as (c & -> & Hc).
        apply IH in H2. destruct H2 as [E H2].
        simpl. split; [lia|now constructor].
    + intros [E H]. destruct H as [|c s Hc Hs]; [now left|right].
      exists [c], s. split; [reflexivity|]. split; [now constructor|].
      apply IH. simpl in E. split; [lia|exact Hs].
Qed.

Lemma Matches_between_Class n m accepts s :
  (n <= m)%nat ->
  Matches (between n m (Class accepts)) s
  <-> (n <= List.length s <= m)%nat
      /\ Forall (fun c => accepts c = true) s.
Proof.
  intros Hnm. unfold between. rewrite Matches_Seq. split.
  - intros (s1 & s2 & -> & H1 & H2).
    apply Matches_times_Class in H1. apply Matches_upTo_Class in H2.
    destruct H1 as [E1 H1], H2 as [E2 H2].
    rewrite length_app. split; [lia|]. apply Forall_app. auto.
  - intros [E H]. exists (firstn n s), (skipn n s).
    split; [symmetry; apply firstn_skipn|].
    rewrite <- (firstn_skipn n s) in H. apply Forall_app in H.
    destruct H as [H1 H2]. split.
    + apply Matches_times_Class. split; [|exact H1].
      rewrite length_firstn. lia.
    + apply Matches_upTo_Class. split; [|exact H2].
      rewrite length_skipn. lia.
Qed.

End PatternMatching.

Section Validators.

Import RegExp RequestValidator.

Lemma isValidPhoneNumber_iff phoneNumber :
  isValidPhoneNumber phoneNumber = true
  <-> exists digits,
      (phoneNumber = digits \/ phoneNumber = plusSign :: digits)
      /\ (7 <= List.length digits <= 15)%nat
      /\ Forall (fun c => phoneCharacter c = true) digits.
Proof.
  unfold isValidPhoneNumber, phoneRegex, optional.
  rewrite test_Matches, Matches_Seq. split.
  - intros (s1 & s2 & -> & H1 & H2).
    apply Matches_between_Class in H2; [|lia]. destruct H2 as [E H2].
    exists s2. split; [|auto].
    apply Matches_Alt in H1. destruct H1 as [H1|H1].
    + apply Matches_Empty in H1. subst. now left.
    + apply Matches_Class in H1. destruct H1 as (c & -> & Hc).
      apply N.eqb_eq in Hc. subst c. now right.
  - intros (digits & Hs & E & H).
    assert (Hd : Matches (between 7 15 (Class phoneCharacter)) digits).
    { apply Matches_between_Class; [lia|auto]. }
    destruct Hs as [->| ->].
    + exists [], digits. split; [reflexivity|].
      split; [apply MatchesAltL; constructor|exact Hd].
    + exists [plusSign], digits. split; [reflexivity|].
      split; [|exact Hd].
      apply MatchesAltR. constructor. apply N.eqb_refl.
Qed.

Lemma isValidEmail_iff email :
  isValidEmail email = true
  <-> exists name domain ending,
      email = name ++ atSign :: domain ++ fullStop :: ending
      /\ name <> [] /\ domain <> [] /\ ending <> []
      /\ Forall (fun c => notSpaceOrAt c = true) name
      /\ Forall (fun c => notSpaceOrAt c = true) domain
      /\ Forall (fun c => notSpaceOrAt c = true) ending.
Proof.
  unfold isValidEmail, emailRegex.
  rewrite test_Matches, Matches_Seq. split.
  - intros (name & s1 & -> & Hname & H1).
    apply Matches_Seq in H1. destruct H1 as (at1 & s2 & -> & Hat & H2).
    apply Matches_Seq in H2. destruct H2 as (domain & s3 & -> & Hdomain & H3).
    apply Matches_Seq in H3. destruct H3 as (dot & ending & -> & Hdot & Hend).
    apply Matches_Class in Hat. destruct Hat as (c & -> & Hc).
    apply N.eqb_eq in Hc. subst c.
    apply Matches_Class in Hdot. destruct Hdot as (c & -> & Hc).
    apply N.eqb_eq in Hc. subst c.
    apply Matches_plus_Class in Hname, Hdomain, Hend.
    exists name, domain, ending. simpl. intuition.
  - intros (name & domain & ending & -> & N1 & N2 & N3 & H1 & H2 & H3).
    exists name, (atSign :: domain ++ fullStop :: ending).
    split; [reflexivity|]. split; [now apply Matches_plus_Class|].
    apply (MatchesSeq _ _ [atSign]);
      [constructor; apply N.eqb_refl|].
    apply MatchesSeq; [now apply Matches_plus_Class|].
    apply (MatchesSeq _ _ [fullStop]);
      [constructor; apply N.eqb_refl|].
    now apply Matches_plus_Class.
Qed.

End Validators.

(** X18. [isValidPhoneNumber] accepts exactly the strings made of an
    optional plus sign followed by 7 to 15 code units, each of them a
    digit, a white space character, a hyphen or a parenthesis. *)
Theorem X18_valid_phone_numbers :
  forall phoneNumber,
    RequestValidator.isValidPhoneNumber phoneNumber = true
    <-> exists digits,
        (phoneNumber = digits \/ phoneNumber = RegExp.plusSign :: digits)
        /\ (7 <= List.length digits <= 15)%nat
        /\ Forall (fun c => RegExp.isDigit c = true
                            \/ RegExp.isWhiteSpace c = true
                            \/ c = RegExp.hyphen
                            \/ c = RegExp.leftParenthesis
                            \/ c = RegExp.rightParenthesis)
                  digits.
Proof.
  intros phoneNumber. rewrite isValidPhoneNumber_iff.
  assert (Hchar : forall c,
             RequestValidator.phoneCharacter c = true
             <-> RegExp.isDigit c = true
                 \/ RegExp.isWhiteSpace c = true
                 \/ c = RegExp.hyphen
                 \/ c = RegExp.leftParenthesis
                 \/ c = RegExp.rightParenthesis).
  { intros c. unfold RequestValidator.phoneCharacter.
    rewrite !orb_true_iff, !N.eqb_eq. tauto. }
  split; intros (digits & Hs & E & H); exists digits;
    repeat split; try tauto; try lia;
    rewrite Forall_forall in H |- *; intros c Hc; apply Hchar, H, Hc.
Qed.

(** X19. [isValidEmail] accepts exactly the strings of the form
    name@domain.ending in which name, domain and ending are not empty
    and hold neither a white space character nor an at sign. *)
Theorem X19_valid_emails :
  forall email,
    RequestValidator.isValidEmail email = true
    <-> exists name domain ending,
        email = name ++ RegExp.atSign :: domain
                     ++ RegExp.fullStop :: ending
        /\ name <> [] /\ domain <> [] /\ ending <> []
        /\ Forall (fun c => RegExp.isWhiteSpace c = false
                            /\ c <> RegExp.atSign)
                  (name ++ domain ++ ending).
Proof.
  intros email. rewrite isValidEmail_iff.
  assert (Hchar : forall c,
             RequestValidator.notSpaceOrAt c = true
             <-> RegExp.isWhiteSpace c = false /\ c <> RegExp.atSign).
  { intros c. unfold RequestValidator.notSpaceOrAt.
    rewrite negb_true_iff, orb_false_iff, N.eqb_neq. tauto. }
  assert (Hall : forall l,
             Forall (fun c => RequestValidator.notSpaceOrAt c = true) l
             <-> Forall (fun c => RegExp.isWhiteSpace c = false
                                  /\ c <> RegExp.atSign) l).
  { intros l. rewrite !Forall_forall. split; intros H c Hc;
      apply Hchar, H, Hc. }
  split.
  - intros (name & domain & ending & E & N1 & N2 & N3 & H1 & H2 & H3).
    exists name, domain, ending. repeat split; auto.
    rewrite !Forall_app, <- !Hall. auto.
  - intros (name & domain & ending & E & N1 & N2 & N3 & H).
    rewrite !Forall_app, <- !Hall in H.
    exists name, domain, ending. tauto.
Qed.

(** X20. No string passes both tests: a string [isValidEmail] accepts is
    refused by [isValidPhoneNumber]. *)
Theorem X20_no_email_is_a_phone_number :
  forall s,
    RequestValidator.isValidEmail s
    && RequestValidator.isValidPhoneNumber s = false.
Proof.
  intros s.
  destruct (RequestValidator.isValidEmail s) eqn:He; [|reflexivity].
  destruct (RequestValidator.isValidPhoneNumber s) eqn:Hp; [|reflexivity].
  exfalso. apply isValidEmail_iff in He. apply isValidPhoneNumber_iff in Hp.
  destruct He as (name & domain & ending & -> & _).
  destruct Hp as (digits & Hs & _ & H).
  assert (Hat : In RegExp.atSign
                   (name ++ RegExp.atSign :: domain
                         ++ RegExp.fullStop :: ending)).
  { apply in_or_app. right. now left. }
  rewrite Forall_forall in H.
  destruct Hs as [E|E]; rewrite E in Hat.
  - specialize (H _ Hat). discriminate H.
  - destruct Hat as [Hat|Hat]; [discriminate Hat|].
    specialize (H _ Hat). discriminate H.
Qed.

(** X23. What a client of the controller can be answered.  For a request
    body with an email or a phone number, the controller either sends 400
    without touching the database, when the validator refuses the body; or
    sends 200 with the response [identify] resolved with; or hands the
    error [identify] rejected with to [errorHandler], which answers every
    such error with 500 'Internal server error': its answers 400 and
    'Database error' are never given to a rejection of [identify]. *)
Theorem X23_rejections_are_answered_500 :
  forall validateIdentifyRequest now body db,
    truthyStr (reqEmail body) = true
    \/ truthyStr (reqPhoneNumber body) = true ->
    match IdentityController.identify validateIdentifyRequest now body db
    with
    | (Http.Sent response, db') =>
        (Http.isValid (validateIdentifyRequest body) = false
         /\ response
            = {| Http.status := 400;
                 Http.json := Http.ValidationFailed
                                (Http.errors
                                   (validateIdentifyRequest body)) |}
         /\ db' = db)
        \/ (Http.isValid (validateIdentifyRequest body) = true
            /\ exists result,
                identify now body db = (Resolved result, db')
                /\ response
                   = {| Http.status := 200;
                        Http.json := Http.IdentifyResult result |})
    | (Http.Next error, db') =>
        Http.isValid (validateIdentifyRequest body) = true
        /\ identify now body db = (Rejected error, db')
        /\ errorHandler error
           = {| Http.status := 500;
                Http.json := Http.ErrorReport
                               "Internal server error"
                               "An unexpected error occurred" |}
    end.
Proof.
  intros validate now [email phoneNumber] db Htruthy.
  unfold IdentityController.identify. cbv zeta. cbn [reqEmail reqPhoneNumber].
  set (request := {| reqEmail := email; reqPhoneNumber := phoneNumber |}).
  destruct (Http.isValid (validate request)) eqn:Hvalid; cbn [negb].
  2:{ left. auto. }
  destruct (identify now request db) as [[result|error] db'] eqn:Hrun.
  - right. split; [reflexivity|]. exists result. auto.
  - split; [reflexivity|]. split; [reflexivity|].
    assert (Hrej : fst (identify now request db) = Rejected error)
      by now rewrite Hrun.
    destruct (identify_rejection_cases now request db error Hrej)
      as [(_ & He & Hp & _)|[(-> & _)|(-> & _)]]; [|reflexivity..].
    unfold request in He, Hp. cbn [reqEmail reqPhoneNumber] in He, Hp.
    cbn [reqEmail reqPhoneNumber] in Htruthy. destruct Htruthy; congruence.
Qed.

Lemma X23_rejections_are_answered_500_witness :
  let a := Some "a@x.com"%string in
  let db :=
    after 2 {| reqEmail := a; reqPhoneNumber := Some "+2"%string |}
      (after 1 {| reqEmail := a; reqPhoneNumber := Some "+1"%string |}
             emptyDatabase) in
  let body := {| reqEmail := None; reqPhoneNumber := Some "+2"%string |} in
  let accept := fun _ : IdentifyRequest =>
                  {| Http.isValid := true; Http.errors := [] |} in
  match IdentityController.identify accept 3 body db with
  | (Http.Sent response, db') =>
      (Http.isValid (accept body) = false
       /\ response
          = {| Http.status := 400;
               Http.json := Http.ValidationFailed
                              (Http.errors (accept body)) |}
       /\ db' = db)
      \/ (Http.isValid (accept body) = true
          /\ exists result,
              identify 3 body db = (Resolved result, db')
              /\ response
                 = {| Http.status := 200;
                      Http.json := Http.IdentifyResult result |})
  | (Http.Next error, db') =>
      Http.isValid (accept body) = true
      /\ identify 3 body db = (Rejected error, db')
      /\ errorHandler error
         = {| Http.status := 500;
              Http.json := Http.ErrorReport
                             "Internal server error"
                             "An unexpected error occurred" |}
  end.
Proof.
  intros a db body accept.
  apply (X23_rejections_are_answered_500 accept 3 body db).
  right. reflexivity.
Defined.

(* ================================================================= *)
(** ** Which primary a request promotes *)

Section Promotion.

Import Database.












End Promotion.



